(** * Wordle clone: the guess evaluator and the game session

    A shallow embedding of the game script (the functions [evaluateGuess],
    [updateKeyStatus], [revealEvaluation], [addLetter], [deleteLetter],
    [submitGuess], [endGame], [handleKey], [handleHint] and [initGame]) and of
    the answer list of [words.js], followed by the properties of the
    evaluation algorithm and of the row/column state machine. *)

From Stdlib Require Import ZArith Ascii String.
From stdpp Require Import gmap strings list fin_maps.

Local Open Scope Z_scope.
Local Open Scope nat_scope.

(** ** Constants *)

Definition NUM_ROWS : nat := 6.
Definition NUM_COLS : nat := 5.

(** ** Characters and strings

    A JavaScript string is a [string]; one UTF-16 code unit is an [ascii].
    The embedding covers the code units below 128, where [toUpperCase] moves
    [a]..[z] to [A]..[Z] and fixes everything else; every string the script
    upper-cases (answer words, keys that passed the letter test, tile texts)
    lies in that range. *)

Definition isLowerLetter (c : ascii) : bool :=
  let n := N_of_ascii c in (97 <=? n)%N && (n <=? 122)%N.

(** The test [/[A-Z]/] on a one-character string. *)
Definition isUpperLetter (c : ascii) : bool :=
  let n := N_of_ascii c in (65 <=? n)%N && (n <=? 90)%N.

Definition toUpperCaseChar (c : ascii) : ascii :=
  if isLowerLetter c then ascii_of_N (N_of_ascii c - 32) else c.

(** [s.split("")]. *)
Definition split (s : string) : list ascii := String.list_ascii_of_string s.

Definition join (l : list ascii) : string := String.string_of_list_ascii l.

(** [s.toUpperCase()]. *)
Definition toUpperCase (s : string) : string := join (toUpperCaseChar <$> split s).

(** ** Letter statuses

    The tags ["correct"], ["present"] and ["absent"]. *)

Inductive Status := Correct | Present | Absent.

#[global] Instance Status_eq_dec : EqDecision Status.
Proof. solve_decision. Defined.

(** ** Numbers stored in [letterCounts]

    The entries are integers; subtracting one from a missing entry would give
    [NaN], so the type keeps that value. *)

Inductive jsnum := Num (n : Z) | NaN.

(** [(x || 0) + 1] for an entry [x] that may be undefined. *)
Definition orZeroPlusOne (x : option jsnum) : jsnum :=
  match x with
  | Some (Num n) => Num (n + 1)
  | Some NaN | None => Num 1
  end.

(** [x - 1] for an entry [x] that may be undefined. *)
Definition minusOne (x : option jsnum) : jsnum :=
  match x with
  | Some (Num n) => Num (n - 1)
  | Some NaN | None => NaN
  end.

(** [x > 0] for an entry [x] that may be undefined. *)
Definition isPositive (x : option jsnum) : bool :=
  match x with
  | Some (Num n) => (0 <? n)%Z
  | Some NaN | None => false
  end.

(** [letterCounts[g] -= 1]. *)
Definition decrement (g : ascii) (letterCounts : gmap ascii jsnum) : gmap ascii jsnum :=
  <[g := minusOne (letterCounts !! g)]> letterCounts.

(** ** The evaluator *)

(** A counted loop [for (let i = 0; i < n; i++)], run over its indices; a body
    that hits [undefined.toUpperCase()] throws, which is [None]. *)
Fixpoint forLoop {St : Type} (body : nat → St → option St) (indices : list nat)
    (st : St) : option St :=
  match indices with
  | [] => Some st
  | i :: rest =>
      match body i st with
      | Some st' => forLoop body rest st'
      | None => None
      end
  end.

(** The loop that fills [letterCounts] from the secret's characters. *)
Definition countLetters (secretChars : list ascii) : gmap ascii jsnum :=
  foldl (λ letterCounts ch,
           let upper := toUpperCaseChar ch in
           <[upper := orZeroPlusOne (letterCounts !! upper)]> letterCounts)
        ∅ secretChars.

(** Body of the first pass: mark correct positions. *)
Definition markCorrect (guessChars secretChars : list ascii) (i : nat)
    (st : list Status * gmap ascii jsnum) : option (list Status * gmap ascii jsnum) :=
  let '(result, letterCounts) := st in
  match guessChars !! i, secretChars !! i with
  | Some gch, Some sch =>
      let g := toUpperCaseChar gch in
      let s := toUpperCaseChar sch in
      if decide (g = s)
      then Some (<[i := Correct]> result, decrement g letterCounts)
      else Some (result, letterCounts)
  | _, _ => None
  end.

(** Body of the second pass: mark present letters. *)
Definition markPresent (guessChars : list ascii) (i : nat)
    (st : list Status * gmap ascii jsnum) : option (list Status * gmap ascii jsnum) :=
  let '(result, letterCounts) := st in
  if decide (result !! i = Some Correct) then Some (result, letterCounts)
  else
    match guessChars !! i with
    | Some gch =>
        let g := toUpperCaseChar gch in
        if isPositive (letterCounts !! g)
        then Some (<[i := Present]> result, decrement g letterCounts)
        else Some (<[i := Absent]> result, letterCounts)
    | None => None
    end.

Definition evaluateGuess (guess secret : string) : option (list Status) :=
  let result := replicate NUM_COLS Absent in
  let secretChars := split secret in
  let guessChars := split guess in
  let letterCounts := countLetters secretChars in
  match forLoop (markCorrect guessChars secretChars) (seq 0 NUM_COLS)
                (result, letterCounts) with
  | Some st1 =>
      match forLoop (markPresent guessChars) (seq 0 NUM_COLS) st1 with
      | Some (result', _) => Some result'
      | None => None
      end
  | None => None
  end.

(** ** Key statuses *)

Definition priority (st : Status) : nat :=
  match st with
  | Correct => 3
  | Present => 2
  | Absent => 1
  end.

(** [updateKeyStatus], on the map [keyStatuses]; its keys are one-letter
    strings, kept as their character.  The colour classes of the on-screen
    key, which only mirror the stored status, are not part of the model. *)
Definition updateKeyStatus (letter : ascii) (newStatus : Status)
    (keyStatuses : gmap ascii Status) : gmap ascii Status :=
  match keyStatuses !! letter with
  | None => <[letter := newStatus]> keyStatuses
  | Some current =>
      if priority current <? priority newStatus
      then <[letter := newStatus]> keyStatuses
      else keyStatuses
  end.

(** ** The game session

    [Vars] holds the script's top-level variables.  [Page] holds the part of
    the document the script reads back or uses to tell the player something:
    the board rows and tiles, the message area, the disabled flags of the
    hint button and of the on-screen keys, and the pending timers.  The
    elements the script finds by id ([board], [message], [keyboard], [hint])
    are taken to be in the document; the statistics panel and the key
    colours are texts and classes that mirror the variables and are left
    out. *)

Record Tile := mkTile {
  textContent : string;          (* text of the tile's inner element *)
  tileFilled : bool;             (* class tile-filled *)
  tileStatus : option Status     (* class tile-correct / -present / -absent *)
}.

Inductive Callback := ClearMessage | StopShake (row : nat).

Record Vars := mkVars {
  secretWord : string;
  currentRow : nat;
  currentCol : nat;
  isGameOver : bool;
  hasAttachedKeyboardListeners : bool;
  hasUsedHint : bool;
  gamesPlayed : nat;
  gamesWon : nat;
  currentStreak : nat;
  keyStatuses : gmap ascii Status
}.

Record Page := mkPage {
  rows : gmap nat bool;              (* row elements, with their shake class *)
  tiles : gmap (nat * nat) Tile;     (* tile elements by data-row, data-col *)
  message : string;
  hintDisabled : bool;
  keyboardDisabled : bool;
  timers : list Callback
}.

Record State := mkState { vars : Vars; page : Page }.

(** What a call leaves behind: the state when it returns, or the state at the
    point where a [TypeError] escapes it. *)
Inductive Outcome := Done (s : State) | Threw (s : State).

Definition stateOf (o : Outcome) : State :=
  match o with Done s | Threw s => s end.

(** *** Assignments to single variables and page parts *)

Definition set_currentRow (n : nat) (v : Vars) : Vars :=
  mkVars (secretWord v) n (currentCol v) (isGameOver v)
         (hasAttachedKeyboardListeners v) (hasUsedHint v) (gamesPlayed v)
         (gamesWon v) (currentStreak v) (keyStatuses v).

Definition set_currentCol (n : nat) (v : Vars) : Vars :=
  mkVars (secretWord v) (currentRow v) n (isGameOver v)
         (hasAttachedKeyboardListeners v) (hasUsedHint v) (gamesPlayed v)
         (gamesWon v) (currentStreak v) (keyStatuses v).

Definition set_hasUsedHint (b : bool) (v : Vars) : Vars :=
  mkVars (secretWord v) (currentRow v) (currentCol v) (isGameOver v)
         (hasAttachedKeyboardListeners v) b (gamesPlayed v)
         (gamesWon v) (currentStreak v) (keyStatuses v).

Definition set_keyStatuses (m : gmap ascii Status) (v : Vars) : Vars :=
  mkVars (secretWord v) (currentRow v) (currentCol v) (isGameOver v)
         (hasAttachedKeyboardListeners v) (hasUsedHint v) (gamesPlayed v)
         (gamesWon v) (currentStreak v) m.

Definition set_rows (r : gmap nat bool) (p : Page) : Page :=
  mkPage r (tiles p) (message p) (hintDisabled p) (keyboardDisabled p) (timers p).

Definition set_tiles (t : gmap (nat * nat) Tile) (p : Page) : Page :=
  mkPage (rows p) t (message p) (hintDisabled p) (keyboardDisabled p) (timers p).

Definition set_message (m : string) (p : Page) : Page :=
  mkPage (rows p) (tiles p) m (hintDisabled p) (keyboardDisabled p) (timers p).

Definition set_hintDisabled (b : bool) (p : Page) : Page :=
  mkPage (rows p) (tiles p) (message p) b (keyboardDisabled p) (timers p).

Definition set_keyboardDisabled (b : bool) (p : Page) : Page :=
  mkPage (rows p) (tiles p) (message p) (hintDisabled p) b (timers p).

Definition set_timers (t : list Callback) (p : Page) : Page :=
  mkPage (rows p) (tiles p) (message p) (hintDisabled p) (keyboardDisabled p) t.

Definition onVars (f : Vars → Vars) (s : State) : State :=
  mkState (f (vars s)) (page s).

Definition onPage (f : Page → Page) (s : State) : State :=
  mkState (vars s) (f (page s)).

(** *** Messages *)

Definition showMessage (text : string) (s : State) : State :=
  onPage (set_message text) s.

Definition clearMessage (s : State) : State := showMessage "" s.

(** [setTimeout(callback, ms)]: the callback joins the pending timers. *)
Definition setTimeout (cb : Callback) (s : State) : State :=
  onPage (λ p, set_timers (timers p ++ [cb]) p) s.

Definition showTemporaryMessage (text : string) (s : State) : State :=
  setTimeout ClearMessage (showMessage text s).

Definition shakeRow (row : nat) (s : State) : State :=
  match rows (page s) !! row with
  | None => s
  | Some _ =>
      setTimeout (StopShake row)
        (onPage (λ p, set_rows (<[row := true]> (rows p)) p) s)
  end.

(** A pending timer fires.  A row is known by its index, so a shake timer
    that outlives a restart acts on the rebuilt row, which has no shake
    class to lose. *)
Definition runCallback (cb : Callback) (s : State) : State :=
  match cb with
  | ClearMessage => clearMessage s
  | StopShake row =>
      onPage (λ p, set_rows (alter (λ _, false) row (rows p)) p) s
  end.

(** *** Board access *)

Definition getTile (row col : nat) (s : State) : option Tile :=
  tiles (page s) !! (row, col).

Definition putTile (row col : nat) (t : Tile) (s : State) : State :=
  onPage (λ p, set_tiles (<[(row, col) := t]> (tiles p)) p) s.

Definition addLetter (letter : string) (s : State) : State :=
  let row := currentRow (vars s) in
  let col := currentCol (vars s) in
  if (NUM_COLS <=? col) || (NUM_ROWS <=? row) then s
  else
    match getTile row col s with
    | None => s
    | Some tile =>
        onVars (set_currentCol (col + 1))
               (putTile row col (mkTile letter true (tileStatus tile)) s)
    end.

Definition deleteLetter (s : State) : State :=
  let row := currentRow (vars s) in
  if (currentCol (vars s) =? 0) || (NUM_ROWS <=? row) then s
  else
    let s1 := onVars (set_currentCol (currentCol (vars s) - 1)) s in
    let col := currentCol (vars s1) in
    match getTile row col s1 with
    | None => s1
    | Some tile => putTile row col (mkTile "" false (tileStatus tile)) s1
    end.

Definition getCurrentGuess (s : State) : string :=
  foldl (λ guess col,
           match getTile (currentRow (vars s)) col s with
           | None => guess
           | Some tile =>
               if decide (textContent tile = "") then guess
               else guess +:+ toUpperCase (textContent tile)
           end)
        "" (seq 0 NUM_COLS).

Definition isValidGuess (guess : string) : bool :=
  String.length guess =? NUM_COLS.

(** *** Revealing an evaluation *)

(** A counted loop whose body can throw after it changed the state. *)
Fixpoint forCols (body : nat → State → Outcome) (cols : list nat) (s : State) : Outcome :=
  match cols with
  | [] => Done s
  | col :: rest =>
      match body col s with
      | Done s' => forCols body rest s'
      | Threw s' => Threw s'
      end
  end.

(** Body of the loop of [revealEvaluation].  An evaluation entry the array
    does not have reads as [undefined]: the tile then takes the class of the
    last branch, and [updateKeyStatus] stores nothing that a later read of
    [keyStatuses] could tell from a missing entry. *)
Definition revealTile (row : nat) (guess : string) (evaluation : list Status)
    (col : nat) (s : State) : Outcome :=
  match getTile row col s with
  | None => Done s
  | Some tile =>
      let status := evaluation !! col in
      let shown :=
        match status with
        | Some Correct => Correct
        | Some Present => Present
        | _ => Absent
        end in
      let s1 := putTile row col (mkTile (textContent tile) (tileFilled tile) (Some shown)) s in
      match split guess !! col with
      | None => Threw s1
      | Some ch =>
          let letter := toUpperCaseChar ch in
          match status with
          | Some st =>
              Done (onVars (λ v, set_keyStatuses (updateKeyStatus letter st (keyStatuses v)) v) s1)
          | None => Done s1
          end
      end
  end.

Definition revealEvaluation (row : nat) (guess : string) (evaluation : list Status)
    (s : State) : Outcome :=
  forCols (revealTile row guess evaluation) (seq 0 NUM_COLS) s.

(** *** End of a game *)

Definition wonMessage : string := "You won! 🎉".

Definition lostMessage (secret : string) : string :=
  "You lost. The word was " +:+ secret +:+ ".".

Definition endGame (didWin : bool) (s : State) : State :=
  let v := vars s in
  let v' :=
    mkVars (secretWord v) (currentRow v) (currentCol v) true
           (hasAttachedKeyboardListeners v) (hasUsedHint v)
           (gamesPlayed v + 1)
           (if didWin then gamesWon v + 1 else gamesWon v)
           (if didWin then currentStreak v + 1 else 0)
           (keyStatuses v) in
  let text := if didWin then wonMessage else lostMessage (secretWord v) in
  onPage (set_hintDisabled true)
    (onPage (set_keyboardDisabled true)
       (showMessage text (mkState v' (page s)))).

(** *** Submitting a guess *)

Definition notEnoughLetters : string := "Not enough letters".
Definition notInWordList : string := "Not in word list".

Definition submitGuess (s : State) : Outcome :=
  if currentCol (vars s) <? NUM_COLS
  then Done (showTemporaryMessage notEnoughLetters s)
  else
    let guess := getCurrentGuess s in
    if negb (isValidGuess guess)
    then Done (showTemporaryMessage notInWordList (shakeRow (currentRow (vars s)) s))
    else
      match evaluateGuess guess (secretWord (vars s)) with
      | None => Threw s
      | Some evaluation =>
          match revealEvaluation (currentRow (vars s)) guess evaluation s with
          | Threw s1 => Threw s1
          | Done s1 =>
              if decide (guess = secretWord (vars s1))
              then Done (endGame true s1)
              else
                let s2 := onVars (λ v, set_currentCol 0 (set_currentRow (currentRow v + 1) v)) s1 in
                if currentRow (vars s2) =? NUM_ROWS
                then Done (endGame false s2)
                else Done s2
          end
      end.

(** *** Keys *)

(** [key.length === 1 && key.match(/[A-Z]/)]. *)
Definition isUpperKey (key : string) : bool :=
  match key with
  | String c EmptyString => isUpperLetter c
  | _ => false
  end.

(** [key.length === 1 && key.match(/[a-zA-Z]/)]. *)
Definition isLetterKey (key : string) : bool :=
  match key with
  | String c EmptyString => isUpperLetter c || isLowerLetter c
  | _ => false
  end.

Definition handleKey (key : string) (s : State) : Outcome :=
  if isGameOver (vars s) then Done s
  else if decide (key = "Enter") then submitGuess s
  else if decide (key = "Backspace") then Done (deleteLetter s)
  else if isUpperKey key then Done (addLetter key s)
  else Done s.

(** The [keydown] listener of the physical keyboard. *)
Definition onKeyDown (key : string) (s : State) : Outcome :=
  if isGameOver (vars s) then Done s
  else if isLetterKey key then handleKey (toUpperCase key) s
  else if bool_decide (key = "Enter") || bool_decide (key = "Backspace")
  then handleKey key s
  else Done s.

(** *** The hint *)

Definition dquote : ascii := Eval cbv in ascii_of_nat 34.

Definition hintMessage (firstLetter : ascii) : string :=
  "Hint: The word starts with " +:+ String dquote (String firstLetter (String dquote ".")).

Definition handleHint (s : State) : State :=
  if isGameOver (vars s) || hasUsedHint (vars s) then s
  else
    match secretWord (vars s) with
    | EmptyString => s
    | String firstLetter _ =>
        showMessage (hintMessage firstLetter)
          (onPage (set_hintDisabled true) (onVars (set_hasUsedHint true) s))
    end.

(** *** Starting a game *)

Definition ANSWER_WORDS : list string :=
  ["APPLE"; "GRAPE"; "PLANT"; "BRAVE"; "TRAIN";
   "LIGHT"; "CLOUD"; "SMILE"; "CRANE"; "STONE"].

Definition emptyTile : Tile := mkTile "" false None.

(** [buildBoard]: the old rows and tiles go, six rows of five empty tiles
    come. *)
Definition buildBoard (s : State) : State :=
  let newRows := foldl (λ r row, <[row := false]> r) ∅ (seq 0 NUM_ROWS) in
  let newTiles :=
    foldl (λ t row, foldl (λ t' col, <[(row, col) := emptyTile]> t') t (seq 0 NUM_COLS))
          ∅ (seq 0 NUM_ROWS) in
  onPage (λ p, set_tiles newTiles (set_rows newRows p)) s.

(** [initGame]; [randomIndex] is the value of
    [Math.floor(Math.random() * ANSWER_WORDS.length)], an index of the list.
    The fresh on-screen keys of [buildKeyboard] are enabled. *)
Definition initGame (randomIndex : nat) (s : State) : Outcome :=
  match ANSWER_WORDS with
  | [] => Done s
  | _ =>
      let v := vars s in
      let v1 :=
        mkVars "" 0 0 false (hasAttachedKeyboardListeners v) false
               (gamesPlayed v) (gamesWon v) (currentStreak v) ∅ in
      match ANSWER_WORDS !! randomIndex with
      | None => Threw (mkState v1 (page s))
      | Some word =>
          let v2 :=
            mkVars (toUpperCase word) 0 0 false true false
                   (gamesPlayed v) (gamesWon v) (currentStreak v) ∅ in
          Done (onPage (set_hintDisabled false)
                  (clearMessage
                     (onPage (set_keyboardDisabled false)
                        (buildBoard (mkState v2 (page s))))))
      end
  end.

(** *** Runs of a game

    One step of a game in progress: a key of the on-screen keyboard, a key of
    the physical keyboard, the hint button, or a pending timer that fires. *)
Inductive step : State → State → Prop :=
  | step_key key s : step s (stateOf (handleKey key s))
  | step_keydown key s : step s (stateOf (onKeyDown key s))
  | step_hint s : step s (handleHint s)
  | step_timer cb before after s :
      timers (page s) = before ++ cb :: after →
      step s (runCallback cb (onPage (set_timers (before ++ after)) s)).

Definition reachable (s0 s : State) : Prop := rtc step s0 s.

(** What can happen to the page, as data: a click on an on-screen key, a key
    of the physical keyboard, a click on the hint button, the [n]-th pending
    timer firing. *)
Inductive Action :=
  | PressKey (key : string)
  | KeyDown (key : string)
  | ClickHint
  | FireTimer (n : nat).

Definition perform (a : Action) (s : State) : State :=
  match a with
  | PressKey key => stateOf (handleKey key s)
  | KeyDown key => stateOf (onKeyDown key s)
  | ClickHint => handleHint s
  | FireTimer n =>
      match timers (page s) !! n with
      | Some cb => runCallback cb (onPage (λ p, set_timers (delete n (timers p)) p) s)
      | None => s
      end
  end.

Definition run (acts : list Action) (s : State) : State :=
  foldl (λ st a, perform a st) s acts.

(** The action asks for a submission: it is the Enter key. *)
Definition submits (a : Action) : bool :=
  match a with
  | PressKey key | KeyDown key => bool_decide (key = "Enter")
  | ClickHint | FireTimer _ => false
  end.

(** The action submits a valid guess: Enter, in a game that is not over,
    with the row complete and its guess accepted by [isValidGuess]. *)
Definition validSubmission (a : Action) (s : State) : bool :=
  submits a && negb (isGameOver (vars s)) &&
  (NUM_COLS <=? currentCol (vars s)) && isValidGuess (getCurrentGuess s).

(** The valid guesses submitted along a run, in order. *)
Fixpoint validSubmissions (acts : list Action) (s : State) : list string :=
  match acts with
  | [] => []
  | a :: rest =>
      (if validSubmission a s then [getCurrentGuess s] else [])
      ++ validSubmissions rest (perform a s)
  end.

(** The keys [ks] pressed one after the other. *)
Definition pressKeys (ks : list string) (s : State) : State :=
  foldl (λ st key, stateOf (handleKey key st)) s ks.

(** The keys that type [word] and submit it. *)
Definition typeAndEnter (word : string) : list string :=
  ((λ c, String c EmptyString) <$> split word) ++ ["Enter"].

(** The keys of a whole run of guesses. *)
Definition playGuesses (guesses : list string) : list string :=
  concat (typeAndEnter <$> guesses).

(** A word of the game: [NUM_COLS] letters [A]..[Z]. *)
Definition isWord (w : string) : bool :=
  (String.length w =? NUM_COLS) && forallb isUpperLetter (split w).

(** The board has every tile, whatever it shows. *)
Definition boardBuilt (s : State) : Prop :=
  ∀ row col, row < NUM_ROWS → col < NUM_COLS → is_Some (getTile row col s).

(** The start of a game, as [initGame] leaves it. *)
Definition freshGame (s : State) : Prop :=
  currentRow (vars s) = 0 ∧ currentCol (vars s) = 0 ∧
  isGameOver (vars s) = false ∧ hasUsedHint (vars s) = false ∧
  isWord (secretWord (vars s)) = true ∧ boardBuilt s.

(** A concrete start: nothing played yet, the page as loaded, and the answer
    list's ninth word, CRANE, drawn. *)
Definition loadedPage : State :=
  mkState (mkVars "" 0 0 false false false 0 0 0 ∅)
          (mkPage ∅ ∅ "" false false []).

Definition craneGame : State := stateOf (initGame 8 loadedPage).

(** The letters of CRANE typed into the first row of that game. *)
Definition typedCRANE : State := pressKeys ["C"; "R"; "A"; "N"; "E"] craneGame.

(** That game won at the first guess. *)
Definition wonGame : State := pressKeys (typeAndEnter "CRANE") craneGame.

(** ** Notions used to state and prove the evaluator's properties *)

(** How often the letter [L] occurs among [chars]. *)
Fixpoint occurrences (L : ascii) (chars : list ascii) : nat :=
  match chars with
  | [] => 0
  | c :: rest => (if decide (c = L) then 1 else 0) + occurrences L rest
  end.

Definition isCredited (st : Status) : bool :=
  match st with
  | Correct | Present => true
  | Absent => false
  end.

(** The number of positions where the guess carries [L] and the evaluation
    says correct or present. *)
Fixpoint credited (L : ascii) (guessChars : list ascii) (evaluation : list Status) : nat :=
  match guessChars, evaluation with
  | g :: gs, st :: sts =>
      (if decide (g = L) then (if isCredited st then 1 else 0) else 0)
      + credited L gs sts
  | _, _ => 0
  end.

(** What [letterCounts] still holds for a letter: a missing entry counts as
    nothing left, and [NaN] is kept apart from every count. *)
Definition remaining (letterCounts : gmap ascii jsnum) (L : ascii) : Z :=
  match letterCounts !! L with
  | Some (Num n) => n
  | Some NaN => (-1)%Z
  | None => 0%Z
  end.

(** The two passes read position by position, without indices; the loops of
    [evaluateGuess] compute exactly these ([firstPass_loop],
    [secondPass_loop]). *)
Fixpoint firstPass (gs ss : list ascii) (m : gmap ascii jsnum)
    : list Status * gmap ascii jsnum :=
  match gs, ss with
  | g :: gs', s :: ss' =>
      if decide (toUpperCaseChar g = toUpperCaseChar s)
      then let r := firstPass gs' ss' (decrement (toUpperCaseChar g) m) in
           (Correct :: r.1, r.2)
      else let r := firstPass gs' ss' m in (Absent :: r.1, r.2)
  | _, _ => ([], m)
  end.

Fixpoint secondPass (gs : list ascii) (res : list Status) (m : gmap ascii jsnum)
    : list Status * gmap ascii jsnum :=
  match gs, res with
  | g :: gs', st :: res' =>
      if decide (st = Correct)
      then let r := secondPass gs' res' m in (Correct :: r.1, r.2)
      else if isPositive (m !! toUpperCaseChar g)
      then let r := secondPass gs' res' (decrement (toUpperCaseChar g) m) in
           (Present :: r.1, r.2)
      else let r := secondPass gs' res' m in (Absent :: r.1, r.2)
  | _, _ => ([], m)
  end.

(** ** Notions used to state the session's properties *)

(** The priority of a [keyStatuses] entry; a letter without an entry ranks
    below every status. *)
Definition rank (entry : option Status) : nat :=
  match entry with
  | Some st => priority st
  | None => 0
  end.

(** A run of [updateKeyStatus] calls. *)
Definition updateKeyStatuses (updates : list (ascii * Status))
    (keyStatuses : gmap ascii Status) : gmap ascii Status :=
  foldl (λ m u, updateKeyStatus u.1 u.2 m) keyStatuses updates.

(** The row and column are within the board; past the last row the column
    is back at 0. *)
Definition withinBoard (s : State) : Prop :=
  currentCol (vars s) ≤ NUM_COLS ∧
  (currentRow (vars s) < NUM_ROWS ∨
   (currentRow (vars s) = NUM_ROWS ∧ currentCol (vars s) = 0)).

(** A game in progress at the start of row [row]. *)
Definition playing (s : State) (row : nat) : Prop :=
  isGameOver (vars s) = false ∧ currentRow (vars s) = row ∧
  currentCol (vars s) = 0 ∧ isWord (secretWord (vars s)) = true ∧ boardBuilt s.

(** The game started at [s0] after [k] valid guesses, none of them the
    secret: still running in row [k] with the counters untouched, or, after
    [NUM_ROWS] of them, lost.  (A timer may have cleared the loss message
    since.) *)
Definition afterFailures (s0 : State) (k : nat) (s : State) : Prop :=
  secretWord (vars s) = secretWord (vars s0) ∧
  gamesWon (vars s) = gamesWon (vars s0) ∧
  currentRow (vars s) = k ∧
  if k <? NUM_ROWS
  then isGameOver (vars s) = false ∧
       gamesPlayed (vars s) = gamesPlayed (vars s0) ∧
       currentStreak (vars s) = currentStreak (vars s0)
  else isGameOver (vars s) = true ∧ currentCol (vars s) = 0 ∧
       gamesPlayed (vars s) = gamesPlayed (vars s0) + 1 ∧
       currentStreak (vars s) = 0 ∧
       (message (page s) = lostMessage (secretWord (vars s0)) ∨ message (page s) = "").

(** The keys that type the letters [cs]. *)
Definition letterKeys (cs : list ascii) : list string :=
  (λ c, String c EmptyString) <$> cs.

(** ** Notions used for the further properties *)

(** The best priority a letter reaches over a run of updates, starting from
    the priority [start] of its entry. *)
Fixpoint bestSeen (k : ascii) (updates : list (ascii * Status)) (start : nat) : nat :=
  match updates with
  | [] => start
  | (l, st) :: rest =>
      bestSeen k rest (if decide (l = k) then Nat.max start (priority st) else start)
  end.

(** The string has only code units below 128, the range in which the
    embedding of [toUpperCase] is exact. *)
Definition isPlain (s : string) : bool :=
  forallb (λ c, (N_of_ascii c <? 128)%N) (split s).

(** The counters of a game started at [s0]: untouched while it runs, and
    moved exactly once, by a win or by a loss, when it is over. *)
Definition countedOnce (s0 s : State) : Prop :=
  if isGameOver (vars s)
  then gamesPlayed (vars s) = gamesPlayed (vars s0) + 1 ∧
       ((gamesWon (vars s) = gamesWon (vars s0) + 1 ∧
         currentStreak (vars s) = currentStreak (vars s0) + 1) ∨
        (gamesWon (vars s) = gamesWon (vars s0) ∧ currentStreak (vars s) = 0))
  else gamesPlayed (vars s) = gamesPlayed (vars s0) ∧
       gamesWon (vars s) = gamesWon (vars s0) ∧
       currentStreak (vars s) = currentStreak (vars s0).

(** What can happen over several games: an action within the game, or a click
    on the restart button, which calls [initGame] ([randomIndex] being the
    index it draws). *)
Inductive Event :=
  | InGame (a : Action)
  | Restart (randomIndex : nat).

Definition handle (e : Event) (s : State) : State :=
  match e with
  | InGame a => perform a s
  | Restart randomIndex => stateOf (initGame randomIndex s)
  end.

Definition play (events : list Event) (s : State) : State :=
  foldl (λ st e, handle e st) s events.

Definition statsOrdered (s : State) : Prop :=
  currentStreak (vars s) ≤ gamesWon (vars s) ∧ gamesWon (vars s) ≤ gamesPlayed (vars s).

(** The key statuses tell the truth about the secret: a letter stored as
    correct or present occurs in the secret, a letter stored as absent does
    not. *)
Definition keysSound (s : State) : Prop :=
  ∀ L st, keyStatuses (vars s) !! L = Some st →
          if isCredited st then L ∈ split (secretWord (vars s))
          else L ∉ split (secretWord (vars s)).

(** The tile holds one typed capital letter and no colour yet. *)
Definition typedTile (row col : nat) (s : State) : Prop :=
  ∃ ch, isUpperLetter ch = true ∧
        getTile row col s = Some (mkTile (String ch EmptyString) true None).

Definition emptyAt (row col : nat) (s : State) : Prop :=
  getTile row col s = Some emptyTile.

(** The row shows a guessed word, each tile coloured with the mark the
    evaluator gives that word against the secret. *)
Definition shownRow (row : nat) (s : State) : Prop :=
  ∃ w ev, isWord w = true ∧ evaluateGuess w (secretWord (vars s)) = Some ev ∧
          ∀ col, col < NUM_COLS →
                 ∃ ch st, split w !! col = Some ch ∧ ev !! col = Some st ∧
                          getTile row col s
                          = Some (mkTile (String ch EmptyString) true (Some st)).

(** What holds of the variables and of the board throughout a game: the rows
    above the current one show evaluated guesses, the rows below are empty;
    while the game runs the current row holds typed letters up to the column
    and is empty from there on; in a game that ended before the last row the
    current row shows the winning guess. *)
Definition gameInv (s : State) : Prop :=
  isWord (secretWord (vars s)) = true ∧ keysSound s ∧
  currentRow (vars s) ≤ NUM_ROWS ∧
  (∀ row, row < currentRow (vars s) → shownRow row s) ∧
  (∀ row col, currentRow (vars s) < row → row < NUM_ROWS → col < NUM_COLS →
              emptyAt row col s) ∧
  if isGameOver (vars s)
  then currentRow (vars s) < NUM_ROWS → shownRow (currentRow (vars s)) s
  else currentRow (vars s) < NUM_ROWS ∧ currentCol (vars s) ≤ NUM_COLS ∧
       (∀ col, col < currentCol (vars s) → typedTile (currentRow (vars s)) col s) ∧
       (∀ col, currentCol (vars s) ≤ col → col < NUM_COLS →
               emptyAt (currentRow (vars s)) col s).

(** A game as [initGame] leaves it: fresh, with no key statuses and every
    tile empty. *)
Definition cleanStart (s : State) : Prop :=
  freshGame s ∧ keyStatuses (vars s) = ∅ ∧
  ∀ row col, row < NUM_ROWS → col < NUM_COLS → emptyAt row col s.



(** Arithmetic on row and column, with the board's bounds unfolded. *)
Ltac board_arith :=
  unfold withinBoard, NUM_COLS, NUM_ROWS in *; simpl in *; lia.

(** * Properties of the evaluator *)

Lemma toUpperCaseChar_upper c : isUpperLetter c = true → toUpperCaseChar c = c.
Proof.
  destruct c as [[] [] [] [] [] [] [] []]; vm_compute; intros; congruence.
Qed.

Lemma toUpperCaseChar_fmap_upper l :
  forallb isUpperLetter l = true → toUpperCaseChar <$> l = l.
Proof.
  induction l as [|c l IH]; [done|].
  rewrite fmap_cons. simpl. intros [Hc Hl]%andb_prop.
  by rewrite toUpperCaseChar_upper, IH.
Qed.

Lemma length_split w : length (split w) = String.length w.
Proof. induction w as [|c w IH]; simpl; [done|]. by rewrite IH. Qed.

Lemma join_split w : join (split w) = w.
Proof. apply String.string_of_list_ascii_of_string. Qed.

Lemma split_inj w1 w2 : split w1 = split w2 → w1 = w2.
Proof. intros H. by rewrite <- (join_split w1), <- (join_split w2), H. Qed.

Lemma isWord_length w : isWord w = true → length (split w) = NUM_COLS.
Proof.
  unfold isWord. intros [H _]%andb_prop.
  apply Nat.eqb_eq in H. by rewrite length_split.
Qed.

Lemma isWord_upper w : isWord w = true → toUpperCaseChar <$> split w = split w.
Proof.
  unfold isWord. intros [_ H]%andb_prop. by apply toUpperCaseChar_fmap_upper.
Qed.

Lemma toUpperCase_word w : isWord w = true → toUpperCase w = w.
Proof.
  intros H. unfold toUpperCase. rewrite isWord_upper by done. apply join_split.
Qed.

(** *** The loops compute the structural passes *)

Lemma firstPass_loop gs ss gpre spre gpost spost rpre n m :
  length gs = n → length ss = n →
  length gpre = length rpre → length spre = length rpre →
  forLoop (markCorrect (gpre ++ gs ++ gpost) (spre ++ ss ++ spost))
          (seq (length rpre) n) (rpre ++ replicate n Absent, m)
  = Some (rpre ++ (firstPass gs ss m).1, (firstPass gs ss m).2).
Proof.
  revert gs ss gpre spre rpre m.
  induction n as [|n IH]; intros gs ss gpre spre rpre m Hg Hs Hgp Hsp.
  - destruct gs; [|done]. destruct ss; [|done]. done.
  - destruct gs as [|g gs]; [done|]. destruct ss as [|s ss]; [done|].
    simpl in Hg, Hs. injection Hg as Hg. injection Hs as Hs.
    cbn [seq forLoop firstPass]. unfold markCorrect at 1.
    rewrite <- !app_comm_cons.
    rewrite (list_lookup_middle gpre _ g) by done.
    rewrite (list_lookup_middle spre _ s) by done.
    cbn [replicate].
    assert (Hstep : ∀ x : Status, ∀ rest : list Status,
               rpre ++ x :: rest = (rpre ++ [x]) ++ rest).
    { intros. by rewrite <- app_assoc. }
    assert (Hlen : S (length rpre) = length (rpre ++ [Absent])).
    { rewrite length_app. simpl. lia. }
    assert (Hins : <[length rpre := Correct]> (rpre ++ Absent :: replicate n Absent)
                   = rpre ++ Correct :: replicate n Absent).
    { rewrite insert_app_r_alt by done. by rewrite Nat.sub_diag. }
    rewrite (cons_middle g gpre), (cons_middle s spre), !app_assoc.
    rewrite <- !(app_assoc _ gs gpost), <- !(app_assoc _ ss spost).
    destruct (decide (toUpperCaseChar g = toUpperCaseChar s)) as [Heq|Hne].
    + rewrite Hins, (Hstep Correct).
      replace (S (length rpre)) with (length (rpre ++ [Correct]))
        by (rewrite length_app; simpl; lia).
      rewrite IH; rewrite ?length_app; simpl; try lia.
      by rewrite <- app_assoc.
    + rewrite (Hstep Absent), Hlen.
      rewrite IH; rewrite ?length_app; simpl; try lia.
      by rewrite <- app_assoc.
Qed.

Lemma secondPass_loop gs res gpre gpost rpre n m :
  length gs = n → length res = n → length gpre = length rpre →
  forLoop (markPresent (gpre ++ gs ++ gpost)) (seq (length rpre) n) (rpre ++ res, m)
  = Some (rpre ++ (secondPass gs res m).1, (secondPass gs res m).2).
Proof.
  revert gs res gpre rpre m.
  induction n as [|n IH]; intros gs res gpre rpre m Hg Hr Hgp.
  - destruct gs; [|done]. destruct res; [|done]. done.
  - destruct gs as [|g gs]; [done|]. destruct res as [|st res]; [done|].
    simpl in Hg, Hr. injection Hg as Hg. injection Hr as Hr.
    cbn [seq forLoop secondPass]. unfold markPresent at 1.
    rewrite <- !app_comm_cons.
    rewrite (list_lookup_middle rpre _ st) by done.
    rewrite (list_lookup_middle gpre _ g) by done.
    assert (Hins : ∀ x : Status,
               <[length rpre := x]> (rpre ++ st :: res) = (rpre ++ [x]) ++ res).
    { intros x. rewrite insert_app_r_alt by done.
      by rewrite Nat.sub_diag, <- app_assoc. }
    assert (Hlen : ∀ x : Status, S (length rpre) = length (rpre ++ [x])).
    { intros x. rewrite length_app. simpl. lia. }
    rewrite (cons_middle g gpre), !app_assoc, <- !(app_assoc _ gs gpost).
    destruct (decide (Some st = Some Correct)) as [Hc|Hc];
      destruct (decide (st = Correct)) as [Hc'|Hc']; try congruence.
    + subst st.
      replace (rpre ++ Correct :: res) with ((rpre ++ [Correct]) ++ res)
        by (by rewrite <- app_assoc).
      rewrite (Hlen Correct), IH; rewrite ?length_app; simpl; try lia.
      by rewrite <- app_assoc.
    + destruct (isPositive (m !! toUpperCaseChar g)).
      * rewrite Hins, (Hlen Present), IH; rewrite ?length_app; simpl; try lia.
        by rewrite <- app_assoc.
      * rewrite Hins, (Hlen Absent), IH; rewrite ?length_app; simpl; try lia.
        by rewrite <- app_assoc.
Qed.

Lemma firstPass_length gs ss m :
  length gs = length ss → length (firstPass gs ss m).1 = length gs.
Proof.
  revert ss m. induction gs as [|g gs IH]; intros [|s ss] m H; simpl in *; try done.
  injection H as H. destruct (decide _); simpl; f_equal; by apply IH.
Qed.

Lemma secondPass_length gs res m :
  length gs = length res → length (secondPass gs res m).1 = length gs.
Proof.
  revert res m. induction gs as [|g gs IH]; intros [|st res] m H; simpl in *; try done.
  injection H as H.
  destruct (decide _); [|destruct (isPositive _)]; simpl; f_equal; by apply IH.
Qed.

(** With at least [NUM_COLS] characters on both sides the evaluator returns,
    and what it returns is the second pass over the first. *)
Lemma evaluateGuess_passes guess secret :
  NUM_COLS ≤ length (split guess) → NUM_COLS ≤ length (split secret) →
  let gs := take NUM_COLS (split guess) in
  let ss := take NUM_COLS (split secret) in
  let r1 := firstPass gs ss (countLetters (split secret)) in
  evaluateGuess guess secret = Some (secondPass gs r1.1 r1.2).1.
Proof.
  intros Hg Hs gs ss r1. unfold evaluateGuess.
  rewrite <- (take_drop NUM_COLS (split guess)), <- (take_drop NUM_COLS (split secret)).
  fold gs ss.
  assert (Hgs : length gs = NUM_COLS) by (unfold gs; rewrite length_take; lia).
  assert (Hss : length ss = NUM_COLS) by (unfold ss; rewrite length_take; lia).
  set (dg := drop NUM_COLS (split guess)).
  set (ds := drop NUM_COLS (split secret)).
  set (m0 := countLetters (ss ++ ds)).
  assert (H1 : forLoop (markCorrect (gs ++ dg) (ss ++ ds)) (seq 0 NUM_COLS)
                 (replicate NUM_COLS Absent, m0)
               = Some ((firstPass gs ss m0).1, (firstPass gs ss m0).2)).
  { exact (firstPass_loop gs ss [] [] dg ds [] NUM_COLS m0 Hgs Hss eq_refl eq_refl). }
  rewrite H1. clear H1.
  assert (Hr1 : length (firstPass gs ss m0).1 = NUM_COLS).
  { rewrite firstPass_length by lia. done. }
  assert (H2 : forLoop (markPresent (gs ++ dg)) (seq 0 NUM_COLS)
                 ((firstPass gs ss m0).1, (firstPass gs ss m0).2)
               = Some ((secondPass gs (firstPass gs ss m0).1 (firstPass gs ss m0).2).1,
                       (secondPass gs (firstPass gs ss m0).1 (firstPass gs ss m0).2).2)).
  { exact (secondPass_loop gs _ [] dg [] NUM_COLS _ Hgs Hr1 eq_refl). }
  rewrite H2. unfold r1, m0, ds, ss. by rewrite take_drop.
Qed.

(** *** Which positions are marked correct *)

Lemma firstPass_lookup gs ss m i g s :
  gs !! i = Some g → ss !! i = Some s →
  (firstPass gs ss m).1 !! i
  = Some (if decide (toUpperCaseChar g = toUpperCaseChar s) then Correct else Absent).
Proof.
  revert ss m i. induction gs as [|g0 gs IH]; intros [|s0 ss] m i Hg Hs; try done.
  destruct i as [|i]; simpl in Hg, Hs.
  - injection Hg as ->. injection Hs as ->. simpl. by destruct (decide _).
  - simpl. destruct (decide (toUpperCaseChar g0 = toUpperCaseChar s0)); simpl;
      by apply IH.
Qed.

Lemma secondPass_lookup_Correct gs res m i g st :
  gs !! i = Some g → res !! i = Some st →
  (secondPass gs res m).1 !! i = Some Correct ↔ st = Correct.
Proof.
  revert res m i. induction gs as [|g0 gs IH]; intros [|st0 res] m i Hg Hr; try done.
  destruct i as [|i]; simpl in Hg, Hr.
  - injection Hg as ->. injection Hr as ->. simpl.
    destruct (decide (st = Correct)); [|destruct (isPositive _)]; simpl;
      split; congruence.
  - simpl. destruct (decide (st0 = Correct)); [|destruct (isPositive _)]; simpl;
      by apply IH.
Qed.

Lemma firstPass_same l m : (firstPass l l m).1 = replicate (length l) Correct.
Proof.
  revert m. induction l as [|c l IH]; intros m; simpl; [done|].
  destruct (decide _); [|done]. simpl. by rewrite IH.
Qed.

Lemma secondPass_all_Correct gs n m :
  length gs = n → (secondPass gs (replicate n Correct) m).1 = replicate n Correct.
Proof.
  revert n m. induction gs as [|g gs IH]; intros [|n] m H; simpl in *; try done.
  injection H as H. by rewrite IH.
Qed.

(** *** What the counts allow *)

Lemma remaining_decrement m g L :
  (1 ≤ remaining m g)%Z →
  remaining (decrement g m) L
  = (remaining m L - (if decide (L = g) then 1 else 0))%Z.
Proof.
  unfold remaining, decrement. intros H. rewrite lookup_insert.
  destruct (decide (g = L)) as [->|Hne].
  - rewrite decide_True by done.
    destruct (m !! L) as [[n|]|]; simpl in *; lia.
  - rewrite decide_False by congruence. destruct (m !! L) as [[n|]|]; lia.
Qed.

Lemma isPositive_remaining m g : isPositive (m !! g) = true → (1 ≤ remaining m g)%Z.
Proof.
  unfold remaining. destruct (m !! g) as [[n|]|]; simpl; try done.
  intros H%Z.ltb_lt. lia.
Qed.

Lemma remaining_counting ss m L :
  (∀ L', 0 ≤ remaining m L')%Z →
  remaining (foldl (λ letterCounts ch,
                      let upper := toUpperCaseChar ch in
                      <[upper := orZeroPlusOne (letterCounts !! upper)]> letterCounts)
                   m ss) L
  = (remaining m L + Z.of_nat (occurrences L (toUpperCaseChar <$> ss)))%Z.
Proof.
  revert m. induction ss as [|c ss IH]; intros m Hm.
  - simpl. lia.
  - rewrite fmap_cons. cbn [foldl occurrences].
    assert (Hstep : ∀ L',
      remaining (<[toUpperCaseChar c := orZeroPlusOne (m !! toUpperCaseChar c)]> m) L'
      = (remaining m L' + (if decide (toUpperCaseChar c = L') then 1 else 0))%Z).
    { intros L'. unfold remaining. rewrite lookup_insert.
      destruct (decide (toUpperCaseChar c = L')) as [->|Hne]; [|lia].
      specialize (Hm L'). unfold remaining in Hm.
      destruct (m !! L') as [[n|]|]; simpl; lia. }
    rewrite IH.
    + rewrite Hstep. destruct (decide (toUpperCaseChar c = L)); lia.
    + intros L'. rewrite Hstep. specialize (Hm L').
      destruct (decide (toUpperCaseChar c = L')); lia.
Qed.

Lemma remaining_countLetters ss L :
  remaining (countLetters ss) L = Z.of_nat (occurrences L (toUpperCaseChar <$> ss)).
Proof.
  unfold countLetters. rewrite remaining_counting.
  - unfold remaining. by rewrite lookup_empty.
  - intros L'. unfold remaining. by rewrite lookup_empty.
Qed.

Lemma occurrences_app L l1 l2 :
  occurrences L (l1 ++ l2) = occurrences L l1 + occurrences L l2.
Proof. induction l1 as [|c l1 IH]; simpl; [done|]. rewrite IH. lia. Qed.

(** The first pass takes from the counts one unit per correct position, and
    never more than the counts hold. *)
Lemma firstPass_counts gs ss m L :
  (∀ L', Z.of_nat (occurrences L' (toUpperCaseChar <$> ss)) ≤ remaining m L')%Z →
  (0 ≤ remaining (firstPass gs ss m).2 L)%Z ∧
  (remaining (firstPass gs ss m).2 L
   + Z.of_nat (credited L (toUpperCaseChar <$> gs) (firstPass gs ss m).1)
   = remaining m L)%Z.
Proof.
  revert ss m. induction gs as [|g gs IH]; intros ss m Hm.
  { simpl. specialize (Hm L). lia. }
  destruct ss as [|s ss].
  { simpl. specialize (Hm L). simpl in Hm. lia. }
  rewrite !fmap_cons. cbn [firstPass credited].
  destruct (decide (toUpperCaseChar g = toUpperCaseChar s)) as [Heq|Hne]; cbn [fst snd].
  - assert (H1 : (1 ≤ remaining m (toUpperCaseChar g))%Z).
    { specialize (Hm (toUpperCaseChar g)). rewrite fmap_cons in Hm.
      cbn [occurrences] in Hm. rewrite decide_True in Hm by done. lia. }
    destruct (IH ss (decrement (toUpperCaseChar g) m)) as [IH1 IH2].
    { intros L'. rewrite remaining_decrement by done.
      specialize (Hm L'). rewrite fmap_cons in Hm. cbn [occurrences] in Hm.
      rewrite <- Heq in Hm.
      destruct (decide (toUpperCaseChar g = L')), (decide (L' = toUpperCaseChar g));
        try congruence; lia. }
    rewrite remaining_decrement in IH2 by done. split; [done|]. simpl isCredited.
    destruct (decide (toUpperCaseChar g = L)), (decide (L = toUpperCaseChar g));
      try congruence; lia.
  - destruct (IH ss m) as [IH1 IH2].
    { intros L'. specialize (Hm L'). rewrite fmap_cons in Hm.
      cbn [occurrences] in Hm. lia. }
    split; [done|]. simpl isCredited. destruct (decide (toUpperCaseChar g = L)); lia.
Qed.

(** The second pass takes one more unit per present mark, and again never
    more than is left. *)
Lemma secondPass_counts gs res m L :
  Forall (λ st, st ≠ Present) res →
  (∀ L', 0 ≤ remaining m L')%Z →
  (0 ≤ remaining (secondPass gs res m).2 L)%Z ∧
  (remaining (secondPass gs res m).2 L
   + Z.of_nat (credited L (toUpperCaseChar <$> gs) (secondPass gs res m).1)
   = remaining m L + Z.of_nat (credited L (toUpperCaseChar <$> gs) res))%Z.
Proof.
  revert res m. induction gs as [|g gs IH]; intros res m Hres Hm.
  { simpl. specialize (Hm L). lia. }
  destruct res as [|st res].
  { simpl. specialize (Hm L). lia. }
  apply Forall_cons in Hres as [Hst Hres].
  rewrite !fmap_cons. cbn [secondPass credited].
  destruct (decide (st = Correct)) as [->|Hnc]; cbn [fst snd].
  - destruct (IH res m Hres Hm) as [IH1 IH2]. split; [done|]. lia.
  - assert (st = Absent) as -> by (by destruct st).
    destruct (isPositive (m !! toUpperCaseChar g)) eqn:Hpos; cbn [fst snd].
    + apply isPositive_remaining in Hpos.
      destruct (IH res (decrement (toUpperCaseChar g) m) Hres) as [IH1 IH2].
      { intros L'. rewrite remaining_decrement by done. specialize (Hm L').
        destruct (decide (L' = toUpperCaseChar g)) as [->|]; lia. }
      rewrite remaining_decrement in IH2 by done. split; [done|]. simpl isCredited.
      destruct (decide (toUpperCaseChar g = L)), (decide (L = toUpperCaseChar g));
        try congruence; lia.
    + destruct (IH res m Hres Hm) as [IH1 IH2]. split; [done|]. simpl isCredited.
      destruct (decide (toUpperCaseChar g = L)); lia.
Qed.

Lemma firstPass_no_Present gs ss m : Forall (λ st, st ≠ Present) (firstPass gs ss m).1.
Proof.
  revert ss m. induction gs as [|g gs IH]; intros [|s ss] m; simpl; try by constructor.
  destruct (decide _); simpl; constructor; try done; apply IH.
Qed.

(** Fairness for any two strings the evaluator accepts, letters compared
    regardless of case: per letter, the correct and present marks of the
    first [NUM_COLS] positions stay within the secret's occurrences. *)
Lemma evaluateGuess_fair_any_case guess secret L :
  NUM_COLS ≤ length (split guess) → NUM_COLS ≤ length (split secret) →
  ∃ ev, evaluateGuess guess secret = Some ev ∧ length ev = NUM_COLS ∧
        credited L (toUpperCaseChar <$> take NUM_COLS (split guess)) ev
        ≤ occurrences L (toUpperCaseChar <$> split secret).
Proof.
  intros Hg Hs. rewrite evaluateGuess_passes by done.
  set (gs := take NUM_COLS (split guess)).
  set (ss := take NUM_COLS (split secret)).
  set (m0 := countLetters (split secret)).
  assert (Hgs : length gs = NUM_COLS) by (unfold gs; rewrite length_take; lia).
  assert (Hss : length ss = NUM_COLS) by (unfold ss; rewrite length_take; lia).
  eexists. split; [reflexivity|]. split.
  { rewrite secondPass_length; [done|]. rewrite firstPass_length; lia. }
  assert (Hm0 : ∀ L', (Z.of_nat (occurrences L' (toUpperCaseChar <$> ss))
                       ≤ remaining m0 L')%Z).
  { intros L'. unfold m0. rewrite remaining_countLetters.
    rewrite <- (take_drop NUM_COLS (split secret)).
    rewrite fmap_app, occurrences_app. fold ss. lia. }
  destruct (firstPass_counts gs ss m0 L Hm0) as [_ H1].
  destruct (secondPass_counts gs (firstPass gs ss m0).1 (firstPass gs ss m0).2 L)
    as [H2 H3].
  { apply firstPass_no_Present. }
  { intros L'. by destruct (firstPass_counts gs ss m0 L' Hm0). }
  unfold m0 in H1 at 3. rewrite remaining_countLetters in H1. lia.
Qed.

(** C1 (as the code has it). For the secret CRANE and the guess TRACE the
    evaluation is absent, correct, correct, present, correct: the A of the
    guess stands where the secret has its A. *)
Theorem evaluateGuess_TRACE_CRANE :
  evaluateGuess "TRACE" "CRANE" = Some [Absent; Correct; Correct; Present; Correct].
Proof. vm_compute. reflexivity. Qed.

(** C1 as stated, with the A of TRACE marked present, is not what the
    evaluator returns. *)
Lemma evaluateGuess_TRACE_CRANE_not_present :
  evaluateGuess "TRACE" "CRANE" ≠ Some [Absent; Correct; Present; Present; Correct].
Proof. vm_compute. discriminate. Qed.

(** C2. For a guess and a secret that are words (five letters A..Z) the
    evaluator returns five marks, position [i] is marked correct exactly when
    the guess and the secret have the same letter there, and a secret
    evaluated against itself is correct everywhere. *)
Theorem evaluateGuess_correct_iff (G S : string) :
  isWord G = true → isWord S = true →
  (∃ ev, evaluateGuess G S = Some ev ∧ length ev = NUM_COLS ∧
         ∀ i, i < NUM_COLS →
              (ev !! i = Some Correct ↔ split G !! i = split S !! i)) ∧
  evaluateGuess S S = Some (replicate NUM_COLS Correct).
Proof.
  intros HG HS.
  pose proof (isWord_length G HG) as HlG. pose proof (isWord_length S HS) as HlS.
  split.
  - rewrite evaluateGuess_passes by lia.
    rewrite !take_ge by lia.
    eexists. split; [reflexivity|]. split.
    { rewrite secondPass_length; [done|]. rewrite firstPass_length; lia. }
    intros i Hi.
    destruct (lookup_lt_is_Some_2 (split G) i) as [g Hg]; [lia|].
    destruct (lookup_lt_is_Some_2 (split S) i) as [s Hs]; [lia|].
    rewrite (secondPass_lookup_Correct _ _ _ i g _ Hg
               (firstPass_lookup _ _ _ i g s Hg Hs)).
    rewrite Hg, Hs.
    assert (Hug : toUpperCaseChar g = g).
    { pose proof (isWord_upper G HG) as Hu.
      apply (f_equal (λ l, l !! i)) in Hu.
      rewrite list_lookup_fmap, Hg in Hu. simpl in Hu. congruence. }
    assert (Hus : toUpperCaseChar s = s).
    { pose proof (isWord_upper S HS) as Hu.
      apply (f_equal (λ l, l !! i)) in Hu.
      rewrite list_lookup_fmap, Hs in Hu. simpl in Hu. congruence. }
    rewrite Hug, Hus. destruct (decide (g = s)); split; congruence.
  - rewrite evaluateGuess_passes by lia.
    rewrite !take_ge by lia.
    rewrite firstPass_same, HlS. f_equal.
    by apply secondPass_all_Correct.
Qed.

Lemma evaluateGuess_correct_iff_witness :
  isWord "SPEED" = true ∧ isWord "ERASE" = true ∧
  ((∃ ev, evaluateGuess "SPEED" "ERASE" = Some ev ∧ length ev = NUM_COLS ∧
          ∀ i, i < NUM_COLS →
               (ev !! i = Some Correct ↔ split "SPEED" !! i = split "ERASE" !! i)) ∧
   evaluateGuess "ERASE" "ERASE" = Some (replicate NUM_COLS Correct)).
Proof.
  split; [reflexivity|]. split; [reflexivity|].
  apply (evaluateGuess_correct_iff "SPEED" "ERASE"); reflexivity.
Defined.

(** C3. For a guess and a secret that are words and for every letter [L], the
    evaluator returns an evaluation in which the positions where the guess
    carries [L] and the mark is correct or present are no more than the
    occurrences of [L] in the secret. *)
Theorem evaluateGuess_fair (G S : string) (L : ascii) :
  isWord G = true → isWord S = true →
  ∃ ev, evaluateGuess G S = Some ev ∧
        credited L (split G) ev ≤ occurrences L (split S).
Proof.
  intros HG HS.
  pose proof (isWord_length G HG) as HlG. pose proof (isWord_length S HS) as HlS.
  destruct (evaluateGuess_fair_any_case G S L) as (ev & Hev & _ & Hle); [lia..|].
  exists ev. split; [done|].
  rewrite take_ge in Hle by lia.
  by rewrite (isWord_upper G HG), (isWord_upper S HS) in Hle.
Qed.

Lemma evaluateGuess_fair_witness :
  isWord "SPEED" = true ∧ isWord "ERASE" = true ∧
  ∃ ev, evaluateGuess "SPEED" "ERASE" = Some ev ∧
        credited "E" (split "SPEED") ev ≤ occurrences "E" (split "ERASE").
Proof.
  split; [reflexivity|]. split; [reflexivity|].
  apply (evaluateGuess_fair "SPEED" "ERASE" "E"); reflexivity.
Defined.

(** * Properties of the key statuses *)

Lemma updateKeyStatus_lookup_ne l st m k :
  l ≠ k → updateKeyStatus l st m !! k = m !! k.
Proof.
  intros Hne. unfold updateKeyStatus.
  destruct (m !! l) as [cur|]; [destruct (priority cur <? priority st)|];
    by rewrite ?lookup_insert_ne.
Qed.

Lemma updateKeyStatus_changes l st m k :
  updateKeyStatus l st m !! k ≠ m !! k →
  l = k ∧ updateKeyStatus l st m !! k = Some st ∧ rank (m !! k) < priority st.
Proof.
  destruct (decide (l = k)) as [->|Hne].
  - unfold updateKeyStatus. destruct (m !! k) as [cur|] eqn:Hk.
    + destruct (priority cur <? priority st) eqn:Hp.
      * rewrite lookup_insert_eq. intros _. apply Nat.ltb_lt in Hp. done.
      * rewrite Hk. done.
    + rewrite lookup_insert_eq. intros _. simpl. destruct st; simpl; auto with lia.
  - rewrite updateKeyStatus_lookup_ne by done. done.
Qed.

Lemma updateKeyStatus_rank l st m k :
  rank (m !! k) ≤ rank (updateKeyStatus l st m !! k).
Proof.
  destruct (decide (updateKeyStatus l st m !! k = m !! k)) as [->|Hne]; [done|].
  apply updateKeyStatus_changes in Hne as (_ & -> & Hlt). simpl. lia.
Qed.

Lemma rank_Correct entry : 3 ≤ rank entry → entry = Some Correct.
Proof. destruct entry as [[]|]; simpl; intros; try lia; done. Qed.

Lemma updateKeyStatuses_rank updates m k :
  rank (m !! k) ≤ rank (updateKeyStatuses updates m !! k).
Proof.
  revert m. induction updates as [|[l st] updates IH]; intros m; [done|].
  unfold updateKeyStatuses in *. simpl.
  etrans; [apply (updateKeyStatus_rank l st)|apply IH].
Qed.

(** C6. Whatever updates are made to the key statuses, one update changes a
    letter's entry only to a status of strictly higher priority than the one
    stored (a letter without an entry counting below all), so over a whole
    run of updates no entry loses priority, and an entry that says correct
    stays as it is. *)
Theorem keyStatuses_never_downgrade
    (updates : list (ascii * Status)) (m : gmap ascii Status) (k : ascii) :
  (∀ l st, updateKeyStatus l st m !! k ≠ m !! k →
           updateKeyStatus l st m !! k = Some st ∧ rank (m !! k) < priority st) ∧
  rank (m !! k) ≤ rank (updateKeyStatuses updates m !! k) ∧
  (m !! k = Some Correct → updateKeyStatuses updates m !! k = Some Correct).
Proof.
  split; [|split].
  - intros l st H. by apply updateKeyStatus_changes in H as (_ & ? & ?).
  - apply updateKeyStatuses_rank.
  - intros Hc. apply rank_Correct.
    pose proof (updateKeyStatuses_rank updates m k) as Hmono.
    rewrite Hc in Hmono. done.
Qed.

(** * Properties of the session *)

(** ** What the operations leave alone *)

Lemma set_keyStatuses_id v : set_keyStatuses (keyStatuses v) v = v.
Proof. by destruct v. Qed.

Lemma forCols_preserves (P : State → Prop) body cols s :
  (∀ col s', P s' → P (stateOf (body col s'))) →
  P s → P (stateOf (forCols body cols s)).
Proof.
  intros Hbody. revert s. induction cols as [|col cols IH]; intros s Hs; [done|].
  simpl. specialize (Hbody col s Hs). destruct (body col s); simpl in *; auto.
Qed.

(** Revealing an evaluation assigns to no variable but [keyStatuses], and
    moves the stored statuses only by [updateKeyStatus]. *)
Lemma revealEvaluation_vars row guess evaluation s :
  ∃ updates,
    vars (stateOf (revealEvaluation row guess evaluation s))
    = set_keyStatuses (updateKeyStatuses updates (keyStatuses (vars s))) (vars s).
Proof.
  unfold revealEvaluation.
  apply (forCols_preserves
           (λ s', ∃ updates, vars s' = set_keyStatuses
                     (updateKeyStatuses updates (keyStatuses (vars s))) (vars s))).
  - intros col s' [updates Hs']. unfold revealTile.
    destruct (getTile row col s'); [|by exists updates].
    destruct (split guess !! col) as [ch|]; [|by exists updates].
    destruct (evaluation !! col) as [st|]; [|by exists updates].
    exists (updates ++ [(toUpperCaseChar ch, st)]). simpl. rewrite Hs'.
    unfold updateKeyStatuses. by rewrite foldl_app.
  - exists []. by destruct (vars s).
Qed.

Lemma revealEvaluation_tiles row guess evaluation s r c :
  is_Some (getTile r c s) →
  is_Some (getTile r c (stateOf (revealEvaluation row guess evaluation s))).
Proof.
  unfold revealEvaluation.
  apply (forCols_preserves (λ s', is_Some (getTile r c s'))).
  intros col s' Hs'. unfold revealTile.
  destruct (getTile row col s') as [tile|] eqn:Ht; [|done].
  assert (is_Some (getTile r c (putTile row col
            (mkTile (textContent tile) (tileFilled tile)
               (Some match evaluation !! col with
                     | Some Correct => Correct
                     | Some Present => Present
                     | _ => Absent
                     end)) s'))) as Hput.
  { unfold getTile, putTile in *. simpl. rewrite lookup_insert.
    by destruct (decide _). }
  destruct (split guess !! col); [|done].
  by destruct (evaluation !! col).
Qed.

(** The ways [submitGuess] can go. *)
Lemma submitGuess_cases s :
  (currentCol (vars s) < NUM_COLS ∧
   submitGuess s = Done (showTemporaryMessage notEnoughLetters s))
  ∨ (NUM_COLS ≤ currentCol (vars s) ∧ isValidGuess (getCurrentGuess s) = false ∧
     submitGuess s
     = Done (showTemporaryMessage notInWordList (shakeRow (currentRow (vars s)) s)))
  ∨ (NUM_COLS ≤ currentCol (vars s) ∧ isValidGuess (getCurrentGuess s) = true ∧
     ∃ s1 updates,
       vars s1 = set_keyStatuses (updateKeyStatuses updates (keyStatuses (vars s))) (vars s) ∧
       (submitGuess s = Threw s1
        ∨ (getCurrentGuess s = secretWord (vars s) ∧
           submitGuess s = Done (endGame true s1))
        ∨ (getCurrentGuess s ≠ secretWord (vars s) ∧
           submitGuess s
           = Done (let s2 := onVars (λ v, set_currentCol 0
                                            (set_currentRow (currentRow v + 1) v)) s1 in
                   if currentRow (vars s2) =? NUM_ROWS then endGame false s2 else s2)))).
Proof.
  unfold submitGuess.
  destruct (currentCol (vars s) <? NUM_COLS) eqn:Hcol.
  { left. apply Nat.ltb_lt in Hcol. done. }
  apply Nat.ltb_ge in Hcol. right.
  destruct (isValidGuess (getCurrentGuess s)) eqn:Hvalid; simpl.
  2: { left. done. }
  right. split; [done|]. split; [done|].
  destruct (evaluateGuess (getCurrentGuess s) (secretWord (vars s))) as [evaluation|].
  2: { exists s, []. split; [by destruct (vars s)|]. by left. }
  destruct (revealEvaluation_vars (currentRow (vars s)) (getCurrentGuess s) evaluation s)
    as [updates Hvars].
  destruct (revealEvaluation _ _ _ s) as [s1|s1]; simpl in Hvars.
  - exists s1, updates. split; [done|]. right.
    assert (Hsecret : secretWord (vars s1) = secretWord (vars s)) by (by rewrite Hvars).
    rewrite Hsecret.
    destruct (decide (getCurrentGuess s = secretWord (vars s))); [by left|].
    right. split; [done|]. cbv zeta. by destruct (_ =? NUM_ROWS).
  - exists s1, updates. split; [done|]. by left.
Qed.

Lemma addLetter_vars letter s :
  vars (addLetter letter s) = vars s ∨
  (currentCol (vars s) < NUM_COLS ∧ currentRow (vars s) < NUM_ROWS ∧
   vars (addLetter letter s) = set_currentCol (currentCol (vars s) + 1) (vars s)).
Proof.
  unfold addLetter.
  destruct (NUM_COLS <=? currentCol (vars s)) eqn:Hc; [by left|].
  destruct (NUM_ROWS <=? currentRow (vars s)) eqn:Hr; [by left|]. simpl.
  apply Nat.leb_gt in Hc, Hr.
  destruct (getTile _ _ s); [by right|by left].
Qed.

Lemma deleteLetter_vars s :
  vars (deleteLetter s) = vars s ∨
  (0 < currentCol (vars s) ∧ currentRow (vars s) < NUM_ROWS ∧
   vars (deleteLetter s) = set_currentCol (currentCol (vars s) - 1) (vars s)).
Proof.
  unfold deleteLetter.
  destruct (currentCol (vars s) =? 0) eqn:Hc; [by left|].
  destruct (NUM_ROWS <=? currentRow (vars s)) eqn:Hr; [by left|]. simpl.
  apply Nat.eqb_neq in Hc. apply Nat.leb_gt in Hr.
  right. split; [lia|]. split; [done|]. by destruct (getTile _ _ _).
Qed.

Lemma handleHint_vars s :
  vars (handleHint s) = vars s ∨ vars (handleHint s) = set_hasUsedHint true (vars s).
Proof.
  unfold handleHint. destruct (_ || _); [by left|].
  destruct (secretWord (vars s)); [by left|by right].
Qed.

Lemma shakeRow_vars row s : vars (shakeRow row s) = vars s.
Proof. unfold shakeRow. by destruct (rows (page s) !! row). Qed.

Lemma runCallback_vars cb s : vars (runCallback cb s) = vars s.
Proof. by destruct cb. Qed.

(** ** Row and column stay within the board *)

Lemma withinBoard_vars s s' :
  currentRow (vars s') = currentRow (vars s) →
  currentCol (vars s') = currentCol (vars s) →
  withinBoard s → withinBoard s'.
Proof. unfold withinBoard. intros -> ->. done. Qed.

Lemma addLetter_withinBoard letter s : withinBoard s → withinBoard (addLetter letter s).
Proof.
  intros H. destruct (addLetter_vars letter s) as [E|(Hc & Hr & E)].
  - apply (withinBoard_vars s); by rewrite ?E.
  - unfold withinBoard in *. rewrite E. board_arith.
Qed.

Lemma deleteLetter_withinBoard s : withinBoard s → withinBoard (deleteLetter s).
Proof.
  intros H. destruct (deleteLetter_vars s) as [E|(Hc & Hr & E)].
  - apply (withinBoard_vars s); by rewrite ?E.
  - unfold withinBoard in *. rewrite E. board_arith.
Qed.

Lemma submitGuess_withinBoard s : withinBoard s → withinBoard (stateOf (submitGuess s)).
Proof.
  intros H.
  destruct (submitGuess_cases s)
    as [[_ E]|[(_ & _ & E)|(Hc & _ & s1 & updates & Hv & [E|[[_ E]|[_ E]]])]];
    rewrite E; clear E.
  - apply (withinBoard_vars s); done.
  - apply (withinBoard_vars s); simpl; by rewrite ?shakeRow_vars.
  - apply (withinBoard_vars s); simpl; by rewrite ?Hv.
  - apply (withinBoard_vars s); simpl; by rewrite ?Hv.
  - cbv zeta. unfold withinBoard in *.
    assert (Hr : currentRow (vars s1) = currentRow (vars s)) by (by rewrite Hv).
    destruct (_ =? NUM_ROWS) eqn:Hlast; simpl in *;
      [apply Nat.eqb_eq in Hlast|apply Nat.eqb_neq in Hlast];
      unfold NUM_COLS, NUM_ROWS in *; lia.
Qed.

Lemma handleKey_withinBoard key s : withinBoard s → withinBoard (stateOf (handleKey key s)).
Proof.
  intros H. unfold handleKey.
  destruct (isGameOver (vars s)); [done|].
  destruct (decide (key = "Enter")); [by apply submitGuess_withinBoard|].
  destruct (decide (key = "Backspace")); [by apply deleteLetter_withinBoard|].
  destruct (isUpperKey key); [by apply addLetter_withinBoard|done].
Qed.

Lemma step_withinBoard s s' : step s s' → withinBoard s → withinBoard s'.
Proof.
  intros Hstep H. destruct Hstep as [key s|key s|s|cb before after s Ht].
  - by apply handleKey_withinBoard.
  - unfold onKeyDown. destruct (isGameOver (vars s)); [done|].
    destruct (isLetterKey key); [by apply handleKey_withinBoard|].
    destruct (_ || _); [by apply handleKey_withinBoard|done].
  - apply (withinBoard_vars s); [| |done];
      by destruct (handleHint_vars s) as [->| ->].
  - apply (withinBoard_vars s); [| |done]; by rewrite runCallback_vars.
Qed.

Lemma reachable_withinBoard s0 s : reachable s0 s → withinBoard s0 → withinBoard s.
Proof.
  intros Hreach. induction Hreach as [s|s1 s2 s3 Hstep _ IH]; [done|].
  intros H. apply IH. by apply (step_withinBoard s1).
Qed.

(** C7. In every state a game reaches from its start (row 0, column 0) by
    keys (letters, Backspace, Enter and any other), hint requests and timers,
    the column is at most [NUM_COLS] and the row at most [NUM_ROWS]. *)
Theorem row_col_within_board (s0 s : State) :
  currentRow (vars s0) = 0 → currentCol (vars s0) = 0 →
  reachable s0 s →
  currentCol (vars s) ≤ NUM_COLS ∧ currentRow (vars s) ≤ NUM_ROWS.
Proof.
  intros Hr Hc Hreach.
  assert (H : withinBoard s).
  { apply (reachable_withinBoard s0); [done|].
    unfold withinBoard, NUM_COLS, NUM_ROWS. lia. }
  unfold withinBoard, NUM_ROWS in *. lia.
Qed.

Lemma row_col_within_board_witness :
  currentRow (vars craneGame) = 0 ∧ currentCol (vars craneGame) = 0 ∧
  reachable craneGame (stateOf (handleKey "A" craneGame)) ∧
  currentCol (vars (stateOf (handleKey "A" craneGame))) ≤ NUM_COLS ∧
  currentRow (vars (stateOf (handleKey "A" craneGame))) ≤ NUM_ROWS.
Proof.
  split; [reflexivity|]. split; [reflexivity|].
  assert (Hreach : reachable craneGame (stateOf (handleKey "A" craneGame))).
  { apply rtc_once, step_key. }
  split; [exact Hreach|].
  apply (row_col_within_board craneGame); [reflexivity|reflexivity|exact Hreach].
Defined.

(** ** A game that is over ignores the keys *)

(** C5. When the game is over, a key, whichever it is (a letter, Backspace,
    Enter), from the on-screen or the physical keyboard, changes nothing:
    the state is returned as it was, so row and column stay. *)
Theorem game_over_keys_ignored (s : State) (key : string) :
  isGameOver (vars s) = true →
  handleKey key s = Done s ∧ onKeyDown key s = Done s ∧
  currentRow (vars (stateOf (handleKey key s))) = currentRow (vars s) ∧
  currentCol (vars (stateOf (handleKey key s))) = currentCol (vars s).
Proof.
  intros Hover. unfold onKeyDown, handleKey. rewrite Hover. done.
Qed.

Lemma game_over_keys_ignored_witness :
  isGameOver (vars wonGame) = true ∧
  handleKey "Backspace" wonGame = Done wonGame ∧
  onKeyDown "Backspace" wonGame = Done wonGame ∧
  currentRow (vars (stateOf (handleKey "Backspace" wonGame))) = currentRow (vars wonGame) ∧
  currentCol (vars (stateOf (handleKey "Backspace" wonGame))) = currentCol (vars wonGame).
Proof.
  split; [reflexivity|].
  apply (game_over_keys_ignored wonGame "Backspace"). reflexivity.
Defined.

(** The test of the game-over flag is in [handleKey] alone: [deleteLetter]
    called directly on the won game takes a letter back. *)
Lemma deleteLetter_has_no_game_over_test :
  isGameOver (vars wonGame) = true ∧
  currentCol (vars wonGame) = 5 ∧ currentCol (vars (deleteLetter wonGame)) = 4.
Proof. vm_compute. done. Qed.

(** ** An incomplete guess *)

Lemma submitGuess_incomplete_vars s :
  currentCol (vars s) < NUM_COLS →
  ∃ s', submitGuess s = Done s' ∧ vars s' = vars s.
Proof.
  intros Hcol. unfold submitGuess. apply Nat.ltb_lt in Hcol. rewrite Hcol.
  by eexists.
Qed.

(** C8. Submitting with fewer than [NUM_COLS] letters entered shows
    "Not enough letters" (to be cleared by a timer) and changes no variable
    and no other part of the page: row, column, flags, counters, key
    statuses, rows and tiles are as before. *)
Theorem submitGuess_incomplete (s : State) :
  currentCol (vars s) < NUM_COLS →
  ∃ s', submitGuess s = Done s' ∧
        message (page s') = notEnoughLetters ∧
        timers (page s') = timers (page s) ++ [ClearMessage] ∧
        vars s' = vars s ∧
        currentRow (vars s') = currentRow (vars s) ∧
        currentCol (vars s') = currentCol (vars s) ∧
        rows (page s') = rows (page s) ∧ tiles (page s') = tiles (page s) ∧
        hintDisabled (page s') = hintDisabled (page s) ∧
        keyboardDisabled (page s') = keyboardDisabled (page s).
Proof.
  intros Hcol. unfold submitGuess.
  apply Nat.ltb_lt in Hcol. rewrite Hcol.
  eexists. split; [reflexivity|]. done.
Qed.

Lemma submitGuess_incomplete_witness :
  currentCol (vars craneGame) < NUM_COLS ∧
  ∃ s', submitGuess craneGame = Done s' ∧
        message (page s') = notEnoughLetters ∧
        timers (page s') = timers (page craneGame) ++ [ClearMessage] ∧
        vars s' = vars craneGame ∧
        currentRow (vars s') = currentRow (vars craneGame) ∧
        currentCol (vars s') = currentCol (vars craneGame) ∧
        rows (page s') = rows (page craneGame) ∧ tiles (page s') = tiles (page craneGame) ∧
        hintDisabled (page s') = hintDisabled (page craneGame) ∧
        keyboardDisabled (page s') = keyboardDisabled (page craneGame).
Proof.
  assert (H : currentCol (vars craneGame) < NUM_COLS) by (vm_compute; lia).
  split; [exact H|]. apply (submitGuess_incomplete craneGame H).
Defined.

(** ** A complete guess *)

Lemma isValidGuess_length guess :
  isValidGuess guess = true → length (split guess) = NUM_COLS.
Proof. unfold isValidGuess. intros H%Nat.eqb_eq. by rewrite length_split. Qed.

Lemma forCols_done body cols s :
  (∀ col s', col ∈ cols → ∃ s'', body col s' = Done s'') →
  ∃ s', forCols body cols s = Done s'.
Proof.
  revert s. induction cols as [|col cols IH]; intros s Hbody; simpl; [by eexists|].
  destruct (Hbody col s) as [s'' ->]; [by left|].
  apply IH. intros col' s' Hin. apply Hbody. by right.
Qed.

(** With a guess of at least [NUM_COLS] characters nothing throws while the
    evaluation is revealed. *)
Lemma revealEvaluation_done row guess evaluation s :
  NUM_COLS ≤ length (split guess) →
  ∃ s1, revealEvaluation row guess evaluation s = Done s1.
Proof.
  intros Hlen. apply forCols_done. intros col s' Hcol.
  apply elem_of_seq in Hcol. unfold revealTile.
  destruct (getTile row col s'); [|by eexists].
  destruct (lookup_lt_is_Some_2 (split guess) col) as [ch ->]; [lia|].
  destruct (evaluation !! col); by eexists.
Qed.

(** A complete, valid guess against a secret of at least [NUM_COLS]
    characters is evaluated and revealed, and then decides the game. *)
Lemma submitGuess_valid s :
  NUM_COLS ≤ currentCol (vars s) →
  isValidGuess (getCurrentGuess s) = true →
  NUM_COLS ≤ length (split (secretWord (vars s))) →
  ∃ evaluation s1,
    evaluateGuess (getCurrentGuess s) (secretWord (vars s)) = Some evaluation ∧
    revealEvaluation (currentRow (vars s)) (getCurrentGuess s) evaluation s = Done s1 ∧
    (∃ updates, vars s1 = set_keyStatuses
                   (updateKeyStatuses updates (keyStatuses (vars s))) (vars s)) ∧
    submitGuess s
    = Done (if decide (getCurrentGuess s = secretWord (vars s))
            then endGame true s1
            else
              let s2 := onVars (λ v, set_currentCol 0
                                       (set_currentRow (currentRow v + 1) v)) s1 in
              if currentRow (vars s2) =? NUM_ROWS then endGame false s2 else s2).
Proof.
  intros Hcol Hvalid Hsecret.
  pose proof (isValidGuess_length _ Hvalid) as Hlen.
  destruct (evaluateGuess_fair_any_case (getCurrentGuess s) (secretWord (vars s)) "A")
    as (evaluation & Hev & _); [lia|done|].
  destruct (revealEvaluation_done (currentRow (vars s)) (getCurrentGuess s) evaluation s)
    as [s1 Hs1]; [lia|].
  exists evaluation, s1. split; [done|]. split; [done|].
  destruct (revealEvaluation_vars (currentRow (vars s)) (getCurrentGuess s) evaluation s)
    as [updates Hvars].
  rewrite Hs1 in Hvars. simpl in Hvars.
  split; [by exists updates|].
  unfold submitGuess.
  apply Nat.ltb_ge in Hcol. rewrite Hcol, Hvalid, Hev, Hs1. simpl negb. cbv iota.
  assert (Hsame : secretWord (vars s1) = secretWord (vars s)) by (by rewrite Hvars).
  rewrite Hsame. cbv zeta.
  destruct (decide _); [done|]. by destruct (_ =? NUM_ROWS).
Qed.

(** C10. A complete valid guess that equals the secret ends the game with a
    win and leaves the row where it is and the column at [NUM_COLS]; a
    complete valid guess that differs moves to the next row and column 0;
    and [submitGuess] changes row or column in no other case. *)
Theorem submitGuess_win_keeps_position (s : State) :
  currentCol (vars s) = NUM_COLS →
  isValidGuess (getCurrentGuess s) = true →
  (getCurrentGuess s = secretWord (vars s) →
   ∃ s', submitGuess s = Done s' ∧
         isGameOver (vars s') = true ∧ message (page s') = wonMessage ∧
         gamesPlayed (vars s') = gamesPlayed (vars s) + 1 ∧
         gamesWon (vars s') = gamesWon (vars s) + 1 ∧
         currentStreak (vars s') = currentStreak (vars s) + 1 ∧
         currentRow (vars s') = currentRow (vars s) ∧
         currentCol (vars s') = NUM_COLS) ∧
  (getCurrentGuess s ≠ secretWord (vars s) →
   NUM_COLS ≤ length (split (secretWord (vars s))) →
   ∃ s', submitGuess s = Done s' ∧
         currentRow (vars s') = currentRow (vars s) + 1 ∧
         currentCol (vars s') = 0) ∧
  (∀ t, currentRow (vars (stateOf (submitGuess t))) ≠ currentRow (vars t) ∨
        currentCol (vars (stateOf (submitGuess t))) ≠ currentCol (vars t) →
        NUM_COLS ≤ currentCol (vars t) ∧
        isValidGuess (getCurrentGuess t) = true ∧
        getCurrentGuess t ≠ secretWord (vars t) ∧
        currentRow (vars (stateOf (submitGuess t))) = currentRow (vars t) + 1 ∧
        currentCol (vars (stateOf (submitGuess t))) = 0).
Proof.
  intros Hcol Hvalid. split; [|split].
  - intros Hwin.
    destruct (submitGuess_valid s)
      as (evaluation & s1 & _ & _ & [updates Hvars] & Hsub); [lia|done| |].
    { rewrite <- Hwin. rewrite (isValidGuess_length _ Hvalid). done. }
    rewrite decide_True in Hsub by done.
    eexists. split; [exact Hsub|]. simpl. rewrite Hvars. simpl. by rewrite Hcol.
  - intros Hlose Hsecret.
    destruct (submitGuess_valid s)
      as (evaluation & s1 & _ & _ & [updates Hvars] & Hsub); [lia|done|done|].
    rewrite decide_False in Hsub by done. cbv zeta in Hsub.
    eexists. split; [exact Hsub|].
    destruct (_ =? NUM_ROWS); simpl; by rewrite ?Hvars.
  - intros t Hmoved.
    destruct (submitGuess_cases t)
      as [[_ E]|[(_ & _ & E)|(Hc & Hv & s1 & updates & Hvars & [E|[[_ E]|[Hne E]]])]];
      rewrite E in Hmoved |- *; clear E; simpl in Hmoved;
      rewrite ?shakeRow_vars, ?Hvars in Hmoved; simpl in Hmoved.
    1-4: by destruct Hmoved.
    clear Hmoved. repeat split; try done;
      cbv zeta; destruct (_ =? NUM_ROWS); simpl; by rewrite ?Hvars.
Qed.

Lemma submitGuess_win_keeps_position_witness :
  currentCol (vars typedCRANE) = NUM_COLS ∧
  isValidGuess (getCurrentGuess typedCRANE) = true ∧
  getCurrentGuess typedCRANE = secretWord (vars typedCRANE) ∧
  ∃ s', submitGuess typedCRANE = Done s' ∧
        isGameOver (vars s') = true ∧ message (page s') = wonMessage ∧
        gamesPlayed (vars s') = gamesPlayed (vars typedCRANE) + 1 ∧
        gamesWon (vars s') = gamesWon (vars typedCRANE) + 1 ∧
        currentStreak (vars s') = currentStreak (vars typedCRANE) + 1 ∧
        currentRow (vars s') = currentRow (vars typedCRANE) ∧
        currentCol (vars s') = NUM_COLS.
Proof.
  split; [reflexivity|]. split; [reflexivity|]. split; [reflexivity|].
  apply (submitGuess_win_keeps_position typedCRANE); reflexivity.
Defined.

(** ** Typing a word *)

Lemma pressKeys_app ks1 ks2 s : pressKeys (ks1 ++ ks2) s = pressKeys ks2 (pressKeys ks1 s).
Proof. apply foldl_app. Qed.

Lemma pressKeys_cons k ks s :
  pressKeys (k :: ks) s = pressKeys ks (stateOf (handleKey k s)).
Proof. done. Qed.

Lemma handleKey_letter c s :
  isGameOver (vars s) = false → isUpperLetter c = true →
  handleKey (String c EmptyString) s = Done (addLetter (String c EmptyString) s).
Proof.
  intros Hover Hc. unfold handleKey. rewrite Hover.
  destruct (decide (String c EmptyString = "Enter")); [done|].
  destruct (decide (String c EmptyString = "Backspace")); [done|].
  simpl. by rewrite Hc.
Qed.

Lemma addLetter_free letter s tile :
  currentCol (vars s) < NUM_COLS → currentRow (vars s) < NUM_ROWS →
  getTile (currentRow (vars s)) (currentCol (vars s)) s = Some tile →
  addLetter letter s
  = onVars (set_currentCol (currentCol (vars s) + 1))
           (putTile (currentRow (vars s)) (currentCol (vars s))
                    (mkTile letter true (tileStatus tile)) s).
Proof.
  intros Hc Hr Ht. unfold addLetter.
  apply Nat.leb_gt in Hc, Hr. by rewrite Hc, Hr, Ht.
Qed.

Lemma getTile_putTile row col t s r c :
  getTile r c (putTile row col t s)
  = if decide ((row, col) = (r, c)) then Some t else getTile r c s.
Proof. unfold getTile, putTile. simpl. apply lookup_insert. Qed.

(** Typing letters into free tiles of the current row fills them from the
    current column on, moves the column along, and touches nothing else. *)
Lemma typeLetters cs s :
  forallb isUpperLetter cs = true →
  isGameOver (vars s) = false →
  currentRow (vars s) < NUM_ROWS →
  currentCol (vars s) + length cs ≤ NUM_COLS →
  (∀ c, c < NUM_COLS → is_Some (getTile (currentRow (vars s)) c s)) →
  let s' := pressKeys (letterKeys cs) s in
  vars s' = set_currentCol (currentCol (vars s) + length cs) (vars s) ∧
  (∀ i ch, cs !! i = Some ch →
     textContent <$> getTile (currentRow (vars s)) (currentCol (vars s) + i) s'
     = Some (String ch EmptyString)) ∧
  (∀ r c, r ≠ currentRow (vars s) ∨ c < currentCol (vars s) →
     getTile r c s' = getTile r c s) ∧
  (∀ r c, is_Some (getTile r c s) → is_Some (getTile r c s')).
Proof.
  revert s. induction cs as [|ch cs IH]; intros s Hup Hover Hrow Hcol Htiles.
  { simpl. repeat split; try done.
    rewrite Nat.add_0_r. by destruct (vars s). }
  simpl in Hup. apply andb_prop in Hup as [Hch Hup]. simpl in Hcol.
  destruct (Htiles (currentCol (vars s))) as [tile Htile]; [lia|].
  cbv zeta. change (letterKeys (ch :: cs)) with (String ch EmptyString :: letterKeys cs).
  rewrite pressKeys_cons, handleKey_letter by done.
  rewrite (addLetter_free _ s tile) by (done || lia).
  set (s1 := onVars _ _). cbn [stateOf].
  assert (Hv1 : vars s1 = set_currentCol (currentCol (vars s) + 1) (vars s)) by done.
  assert (Hr1 : currentRow (vars s1) = currentRow (vars s)) by done.
  assert (Hc1 : currentCol (vars s1) = currentCol (vars s) + 1) by done.
  assert (Ht1 : ∀ r c, getTile r c s1
                = if decide ((currentRow (vars s), currentCol (vars s)) = (r, c))
                  then Some (mkTile (String ch EmptyString) true (tileStatus tile))
                  else getTile r c s).
  { intros r c. unfold s1. apply getTile_putTile. }
  destruct (IH s1) as (IHv & IHtext & IHkeep & IHsome); try done.
  { rewrite Hc1. lia. }
  { intros c Hc. rewrite Hr1, Ht1. destruct (decide _); [done|]. by apply Htiles. }
  split; [|split; [|split]].
  - rewrite IHv, Hc1, Hv1.
    change (set_currentCol ?n (set_currentCol ?m ?v)) with (set_currentCol n v).
    f_equal. simpl. lia.
  - intros [|i] ch' Hi; simpl in Hi.
    + injection Hi as <-. rewrite Nat.add_0_r.
      rewrite <- Hr1, IHkeep by (right; lia). rewrite Hr1, Ht1.
      by rewrite decide_True.
    + specialize (IHtext i ch' Hi). rewrite Hr1, Hc1 in IHtext.
      by replace (currentCol (vars s) + S i) with (currentCol (vars s) + 1 + i) by lia.
  - intros r c Hrc. rewrite IHkeep by (rewrite Hr1, Hc1; destruct Hrc; [by left|right; lia]).
    rewrite Ht1. destruct (decide _) as [E|]; [|done].
    injection E as <- <-. destruct Hrc; [done|lia].
  - intros r c Hsome. apply IHsome. rewrite Ht1. by destruct (decide _).
Qed.

(** A row whose tiles show five capital letters is read back as that word. *)
Lemma getCurrentGuess_spelled cs s :
  length cs = NUM_COLS → forallb isUpperLetter cs = true →
  (∀ i ch, cs !! i = Some ch →
     textContent <$> getTile (currentRow (vars s)) i s = Some (String ch EmptyString)) →
  getCurrentGuess s = join cs.
Proof.
  intros Hlen Hup Htext.
  destruct cs as [|c0 [|c1 [|c2 [|c3 [|c4 [|]]]]]]; try done.
  simpl in Hup.
  apply andb_prop in Hup as [Hu0%toUpperCaseChar_upper Hup].
  apply andb_prop in Hup as [Hu1%toUpperCaseChar_upper Hup].
  apply andb_prop in Hup as [Hu2%toUpperCaseChar_upper Hup].
  apply andb_prop in Hup as [Hu3%toUpperCaseChar_upper Hup].
  apply andb_prop in Hup as [Hu4%toUpperCaseChar_upper _].
  unfold getCurrentGuess. cbn [NUM_COLS seq foldl].
  pose proof (Htext 0 c0 eq_refl) as H0. pose proof (Htext 1 c1 eq_refl) as H1.
  pose proof (Htext 2 c2 eq_refl) as H2. pose proof (Htext 3 c3 eq_refl) as H3.
  pose proof (Htext 4 c4 eq_refl) as H4.
  destruct (getTile _ 0 s) as [[? ? ?]|]; [|done].
  destruct (getTile _ 1 s) as [[? ? ?]|]; [|done].
  destruct (getTile _ 2 s) as [[? ? ?]|]; [|done].
  destruct (getTile _ 3 s) as [[? ? ?]|]; [|done].
  destruct (getTile _ 4 s) as [[? ? ?]|]; [|done].
  simpl in H0, H1, H2, H3, H4.
  injection H0 as ->. injection H1 as ->. injection H2 as ->.
  injection H3 as ->. injection H4 as ->.
  cbn [textContent]. rewrite !decide_False by done.
  unfold toUpperCase, join, split. cbn.
  rewrite Hu0, Hu1, Hu2, Hu3, Hu4. reflexivity.
Qed.

(** ** A round that fails *)

Lemma isWord_valid w : isWord w = true → isValidGuess w = true.
Proof. unfold isWord, isValidGuess. by intros [H _]%andb_prop. Qed.

Lemma isWord_letters w : isWord w = true → forallb isUpperLetter (split w) = true.
Proof. unfold isWord. by intros [_ H]%andb_prop. Qed.

(** Typing a word that is not the secret into row [row] and pressing Enter
    either moves the game to the next row or, on the last row, loses it. *)
Lemma failedRound s w row :
  playing s row → row < NUM_ROWS →
  isWord w = true → w ≠ secretWord (vars s) →
  let s' := pressKeys (typeAndEnter w) s in
  secretWord (vars s') = secretWord (vars s) ∧
  gamesWon (vars s') = gamesWon (vars s) ∧
  currentRow (vars s') = row + 1 ∧ currentCol (vars s') = 0 ∧
  ((row + 1 = NUM_ROWS ∧ isGameOver (vars s') = true ∧
    message (page s') = lostMessage (secretWord (vars s)) ∧
    gamesPlayed (vars s') = gamesPlayed (vars s) + 1 ∧
    currentStreak (vars s') = 0)
   ∨ (row + 1 < NUM_ROWS ∧ playing s' (row + 1) ∧
      gamesPlayed (vars s') = gamesPlayed (vars s) ∧
      currentStreak (vars s') = currentStreak (vars s))).
Proof.
  intros (Hover & Hrow & Hcol & Hsecret & Hboard) Hlt Hw Hne.
  cbv zeta. unfold typeAndEnter. fold (letterKeys (split w)).
  rewrite pressKeys_app.
  pose proof (isWord_length w Hw) as Hlen.
  destruct (typeLetters (split w) s) as (Hv1 & Htext & _ & Hsome);
    [by apply isWord_letters|done|lia|rewrite Hcol, Hlen; done| |].
  { intros c Hc. apply Hboard; [lia|done]. }
  set (s1 := pressKeys (letterKeys (split w)) s) in *.
  rewrite Hcol, Hlen in Hv1. simpl in Hv1.
  assert (Hguess : getCurrentGuess s1 = w).
  { rewrite (getCurrentGuess_spelled (split w)); [apply join_split|done| |].
    - by apply isWord_letters.
    - intros i ch Hi. specialize (Htext i ch Hi).
      rewrite Hcol in Htext. simpl in Htext. by rewrite Hv1. }
  destruct (submitGuess_valid s1)
    as (evaluation & s2 & _ & Hreveal & [updates Hv2] & Hsub).
  { by rewrite Hv1. }
  { rewrite Hguess. by apply isWord_valid. }
  { rewrite Hv1. simpl. rewrite (isWord_length _ Hsecret). done. }
  assert (Hkey : stateOf (handleKey "Enter" s1) = stateOf (submitGuess s1)).
  { unfold handleKey. rewrite Hv1. simpl. by rewrite Hover. }
  rewrite Hguess, Hv1 in Hsub. simpl in Hsub.
  rewrite decide_False in Hsub by done.
  cbn [pressKeys foldl]. rewrite Hkey, Hsub. cbn [stateOf].
  rewrite Hv1 in Hv2. simpl in Hv2.
  assert (Hboard2 : boardBuilt s2).
  { intros r c Hr Hc.
    replace s2 with (stateOf (revealEvaluation (currentRow (vars s1))
                                (getCurrentGuess s1) evaluation s1))
      by (by rewrite Hreveal).
    apply revealEvaluation_tiles, Hsome, Hboard; done. }
  assert (Fsecret : secretWord (vars s2) = secretWord (vars s)) by (by rewrite Hv2).
  assert (Fwon : gamesWon (vars s2) = gamesWon (vars s)) by (by rewrite Hv2).
  assert (Fplayed : gamesPlayed (vars s2) = gamesPlayed (vars s)) by (by rewrite Hv2).
  assert (Fstreak : currentStreak (vars s2) = currentStreak (vars s)) by (by rewrite Hv2).
  assert (Frow : currentRow (vars s2) = row) by (by rewrite Hv2).
  assert (Fover : isGameOver (vars s2) = false) by (by rewrite Hv2).
  clear Hv2. simpl. rewrite Frow.
  destruct (row + 1 =? NUM_ROWS) eqn:Hlast.
  - apply Nat.eqb_eq in Hlast. simpl.
    rewrite Fsecret, Fwon, Fplayed, Frow. repeat split; try done.
    left. repeat split; done.
  - apply Nat.eqb_neq in Hlast. simpl.
    rewrite Fsecret, Fwon, Fplayed, Fstreak, Frow. repeat split; try done.
    right. unfold playing. simpl. rewrite Fsecret, Frow, Fover.
    repeat split; try done. unfold NUM_ROWS in *. lia.
Qed.

(** Rounds that all fail, from row [row] up to the last row, lose the game. *)
Lemma failedRounds guesses s row :
  playing s row →
  guesses ≠ [] → row + length guesses = NUM_ROWS →
  Forall (λ g, isWord g = true ∧ g ≠ secretWord (vars s)) guesses →
  let s' := pressKeys (playGuesses guesses) s in
  isGameOver (vars s') = true ∧
  message (page s') = lostMessage (secretWord (vars s)) ∧
  gamesPlayed (vars s') = gamesPlayed (vars s) + 1 ∧
  gamesWon (vars s') = gamesWon (vars s) ∧
  currentStreak (vars s') = 0 ∧
  currentRow (vars s') = NUM_ROWS ∧ currentCol (vars s') = 0.
Proof.
  revert s row. induction guesses as [|g guesses IH]; intros s row Hplay Hnil Hlen Hall;
    [done|].
  apply Forall_cons in Hall as [[Hg Hne] Hall]. simpl in Hlen.
  cbv zeta. unfold playGuesses. rewrite fmap_cons. cbn [concat].
  rewrite pressKeys_app. fold (playGuesses guesses).
  destruct (failedRound s g row Hplay) as (Hs & Hw & Hr & Hc & Hcases);
    [unfold NUM_ROWS in *; lia|done|done|].
  set (s1 := pressKeys (typeAndEnter g) s) in *.
  destruct Hcases as [(Hlast & Hover & Hmsg & Hgp & Hst)|(Hmore & Hplay1 & Hgp & Hst)].
  - destruct guesses as [|g' guesses]; [|simpl in Hlen; lia].
    simpl. rewrite Hr, Hlast. done.
  - destruct (IH s1 (row + 1) Hplay1) as (? & ? & ? & ? & ? & ? & ?).
    + intros ->. simpl in Hlen. lia.
    + lia.
    + by rewrite Hs.
    + rewrite <- Hs, <- Hgp, <- Hw. done.
Qed.

Lemma ANSWER_WORDS_words :
  Forall (λ w, isWord w = true ∧ toUpperCase w = w) ANSWER_WORDS.
Proof. repeat constructor. Qed.

Lemma buildBoard_built s : boardBuilt (buildBoard s).
Proof.
  intros row col Hr Hc. exists emptyTile.
  do 6 (destruct row as [|row];
        [do 5 (destruct col as [|col]; [vm_compute; reflexivity|]);
         unfold NUM_COLS in Hc; lia|]).
  unfold NUM_ROWS in Hr. lia.
Qed.

(** [initGame] starts a game: every index of the answer list gives a fresh
    game with the counters as they were. *)
Lemma initGame_fresh randomIndex s :
  randomIndex < length ANSWER_WORDS →
  ∃ s', initGame randomIndex s = Done s' ∧ freshGame s' ∧
        Some (secretWord (vars s')) = ANSWER_WORDS !! randomIndex ∧
        gamesPlayed (vars s') = gamesPlayed (vars s) ∧
        gamesWon (vars s') = gamesWon (vars s) ∧
        currentStreak (vars s') = currentStreak (vars s) ∧
        keyStatuses (vars s') = ∅ ∧ message (page s') = "".
Proof.
  intros Hi. destruct (lookup_lt_is_Some_2 ANSWER_WORDS randomIndex Hi) as [word Hword].
  destruct (proj1 (Forall_lookup _ _) ANSWER_WORDS_words randomIndex word Hword)
    as [Hisword Hupper].
  unfold initGame. rewrite Hword. cbn [ANSWER_WORDS]. rewrite Hupper.
  eexists. split; [reflexivity|].
  split; [|done].
  unfold freshGame. cbn [vars currentRow currentCol isGameOver hasUsedHint secretWord
                         onPage clearMessage showMessage].
  repeat split; try done.
  intros row col Hr Hc.
  apply (buildBoard_built (mkState
           (mkVars word 0 0 false true false (gamesPlayed (vars s))
                   (gamesWon (vars s)) (currentStreak (vars s)) ∅) (page s)));
    done.
Qed.

Lemma craneGame_fresh : freshGame craneGame.
Proof.
  destruct (initGame_fresh 8 loadedPage) as (s' & Hs' & Hfresh & _);
    [simpl; lia|].
  unfold craneGame. by rewrite Hs'.
Qed.

(** Six words that differ from the secret, typed and entered one after the
    other in a fresh game, lose it: the game is over, the message tells the
    loss and the secret, [gamesPlayed] is one more than before,
    [currentStreak] is 0 and [gamesWon] is as before. *)
Lemma six_typed_words_lose (s0 : State) (guesses : list string) :
  freshGame s0 →
  length guesses = NUM_ROWS →
  Forall (λ g, isWord g = true ∧ g ≠ secretWord (vars s0)) guesses →
  let s := pressKeys (playGuesses guesses) s0 in
  isGameOver (vars s) = true ∧
  message (page s) = lostMessage (secretWord (vars s0)) ∧
  gamesPlayed (vars s) = gamesPlayed (vars s0) + 1 ∧
  gamesWon (vars s) = gamesWon (vars s0) ∧
  currentStreak (vars s) = 0 ∧
  currentRow (vars s) = NUM_ROWS ∧ currentCol (vars s) = 0.
Proof.
  intros (Hr & Hc & Hover & _ & Hsecret & Hboard) Hlen Hall.
  apply (failedRounds guesses s0 0); try done.
  intros ->. done.
Qed.

(** ** The hint *)

Lemma submitGuess_keeps s :
  secretWord (vars (stateOf (submitGuess s))) = secretWord (vars s) ∧
  hasUsedHint (vars (stateOf (submitGuess s))) = hasUsedHint (vars s).
Proof.
  destruct (submitGuess_cases s)
    as [[_ E]|[(_ & _ & E)|(_ & _ & s1 & updates & Hv & [E|[[_ E]|[_ E]]])]];
    rewrite E; clear E; cbv zeta; try destruct (_ =? NUM_ROWS);
    simpl; by rewrite ?shakeRow_vars, ?Hv.
Qed.

Lemma handleKey_keeps key s :
  secretWord (vars (stateOf (handleKey key s))) = secretWord (vars s) ∧
  hasUsedHint (vars (stateOf (handleKey key s))) = hasUsedHint (vars s).
Proof.
  unfold handleKey. destruct (isGameOver (vars s)); [done|].
  destruct (decide (key = "Enter")); [apply submitGuess_keeps|].
  destruct (decide (key = "Backspace")).
  { simpl. by destruct (deleteLetter_vars s) as [->|(_ & _ & ->)]. }
  destruct (isUpperKey key); [|done].
  simpl. by destruct (addLetter_vars key s) as [->|(_ & _ & ->)].
Qed.

(** Within a game the secret stays, and a hint once used stays used. *)
Lemma step_keeps s s' :
  step s s' →
  secretWord (vars s') = secretWord (vars s) ∧
  (hasUsedHint (vars s) = true → hasUsedHint (vars s') = true).
Proof.
  intros [key s1|key s1|s1|cb before after s1 Ht].
  - destruct (handleKey_keeps key s1) as [-> ->]. done.
  - unfold onKeyDown. destruct (isGameOver (vars s1)); [done|].
    destruct (isLetterKey key).
    { destruct (handleKey_keeps (toUpperCase key) s1) as [-> ->]. done. }
    destruct (_ || _); [|done].
    destruct (handleKey_keeps key s1) as [-> ->]. done.
  - by destruct (handleHint_vars s1) as [->| ->].
  - by rewrite runCallback_vars.
Qed.

Lemma reachable_keeps s s' :
  reachable s s' →
  secretWord (vars s') = secretWord (vars s) ∧
  (hasUsedHint (vars s) = true → hasUsedHint (vars s') = true).
Proof.
  intros Hreach. induction Hreach as [s|s1 s2 s3 Hstep _ [IHs IHh]]; [done|].
  destruct (step_keeps s1 s2 Hstep) as [Hs Hh].
  split; [congruence|auto].
Qed.

(** Within a game the stored key statuses move only through
    [updateKeyStatus]: along every run no letter's entry loses priority. *)
Lemma step_keyStatuses s s' :
  step s s' →
  ∃ updates, keyStatuses (vars s') = updateKeyStatuses updates (keyStatuses (vars s)).
Proof.
  assert (Hsubmit : ∀ t, ∃ updates,
            keyStatuses (vars (stateOf (submitGuess t)))
            = updateKeyStatuses updates (keyStatuses (vars t))).
  { intros t.
    destruct (submitGuess_cases t)
      as [[_ E]|[(_ & _ & E)|(_ & _ & s1 & updates & Hv & [E|[[_ E]|[_ E]]])]];
      rewrite E; clear E.
    - by exists [].
    - exists []. simpl. by rewrite shakeRow_vars.
    - exists updates. simpl. by rewrite Hv.
    - exists updates. simpl. by rewrite Hv.
    - exists updates. cbv zeta. destruct (_ =? NUM_ROWS); simpl; by rewrite Hv. }
  assert (Hkey : ∀ key t, ∃ updates,
            keyStatuses (vars (stateOf (handleKey key t)))
            = updateKeyStatuses updates (keyStatuses (vars t))).
  { intros key t. unfold handleKey. destruct (isGameOver (vars t)); [by exists []|].
    destruct (decide (key = "Enter")); [apply Hsubmit|].
    destruct (decide (key = "Backspace")).
    { exists []. simpl. by destruct (deleteLetter_vars t) as [->|(_ & _ & ->)]. }
    destruct (isUpperKey key); [|by exists []].
    exists []. simpl. by destruct (addLetter_vars key t) as [->|(_ & _ & ->)]. }
  intros [key s1|key s1|s1|cb before after s1 Ht].
  - apply Hkey.
  - unfold onKeyDown. destruct (isGameOver (vars s1)); [by exists []|].
    destruct (isLetterKey key); [apply Hkey|].
    destruct (_ || _); [apply Hkey|by exists []].
  - exists []. by destruct (handleHint_vars s1) as [->| ->].
  - exists []. by rewrite runCallback_vars.
Qed.

Lemma reachable_keyStatuses_rank s s' k :
  reachable s s' →
  rank (keyStatuses (vars s) !! k) ≤ rank (keyStatuses (vars s') !! k).
Proof.
  intros Hreach. induction Hreach as [s|s1 s2 s3 Hstep _ IH]; [done|].
  destruct (step_keyStatuses s1 s2 Hstep) as [updates ->] in IH |- *.
  etrans; [apply (updateKeyStatuses_rank updates)|apply IH].
Qed.

Lemma handleHint_used s : hasUsedHint (vars s) = true → handleHint s = s.
Proof. intros H. unfold handleHint. rewrite H. by rewrite orb_true_r. Qed.

(** C4 (as the code has it). In a game that is not over, with a secret set
    and the hint not yet used, a call of [handleHint] sets the hint-used
    flag, disables the hint button and shows the first letter of the secret,
    and changes nothing else; from then on, whatever happens in the game,
    the secret stays the same and every further call of [handleHint] is a
    no-op: it shows nothing and changes nothing. *)
Theorem handleHint_once (s : State) (c : ascii) (rest : string) :
  isGameOver (vars s) = false → hasUsedHint (vars s) = false →
  secretWord (vars s) = String c rest →
  vars (handleHint s) = set_hasUsedHint true (vars s) ∧
  page (handleHint s) = set_message (hintMessage c) (set_hintDisabled true (page s)) ∧
  ∀ s', reachable (handleHint s) s' →
        secretWord (vars s') = String c rest ∧ handleHint s' = s'.
Proof.
  intros Hover Hused Hsecret.
  assert (E : handleHint s
              = showMessage (hintMessage c)
                  (onPage (set_hintDisabled true) (onVars (set_hasUsedHint true) s))).
  { unfold handleHint. by rewrite Hover, Hused, Hsecret. }
  rewrite E. split; [done|]. split; [done|].
  intros s' Hreach. destruct (reachable_keeps _ _ Hreach) as [Hs Hh].
  split; [by rewrite Hs|]. apply handleHint_used. by apply Hh.
Qed.

Lemma handleHint_once_witness :
  isGameOver (vars craneGame) = false ∧ hasUsedHint (vars craneGame) = false ∧
  secretWord (vars craneGame) = "CRANE" ∧
  vars (handleHint craneGame) = set_hasUsedHint true (vars craneGame) ∧
  page (handleHint craneGame)
  = set_message (hintMessage "C") (set_hintDisabled true (page craneGame)) ∧
  ∀ s', reachable (handleHint craneGame) s' →
        secretWord (vars s') = "CRANE" ∧ handleHint s' = s'.
Proof.
  split; [reflexivity|]. split; [reflexivity|]. split; [reflexivity|].
  apply (handleHint_once craneGame "C" "RANE"); reflexivity.
Defined.

(** C4 as stated does not hold: in the CRANE game, after the hint was shown
    and an early Enter replaced it by "Not enough letters", a second call of
    [handleHint] in the same game returns the state as it is and the message
    does not show the first letter. *)
Lemma handleHint_second_call_shows_nothing :
  let s := stateOf (handleKey "Enter" (handleHint craneGame)) in
  reachable craneGame s ∧
  message (page (handleHint craneGame)) = hintMessage "C" ∧
  isGameOver (vars s) = false ∧ secretWord (vars s) = "CRANE" ∧
  handleHint s = s ∧
  message (page (handleHint s)) = notEnoughLetters ∧
  message (page (handleHint s)) ≠ hintMessage "C".
Proof.
  cbv zeta. split.
  { eapply rtc_l; [apply step_hint|]. apply rtc_once, step_key. }
  repeat split; try (vm_compute; reflexivity).
  vm_compute. discriminate.
Qed.

(** ** Runs given as actions *)

Lemma perform_reachable a s : reachable s (perform a s).
Proof.
  destruct a as [key|key| |n]; simpl.
  - apply rtc_once, step_key.
  - apply rtc_once, step_keydown.
  - apply rtc_once, step_hint.
  - destruct (timers (page s) !! n) as [cb|] eqn:Hn; [|apply rtc_refl].
    apply rtc_once.
    replace (onPage (λ p, set_timers (delete n (timers p)) p) s)
      with (onPage (set_timers (take n (timers (page s)) ++ drop (S n) (timers (page s)))) s)
      by (unfold onPage; by rewrite delete_take_drop).
    apply step_timer. by rewrite take_drop_middle.
Qed.

Lemma run_reachable acts s : reachable s (run acts s).
Proof.
  revert s. induction acts as [|a acts IH]; intros s; [apply rtc_refl|].
  cbn [run foldl]. fold (run acts (perform a s)).
  unfold reachable in *. etrans; [apply perform_reachable|apply IH].
Qed.

(** ** Losing a game *)

Lemma handleKey_not_Enter key s :
  key ≠ "Enter" →
  ∃ col, vars (stateOf (handleKey key s)) = set_currentCol col (vars s).
Proof.
  intros Hkey.
  assert (Hid : vars s = set_currentCol (currentCol (vars s)) (vars s))
    by (by destruct (vars s)).
  unfold handleKey. destruct (isGameOver (vars s)); [by eexists|].
  destruct (decide (key = "Enter")); [done|].
  destruct (decide (key = "Backspace")).
  { simpl. destruct (deleteLetter_vars s) as [->|(_ & _ & ->)]; by eexists. }
  destruct (isUpperKey key); [|by eexists].
  simpl. destruct (addLetter_vars key s) as [->|(_ & _ & ->)]; by eexists.
Qed.

Lemma afterFailures_vars s0 k s s' col :
  k < NUM_ROWS → vars s' = set_currentCol col (vars s) →
  afterFailures s0 k s → afterFailures s0 k s'.
Proof.
  intros Hk Hv. unfold afterFailures. apply Nat.ltb_lt in Hk. rewrite Hk, Hv. done.
Qed.

Lemma afterFailures_same_vars s0 k s s' :
  k < NUM_ROWS → vars s' = vars s → afterFailures s0 k s → afterFailures s0 k s'.
Proof.
  intros Hk Hv. unfold afterFailures. apply Nat.ltb_lt in Hk. rewrite Hk, Hv. done.
Qed.

(** Enter in a running game: a valid guess that is not the secret is one more
    failure; a submission that is not valid changes no variable. *)
Lemma submitGuess_afterFailures s0 k s :
  isWord (secretWord (vars s0)) = true → k < NUM_ROWS →
  afterFailures s0 k s →
  if (NUM_COLS <=? currentCol (vars s)) && isValidGuess (getCurrentGuess s)
  then getCurrentGuess s ≠ secretWord (vars s0) →
       afterFailures s0 (k + 1) (stateOf (submitGuess s))
  else afterFailures s0 k (stateOf (submitGuess s)).
Proof.
  intros Hsecret Hk Hinv.
  destruct (NUM_COLS <=? currentCol (vars s)) eqn:Hcol; simpl.
  2: { apply Nat.leb_gt in Hcol.
       destruct (submitGuess_incomplete_vars s Hcol) as [s' [-> Hv]].
       by apply (afterFailures_same_vars s0 k s). }
  apply Nat.leb_le in Hcol.
  destruct (isValidGuess (getCurrentGuess s)) eqn:Hvalid.
  2: { apply (afterFailures_same_vars s0 k s); [done| |done].
       unfold submitGuess. apply Nat.ltb_ge in Hcol. rewrite Hcol, Hvalid. simpl.
       apply shakeRow_vars. }
  intros Hne.
  destruct Hinv as (Hs & Hw & Hr & Hrest).
  pose proof Hk as Hk'. apply Nat.ltb_lt in Hk'. rewrite Hk' in Hrest.
  destruct Hrest as (Hover & Hgp & Hst).
  destruct (submitGuess_valid s)
    as (evaluation & s1 & _ & _ & [updates Hv] & Hsub); [done|done| |].
  { rewrite Hs, (isWord_length _ Hsecret). done. }
  rewrite Hs, decide_False in Hsub by done.
  assert (Fs : secretWord (vars s1) = secretWord (vars s0)) by (by rewrite Hv).
  assert (Fw : gamesWon (vars s1) = gamesWon (vars s0)) by (by rewrite Hv).
  assert (Fp : gamesPlayed (vars s1) = gamesPlayed (vars s0)) by (by rewrite Hv).
  assert (Ft : currentStreak (vars s1) = currentStreak (vars s0)) by (by rewrite Hv).
  assert (Fr : currentRow (vars s1) = k) by (by rewrite Hv).
  assert (Fo : isGameOver (vars s1) = false) by (by rewrite Hv).
  clear Hv. rewrite Hsub. cbv zeta. simpl. rewrite Fr. unfold afterFailures.
  destruct (k + 1 =? NUM_ROWS) eqn:Hlast.
  - apply Nat.eqb_eq in Hlast.
    assert (Hge : (k + 1 <? NUM_ROWS) = false) by (apply Nat.ltb_ge; lia).
    rewrite Hge. simpl. rewrite Fs, Fw, Fp, Fr. repeat split; try done.
    by left.
  - apply Nat.eqb_neq in Hlast.
    assert (Hlt : (k + 1 <? NUM_ROWS) = true)
      by (apply Nat.ltb_lt; unfold NUM_ROWS in *; lia).
    rewrite Hlt. simpl. rewrite Fs, Fw, Fp, Ft, Fr, Fo. done.
Qed.

Lemma handleKey_afterFailures s0 k s key :
  isWord (secretWord (vars s0)) = true → k < NUM_ROWS →
  afterFailures s0 k s →
  if validSubmission (PressKey key) s
  then getCurrentGuess s ≠ secretWord (vars s0) →
       afterFailures s0 (k + 1) (stateOf (handleKey key s))
  else afterFailures s0 k (stateOf (handleKey key s)).
Proof.
  intros Hsecret Hk Hinv.
  assert (Hover : isGameOver (vars s) = false).
  { destruct Hinv as (_ & _ & _ & Hrest). apply Nat.ltb_lt in Hk.
    rewrite Hk in Hrest. by destruct Hrest. }
  unfold validSubmission, submits. rewrite Hover. simpl negb.
  destruct (decide (key = "Enter")) as [->|Hkey].
  - rewrite bool_decide_eq_true_2 by done. simpl andb.
    replace (handleKey "Enter" s) with (submitGuess s)
      by (unfold handleKey; by rewrite Hover).
    by apply submitGuess_afterFailures.
  - rewrite bool_decide_eq_false_2 by done. simpl.
    destruct (handleKey_not_Enter key s Hkey) as [col Hv].
    by apply (afterFailures_vars s0 k s _ col).
Qed.

Lemma isLetterKey_toUpperCase key :
  isLetterKey key = true → key ≠ "Enter" ∧ toUpperCase key ≠ "Enter".
Proof.
  destruct key as [|c [|c' key]]; try done.
Qed.

Lemma perform_running s0 k s a :
  isWord (secretWord (vars s0)) = true → k < NUM_ROWS →
  afterFailures s0 k s →
  if validSubmission a s
  then getCurrentGuess s ≠ secretWord (vars s0) →
       afterFailures s0 (k + 1) (perform a s)
  else afterFailures s0 k (perform a s).
Proof.
  intros Hsecret Hk Hinv.
  destruct a as [key|key| |n].
  - by apply handleKey_afterFailures.
  - change (validSubmission (KeyDown key) s) with (validSubmission (PressKey key) s).
    unfold perform, onKeyDown.
    destruct (isGameOver (vars s)) eqn:Hover.
    { unfold validSubmission. rewrite Hover, andb_false_r. done. }
    destruct (isLetterKey key) eqn:Hletter.
    { destruct (isLetterKey_toUpperCase key Hletter) as [Hkey Hupper].
      unfold validSubmission, submits.
      rewrite bool_decide_eq_false_2 by done. simpl.
      destruct (handleKey_not_Enter (toUpperCase key) s Hupper) as [col Hv].
      by apply (afterFailures_vars s0 k s _ col). }
    destruct (bool_decide (key = "Enter") || bool_decide (key = "Backspace")) eqn:Hkey.
    { by apply handleKey_afterFailures. }
    apply orb_false_elim in Hkey as [Hkey _].
    unfold validSubmission, submits. rewrite Hkey. done.
  - unfold validSubmission. simpl.
    destruct (handleHint_vars s) as [Hv|Hv].
    + by apply (afterFailures_same_vars s0 k s).
    + revert Hinv. unfold afterFailures. apply Nat.ltb_lt in Hk. by rewrite Hk, Hv.
  - unfold validSubmission. simpl.
    destruct (timers (page s) !! n); [|done].
    apply (afterFailures_same_vars s0 k s); [done| |done].
    by rewrite runCallback_vars.
Qed.

(** Once the game is lost nothing is submitted any more and it stays lost. *)
Lemma perform_lost s0 s a :
  afterFailures s0 NUM_ROWS s →
  validSubmission a s = false ∧ afterFailures s0 NUM_ROWS (perform a s).
Proof.
  intros Hinv. pose proof Hinv as (Hs & Hw & Hr & Hover & Hc & Hgp & Hst & Hmsg).
  split.
  { unfold validSubmission. rewrite Hover. simpl. by rewrite andb_false_r. }
  destruct a as [key|key| |n]; simpl.
  - unfold handleKey. by rewrite Hover.
  - unfold onKeyDown. by rewrite Hover.
  - unfold handleHint. by rewrite Hover.
  - destruct (timers (page s) !! n) as [cb|]; [|done].
    unfold afterFailures. rewrite runCallback_vars. simpl.
    repeat split; try done.
    destruct cb; simpl; [by right|done].
Qed.

Lemma run_afterFailures s0 acts k s :
  isWord (secretWord (vars s0)) = true → k ≤ NUM_ROWS →
  afterFailures s0 k s →
  Forall (λ g, g ≠ secretWord (vars s0)) (validSubmissions acts s) →
  k + length (validSubmissions acts s) ≤ NUM_ROWS ∧
  afterFailures s0 (k + length (validSubmissions acts s)) (run acts s).
Proof.
  intros Hsecret. revert k s.
  induction acts as [|a acts IH]; intros k s Hk Hinv Hall.
  { simpl. rewrite Nat.add_0_r. done. }
  cbn [validSubmissions run foldl] in *. fold (run acts (perform a s)).
  destruct (decide (k = NUM_ROWS)) as [->|Hlt].
  - destruct (perform_lost s0 s a Hinv) as [Hno Hinv']. rewrite Hno in *.
    cbn [app] in *. by apply IH.
  - assert (Hk' : k < NUM_ROWS) by lia.
    pose proof (perform_running s0 k s a Hsecret Hk' Hinv) as Hstep.
    destruct (validSubmission a s); cbn [app length] in *.
    + apply Forall_cons in Hall as [Hne Hall].
      destruct (IH (k + 1) (perform a s)) as [Hle Hinv']; [lia|by apply Hstep|done|].
      replace (k + S (length (validSubmissions acts (perform a s))))
        with (k + 1 + length (validSubmissions acts (perform a s))) by lia.
      done.
    + by apply IH.
Qed.

Lemma freshGame_afterFailures s0 : freshGame s0 → afterFailures s0 0 s0.
Proof. intros (Hr & Hc & Hover & _). unfold afterFailures. simpl. done. Qed.

Lemma run_app acts1 acts2 s : run (acts1 ++ acts2) s = run acts2 (run acts1 s).
Proof. apply foldl_app. Qed.

Lemma validSubmissions_app acts1 acts2 s :
  validSubmissions (acts1 ++ acts2) s
  = validSubmissions acts1 s ++ validSubmissions acts2 (run acts1 s).
Proof.
  revert s. induction acts1 as [|a acts1 IH]; intros s; [done|].
  cbn [app validSubmissions run foldl]. fold (run acts1 (perform a s)).
  by rewrite IH, app_assoc.
Qed.

(** The submission that fails in the last row shows the loss message. *)
Lemma last_submission_message s0 s a :
  isWord (secretWord (vars s0)) = true →
  afterFailures s0 (NUM_ROWS - 1) s →
  validSubmission a s = true → getCurrentGuess s ≠ secretWord (vars s0) →
  message (page (perform a s)) = lostMessage (secretWord (vars s0)).
Proof.
  intros Hsecret (Hs & _ & Hr & Hover & _) Hvalid Hne. simpl in Hover.
  unfold validSubmission in Hvalid.
  apply andb_prop in Hvalid as [[[Hsub _]%andb_prop Hcol]%andb_prop Hvalid].
  apply Nat.leb_le in Hcol.
  assert (Hperform : perform a s = stateOf (submitGuess s)).
  { destruct a as [key|key| |n]; try done; simpl in Hsub;
      apply bool_decide_eq_true_1 in Hsub as ->; simpl.
    - unfold handleKey. by rewrite Hover.
    - unfold onKeyDown, handleKey. by rewrite Hover. }
  rewrite Hperform.
  destruct (submitGuess_valid s)
    as (evaluation & s1 & _ & _ & [updates Hv] & Hsub'); [done|done| |].
  { rewrite Hs, (isWord_length _ Hsecret). done. }
  rewrite Hs, decide_False in Hsub' by done. rewrite Hsub'. cbv zeta. simpl.
  rewrite Hv. simpl. rewrite Hr. simpl. rewrite Hv. simpl. by rewrite Hs.
Qed.

(** C9. In a game started fresh, whatever else happens (letters, deletions,
    incomplete submissions, hints, timers), once [NUM_ROWS] valid guesses
    have been submitted and none of them was the secret, the game is over
    and lost: [gamesPlayed] is one more than at the start, [gamesWon] is as
    at the start, [currentStreak] is 0, the row is [NUM_ROWS]; and the
    submission that completes the count leaves the loss message, which only
    a timer can clear afterwards. *)
Theorem lost_after_six_failed_submissions (s0 : State) (acts : list Action) :
  freshGame s0 →
  length (validSubmissions acts s0) = NUM_ROWS →
  Forall (λ g, g ≠ secretWord (vars s0)) (validSubmissions acts s0) →
  let s := run acts s0 in
  isGameOver (vars s) = true ∧
  gamesPlayed (vars s) = gamesPlayed (vars s0) + 1 ∧
  gamesWon (vars s) = gamesWon (vars s0) ∧
  currentStreak (vars s) = 0 ∧
  currentRow (vars s) = NUM_ROWS ∧ currentCol (vars s) = 0 ∧
  (message (page s) = lostMessage (secretWord (vars s0)) ∨ message (page s) = "") ∧
  (∀ before a, acts = before ++ [a] → validSubmission a (run before s0) = true →
               message (page s) = lostMessage (secretWord (vars s0))).
Proof.
  intros Hfresh Hlen Hall.
  pose proof Hfresh as (_ & _ & _ & _ & Hsecret & _).
  destruct (run_afterFailures s0 acts 0 s0 Hsecret) as [_ Hinv];
    [unfold NUM_ROWS; lia|by apply freshGame_afterFailures|done|].
  rewrite Hlen in Hinv. destruct Hinv as (Hs & Hw & Hr & Hover & Hc & Hgp & Hst & Hmsg).
  cbv zeta. repeat split; try done.
  intros before a -> Hvalid.
  rewrite validSubmissions_app in Hlen, Hall.
  cbn [validSubmissions] in Hlen, Hall. rewrite Hvalid in Hlen, Hall.
  rewrite length_app in Hlen. simpl in Hlen.
  apply Forall_app in Hall as [Hbefore Hlast].
  apply Forall_cons in Hlast as [Hne _].
  destruct (run_afterFailures s0 before 0 s0 Hsecret) as [_ Hinv];
    [unfold NUM_ROWS; lia|by apply freshGame_afterFailures|done|].
  rewrite run_app. cbn [run foldl]. fold (run before s0).
  apply (last_submission_message s0); try done.
  replace (NUM_ROWS - 1) with (0 + length (validSubmissions before s0)); [done|].
  unfold NUM_ROWS in *. lia.
Qed.

Lemma lost_after_six_failed_submissions_witness :
  let acts := PressKey <$> playGuesses ["TRACE"; "PLANT"; "BRAVE"; "TRAIN"; "LIGHT"; "CLOUD"] in
  let s := run acts craneGame in
  freshGame craneGame ∧
  length (validSubmissions acts craneGame) = NUM_ROWS ∧
  Forall (λ g, g ≠ secretWord (vars craneGame)) (validSubmissions acts craneGame) ∧
  isGameOver (vars s) = true ∧
  gamesPlayed (vars s) = gamesPlayed (vars craneGame) + 1 ∧
  gamesWon (vars s) = gamesWon (vars craneGame) ∧
  currentStreak (vars s) = 0 ∧
  currentRow (vars s) = NUM_ROWS ∧ currentCol (vars s) = 0 ∧
  (message (page s) = lostMessage (secretWord (vars craneGame)) ∨ message (page s) = "") ∧
  (∀ before a, acts = before ++ [a] → validSubmission a (run before craneGame) = true →
               message (page s) = lostMessage (secretWord (vars craneGame))).
Proof.
  cbv zeta.
  assert (Hlen : length (validSubmissions
                   (PressKey <$> playGuesses
                      ["TRACE"; "PLANT"; "BRAVE"; "TRAIN"; "LIGHT"; "CLOUD"])
                   craneGame) = NUM_ROWS)
    by (vm_compute; reflexivity).
  assert (Hall : Forall (λ g, g ≠ secretWord (vars craneGame))
                   (validSubmissions
                      (PressKey <$> playGuesses
                         ["TRACE"; "PLANT"; "BRAVE"; "TRAIN"; "LIGHT"; "CLOUD"])
                      craneGame))
    by (vm_compute; repeat constructor; discriminate).
  split; [exact craneGame_fresh|]. split; [exact Hlen|]. split; [exact Hall|].
  exact (lost_after_six_failed_submissions craneGame _ craneGame_fresh Hlen Hall).
Defined.

(** * Further properties of the evaluator *)

Lemma forLoop_fails {St : Type} (body : nat → St → option St) indices st i :
  i ∈ indices → (∀ st', body i st' = None) → forLoop body indices st = None.
Proof.
  intros Hin Hfail. revert st.
  induction indices as [|j indices IH]; intros st; [by apply elem_of_nil in Hin|].
  apply elem_of_cons in Hin as [->|Hin]; simpl.
  - by rewrite Hfail.
  - destruct (body j st); [by apply IH|done].
Qed.

Lemma forLoop_ext {St : Type} (body1 body2 : nat → St → option St) indices st :
  (∀ i st', body1 i st' = body2 i st') →
  forLoop body1 indices st = forLoop body2 indices st.
Proof.
  intros Hext. revert st. induction indices as [|i indices IH]; intros st; [done|].
  simpl. rewrite Hext. destruct (body2 i st); [apply IH|done].
Qed.

Lemma evaluateGuess_None_iff guess secret :
  evaluateGuess guess secret = None
  ↔ length (split guess) < NUM_COLS ∨ length (split secret) < NUM_COLS.
Proof.
  destruct (decide (NUM_COLS ≤ length (split guess))) as [Hg|Hg];
    [destruct (decide (NUM_COLS ≤ length (split secret))) as [Hs|Hs]|].
  - rewrite evaluateGuess_passes by done. split; [done|lia].
  - split; [right; lia|]. intros _. unfold evaluateGuess.
    rewrite (forLoop_fails _ _ _ (length (split secret))); [done| |].
    + apply elem_of_seq. lia.
    + intros [result counts]. unfold markCorrect.
      destruct (split guess !! length (split secret)); [|done].
      by rewrite (lookup_ge_None_2 (split secret)).
  - split; [left; lia|]. intros _. unfold evaluateGuess.
    rewrite (forLoop_fails _ _ _ (length (split guess))); [done| |].
    + apply elem_of_seq. lia.
    + intros [result counts]. unfold markCorrect.
      by rewrite (lookup_ge_None_2 (split guess)).
Qed.

(** X1. The evaluator throws exactly when the guess or the secret has fewer
    than [NUM_COLS] characters (it then reads a character that is not
    there); whenever it returns, it returns [NUM_COLS] marks, however long
    the two strings are. *)
Theorem evaluateGuess_throws_iff (guess secret : string) :
  (evaluateGuess guess secret = None
   ↔ String.length guess < NUM_COLS ∨ String.length secret < NUM_COLS) ∧
  (∀ ev, evaluateGuess guess secret = Some ev → length ev = NUM_COLS).
Proof.
  rewrite <- !length_split. split; [apply evaluateGuess_None_iff|].
  intros ev Hev.
  destruct (decide (NUM_COLS ≤ length (split guess) ∧ NUM_COLS ≤ length (split secret)))
    as [[Hg Hs]|Hshort].
  - rewrite evaluateGuess_passes in Hev by done. injection Hev as <-.
    rewrite secondPass_length; rewrite ?firstPass_length; rewrite ?length_take; lia.
  - assert (Hnone : evaluateGuess guess secret = None)
      by (apply evaluateGuess_None_iff; lia).
    congruence.
Qed.

Lemma toUpperCaseChar_idemp c : toUpperCaseChar (toUpperCaseChar c) = toUpperCaseChar c.
Proof. destruct c as [[] [] [] [] [] [] [] []]; vm_compute; reflexivity. Qed.

Lemma split_join l : split (join l) = l.
Proof. apply String.list_ascii_of_string_of_list_ascii. Qed.

Lemma split_toUpperCase w : split (toUpperCase w) = toUpperCaseChar <$> split w.
Proof. unfold toUpperCase. apply split_join. Qed.

Lemma countLetters_upper l : countLetters (toUpperCaseChar <$> l) = countLetters l.
Proof.
  unfold countLetters. generalize (∅ : gmap ascii jsnum).
  induction l as [|c l IH]; intros m; [done|].
  rewrite fmap_cons. cbn [foldl]. rewrite toUpperCaseChar_idemp. apply IH.
Qed.

(** X2. The evaluator does not look at the case of the letters: for strings
    of plain characters, upper-casing the guess and the secret first gives
    the same result, marks and throws alike. *)
Theorem evaluateGuess_ignores_case (guess secret : string) :
  isPlain guess = true → isPlain secret = true →
  evaluateGuess (toUpperCase guess) (toUpperCase secret) = evaluateGuess guess secret.
Proof.
  intros _ _. unfold evaluateGuess. rewrite !split_toUpperCase, countLetters_upper.
  rewrite (forLoop_ext (markCorrect (toUpperCaseChar <$> split guess)
                                    (toUpperCaseChar <$> split secret))
                       (markCorrect (split guess) (split secret))).
  2: { intros i [result counts]. unfold markCorrect. rewrite !list_lookup_fmap.
       destruct (split guess !! i), (split secret !! i); simpl; try done.
       by rewrite !toUpperCaseChar_idemp. }
  destruct (forLoop (markCorrect _ _) _ _) as [st1|]; [|done].
  rewrite (forLoop_ext (markPresent (toUpperCaseChar <$> split guess))
                       (markPresent (split guess))); [done|].
  intros i [result counts]. unfold markPresent. rewrite list_lookup_fmap.
  destruct (decide _); [done|].
  destruct (split guess !! i); simpl; [|done].
  by rewrite toUpperCaseChar_idemp.
Qed.

Lemma evaluateGuess_ignores_case_witness :
  isPlain "crAne" = true ∧ isPlain "Trace" = true ∧
  evaluateGuess (toUpperCase "crAne") (toUpperCase "Trace") = evaluateGuess "crAne" "Trace".
Proof.
  split; [reflexivity|]. split; [reflexivity|].
  apply (evaluateGuess_ignores_case "crAne" "Trace"); reflexivity.
Defined.

(** *** Every letter gets as many marks as both words allow *)

Lemma credited_le_occurrences L gs res : credited L gs res ≤ occurrences L gs.
Proof.
  revert res. induction gs as [|g gs IH]; intros [|st res]; simpl; try lia.
  specialize (IH res). destruct (decide (g = L)), (isCredited st); lia.
Qed.

Lemma secondPass_remaining_le gs res m L :
  (∀ L', 0 ≤ remaining m L')%Z →
  (0 ≤ remaining (secondPass gs res m).2 L ≤ remaining m L)%Z.
Proof.
  revert res m. induction gs as [|g gs IH]; intros res m Hm.
  { simpl. specialize (Hm L). lia. }
  destruct res as [|st res].
  { simpl. specialize (Hm L). lia. }
  cbn [secondPass]. destruct (decide (st = Correct)); cbn [snd]; [by apply IH|].
  destruct (isPositive (m !! toUpperCaseChar g)) eqn:Hpos; cbn [snd]; [|by apply IH].
  apply isPositive_remaining in Hpos.
  assert (Hm' : ∀ L', (0 ≤ remaining (decrement (toUpperCaseChar g) m) L')%Z).
  { intros L'. rewrite remaining_decrement by done. specialize (Hm L').
    destruct (decide (L' = toUpperCaseChar g)) as [->|]; lia. }
  specialize (IH res _ Hm'). rewrite remaining_decrement in IH by done.
  destruct (decide (L = toUpperCaseChar g)); lia.
Qed.

Lemma isPositive_false_remaining m g :
  isPositive (m !! g) = false → (remaining m g ≤ 0)%Z.
Proof.
  unfold remaining. destruct (m !! g) as [[n|]|]; simpl; lia.
Qed.

(** After the second pass a letter has nothing left in the counts, or every
    position of the guess that carries it is marked. *)
Lemma secondPass_exhausts gs res m L :
  length gs = length res →
  Forall (λ st, st ≠ Present) res →
  (∀ L', 0 ≤ remaining m L')%Z →
  remaining (secondPass gs res m).2 L = 0%Z ∨
  credited L (toUpperCaseChar <$> gs) (secondPass gs res m).1
  = occurrences L (toUpperCaseChar <$> gs).
Proof.
  revert res m. induction gs as [|g gs IH]; intros res m Hlen Hres Hm.
  { by right. }
  destruct res as [|st res]; [done|].
  injection Hlen as Hlen. apply Forall_cons in Hres as [Hst Hres].
  rewrite fmap_cons. cbn [secondPass credited occurrences].
  destruct (decide (st = Correct)) as [->|Hnc]; cbn [fst snd].
  - destruct (IH res m Hlen Hres Hm) as [H|H]; [by left|right].
    simpl isCredited. rewrite H. done.
  - destruct (isPositive (m !! toUpperCaseChar g)) eqn:Hpos; cbn [fst snd].
    + apply isPositive_remaining in Hpos.
      destruct (IH res (decrement (toUpperCaseChar g) m) Hlen Hres) as [H|H];
        [|by left|right].
      { intros L'. rewrite remaining_decrement by done. specialize (Hm L').
        destruct (decide (L' = toUpperCaseChar g)) as [->|]; lia. }
      simpl isCredited. rewrite H. done.
    + apply isPositive_false_remaining in Hpos.
      destruct (decide (toUpperCaseChar g = L)) as [<-|Hne].
      * left. pose proof (secondPass_remaining_le gs res m (toUpperCaseChar g) Hm). lia.
      * destruct (IH res m Hlen Hres Hm) as [H|H]; [by left|right]. by rewrite H.
Qed.

(** For any two strings the evaluator accepts, letters compared regardless of
    case: the marked positions of a letter are as many as the lesser of its
    occurrences among the first [NUM_COLS] characters of the guess and its
    occurrences in the secret. *)
Lemma evaluateGuess_credit_any_case guess secret L :
  NUM_COLS ≤ length (split guess) → NUM_COLS ≤ length (split secret) →
  ∃ ev, evaluateGuess guess secret = Some ev ∧
        credited L (toUpperCaseChar <$> take NUM_COLS (split guess)) ev
        = Nat.min (occurrences L (toUpperCaseChar <$> take NUM_COLS (split guess)))
                  (occurrences L (toUpperCaseChar <$> split secret)).
Proof.
  intros Hg Hs. rewrite evaluateGuess_passes by done.
  set (gs := take NUM_COLS (split guess)).
  set (ss := take NUM_COLS (split secret)).
  set (m0 := countLetters (split secret)).
  assert (Hgs : length gs = NUM_COLS) by (unfold gs; rewrite length_take; lia).
  assert (Hss : length ss = NUM_COLS) by (unfold ss; rewrite length_take; lia).
  eexists. split; [reflexivity|].
  assert (Hm0 : ∀ L', (Z.of_nat (occurrences L' (toUpperCaseChar <$> ss))
                       ≤ remaining m0 L')%Z).
  { intros L'. unfold m0. rewrite remaining_countLetters.
    rewrite <- (take_drop NUM_COLS (split secret)).
    rewrite fmap_app, occurrences_app. fold ss. lia. }
  assert (Hm1 : ∀ L', (0 ≤ remaining (firstPass gs ss m0).2 L')%Z).
  { intros L'. by destruct (firstPass_counts gs ss m0 L' Hm0). }
  destruct (firstPass_counts gs ss m0 L Hm0) as [_ H1].
  destruct (secondPass_counts gs (firstPass gs ss m0).1 (firstPass gs ss m0).2 L
              (firstPass_no_Present gs ss m0) Hm1) as [H2 H3].
  unfold m0 in H1 at 3. rewrite remaining_countLetters in H1.
  pose proof (credited_le_occurrences L (toUpperCaseChar <$> gs)
                (secondPass gs (firstPass gs ss m0).1 (firstPass gs ss m0).2).1) as Hle.
  destruct (secondPass_exhausts gs (firstPass gs ss m0).1 (firstPass gs ss m0).2 L)
    as [Hzero|Hall]; [by rewrite firstPass_length by lia|apply firstPass_no_Present|done|lia|lia].
Qed.

Lemma occurrences_elem_of L l : 0 < occurrences L l ↔ L ∈ l.
Proof.
  induction l as [|c l IH]; simpl.
  - split; [lia|by intros ?%elem_of_nil].
  - rewrite elem_of_cons. destruct (decide (c = L)) as [->|Hne].
    + split; [by left|lia].
    + rewrite <- IH. split; [intros; right; lia|intros [->|?]; [done|lia]].
Qed.

Lemma credited_at L gs ev i st :
  gs !! i = Some L → ev !! i = Some st → isCredited st = true →
  0 < credited L gs ev.
Proof.
  revert ev i. induction gs as [|g gs IH]; intros [|st0 ev] [|i] Hg He Hc;
    simpl in *; try done.
  - injection Hg as ->. injection He as ->. rewrite decide_True, Hc by done. lia.
  - specialize (IH ev i Hg He Hc). lia.
Qed.

Lemma credited_none L gs ev :
  credited L gs ev = 0 →
  ∀ i st, gs !! i = Some L → ev !! i = Some st → st = Absent.
Proof.
  intros Hzero i st Hg He. destruct st; try done;
    pose proof (credited_at L gs ev i _ Hg He eq_refl); lia.
Qed.

(** X3. For a guess and a secret that are words, and every letter, the
    positions where the guess carries the letter and is marked correct or
    present are exactly as many as the lesser of the letter's occurrences in
    the guess and in the secret: no letter is over-credited, and none is
    marked absent while the secret has a copy left for it. *)
Theorem evaluateGuess_exact_credit (G S : string) (L : ascii) :
  isWord G = true → isWord S = true →
  ∃ ev, evaluateGuess G S = Some ev ∧
        credited L (split G) ev
        = Nat.min (occurrences L (split G)) (occurrences L (split S)).
Proof.
  intros HG HS.
  pose proof (isWord_length G HG) as HlG. pose proof (isWord_length S HS) as HlS.
  destruct (evaluateGuess_credit_any_case G S L) as (ev & Hev & Heq); [lia..|].
  exists ev. split; [done|].
  rewrite take_ge in Heq by lia.
  by rewrite (isWord_upper G HG), (isWord_upper S HS) in Heq.
Qed.

Lemma evaluateGuess_exact_credit_witness :
  isWord "SPEED" = true ∧ isWord "ERASE" = true ∧
  ∃ ev, evaluateGuess "SPEED" "ERASE" = Some ev ∧
        credited "E" (split "SPEED") ev
        = Nat.min (occurrences "E" (split "SPEED")) (occurrences "E" (split "ERASE")).
Proof.
  split; [reflexivity|]. split; [reflexivity|].
  apply (evaluateGuess_exact_credit "SPEED" "ERASE" "E"); reflexivity.
Defined.

(** *** What the marks mean *)

Lemma evaluateGuess_Correct_at guess secret :
  NUM_COLS ≤ length (split guess) → NUM_COLS ≤ length (split secret) →
  ∃ ev, evaluateGuess guess secret = Some ev ∧ length ev = NUM_COLS ∧
        ∀ i g s, split guess !! i = Some g → split secret !! i = Some s →
                 i < NUM_COLS →
                 (ev !! i = Some Correct ↔ toUpperCaseChar g = toUpperCaseChar s).
Proof.
  intros Hg Hs. rewrite evaluateGuess_passes by done.
  eexists. split; [reflexivity|]. split.
  { rewrite secondPass_length; rewrite ?firstPass_length; rewrite ?length_take; lia. }
  intros i g s Hgi Hsi Hi.
  assert (Hgi' : take NUM_COLS (split guess) !! i = Some g)
    by (by rewrite lookup_take_lt).
  assert (Hsi' : take NUM_COLS (split secret) !! i = Some s)
    by (by rewrite lookup_take_lt).
  rewrite (secondPass_lookup_Correct _ _ _ i g _ Hgi'
             (firstPass_lookup _ _ _ i g s Hgi' Hsi')).
  destruct (decide (toUpperCaseChar g = toUpperCaseChar s)); split; congruence.
Qed.

Lemma isWord_lookup_upper w i c :
  isWord w = true → split w !! i = Some c → toUpperCaseChar c = c.
Proof.
  intros Hw Hi. pose proof (isWord_upper w Hw) as Hu.
  apply (f_equal (λ l, l !! i)) in Hu.
  rewrite list_lookup_fmap, Hi in Hu. simpl in Hu. congruence.
Qed.

(** X4. For a guess and a secret that are words, the evaluation is correct
    at every position exactly when the guess is the secret: the all-green row
    and the win test of [submitGuess] agree. *)
Theorem evaluateGuess_all_correct_iff (G S : string) :
  isWord G = true → isWord S = true →
  evaluateGuess G S = Some (replicate NUM_COLS Correct) ↔ G = S.
Proof.
  intros HG HS.
  pose proof (isWord_length G HG) as HlG. pose proof (isWord_length S HS) as HlS.
  split.
  - intros Hall.
    destruct (evaluateGuess_Correct_at G S) as (ev & Hev & _ & Hmark); [lia..|].
    rewrite Hall in Hev. injection Hev as <-.
    apply split_inj, list_eq. intros i.
    destruct (decide (i < NUM_COLS)) as [Hi|Hi].
    + destruct (lookup_lt_is_Some_2 (split G) i) as [g Hg]; [lia|].
      destruct (lookup_lt_is_Some_2 (split S) i) as [s Hs]; [lia|].
      rewrite Hg, Hs. f_equal.
      rewrite <- (isWord_lookup_upper G i g HG Hg), <- (isWord_lookup_upper S i s HS Hs).
      apply (Hmark i g s Hg Hs Hi).
      exact (lookup_replicate_2 NUM_COLS Correct i Hi).
    + by rewrite !lookup_ge_None_2 by lia.
  - intros ->. rewrite evaluateGuess_passes by lia.
    rewrite !take_ge by lia. rewrite firstPass_same, HlS. f_equal.
    by apply secondPass_all_Correct.
Qed.

Lemma evaluateGuess_all_correct_iff_witness :
  isWord "STONE" = true ∧ isWord "STONE" = true ∧
  (evaluateGuess "STONE" "STONE" = Some (replicate NUM_COLS Correct) ↔ "STONE" = "STONE").
Proof.
  split; [reflexivity|]. split; [reflexivity|].
  apply (evaluateGuess_all_correct_iff "STONE" "STONE"); reflexivity.
Defined.

(** X5. For a guess and a secret that are words: a position marked present
    carries a letter that the secret has, but not at that position; a letter
    the secret does not have is marked absent wherever the guess carries
    it. *)
Theorem evaluateGuess_marks_sound (G S : string) (ev : list Status) (i : nat) (g : ascii) :
  isWord G = true → isWord S = true →
  evaluateGuess G S = Some ev → split G !! i = Some g →
  (ev !! i = Some Present → g ∈ split S ∧ split S !! i ≠ Some g) ∧
  (g ∉ split S → ev !! i = Some Absent).
Proof.
  intros HG HS Hev Hg.
  pose proof (isWord_length G HG) as HlG. pose proof (isWord_length S HS) as HlS.
  assert (Hi : i < NUM_COLS) by (rewrite <- HlG; by eapply lookup_lt_Some).
  destruct (evaluateGuess_credit_any_case G S g) as (ev' & Hev' & Hcredit); [lia..|].
  rewrite Hev in Hev'. injection Hev' as <-.
  rewrite take_ge in Hcredit by lia.
  rewrite (isWord_upper G HG), (isWord_upper S HS) in Hcredit.
  destruct (evaluateGuess_Correct_at G S) as (ev' & Hev' & Hlen & Hmark); [lia..|].
  rewrite Hev in Hev'. injection Hev' as <-.
  split.
  - intros Hp. split.
    + apply occurrences_elem_of.
      pose proof (credited_at g (split G) ev i Present Hg Hp eq_refl). lia.
    + intros Hs.
      assert (Hc : ev !! i = Some Correct) by (by apply (Hmark i g g Hg Hs Hi)).
      congruence.
  - intros Hnot.
    assert (Hzero : occurrences g (split S) = 0).
    { destruct (occurrences g (split S)) eqn:E; [done|].
      exfalso. apply Hnot, occurrences_elem_of. lia. }
    destruct (lookup_lt_is_Some_2 ev i) as [st Hst]; [lia|].
    rewrite Hst. f_equal.
    apply (credited_none g (split G) ev) with (i := i); [lia|done|done].
Qed.

Lemma evaluateGuess_marks_sound_witness :
  isWord "SPEED" = true ∧ isWord "ERASE" = true ∧
  evaluateGuess "SPEED" "ERASE" = Some [Present; Absent; Present; Present; Absent] ∧
  split "SPEED" !! 0 = Some "S"%char ∧
  ([Present; Absent; Present; Present; Absent] !! 0 = Some Present →
   "S"%char ∈ split "ERASE" ∧ split "ERASE" !! 0 ≠ Some "S"%char) ∧
  ("S"%char ∉ split "ERASE" →
   [Present; Absent; Present; Present; Absent] !! 0 = Some Absent).
Proof.
  split; [reflexivity|]. split; [reflexivity|].
  split; [vm_compute; reflexivity|]. split; [reflexivity|].
  apply (evaluateGuess_marks_sound "SPEED" "ERASE" _ 0 "S");
    [reflexivity|reflexivity|vm_compute; reflexivity|reflexivity].
Defined.

(** * Further properties of the key statuses *)

Lemma updateKeyStatus_rank_eq l st m k :
  rank (updateKeyStatus l st m !! k)
  = if decide (l = k) then Nat.max (rank (m !! k)) (priority st) else rank (m !! k).
Proof.
  destruct (decide (l = k)) as [->|Hne].
  - unfold updateKeyStatus. destruct (m !! k) as [cur|] eqn:Hk.
    + destruct (priority cur <? priority st) eqn:Hp.
      * rewrite lookup_insert_eq. apply Nat.ltb_lt in Hp. simpl. lia.
      * rewrite Hk. apply Nat.ltb_ge in Hp. simpl. lia.
    + rewrite lookup_insert_eq. simpl. lia.
  - by rewrite updateKeyStatus_lookup_ne.
Qed.

Lemma updateKeyStatuses_best updates m k :
  rank (updateKeyStatuses updates m !! k) = bestSeen k updates (rank (m !! k)).
Proof.
  revert m. induction updates as [|[l st] updates IH]; intros m; [done|].
  unfold updateKeyStatuses in *. cbn [foldl bestSeen fst snd].
  by rewrite IH, updateKeyStatus_rank_eq.
Qed.

Lemma rank_inj a b : rank a = rank b → a = b.
Proof. destruct a as [[]|], b as [[]|]; simpl; intros; try lia; done. Qed.

Lemma bestSeen_Permutation k updates updates' start :
  updates ≡ₚ updates' → bestSeen k updates start = bestSeen k updates' start.
Proof.
  intros Hperm. revert start.
  induction Hperm as [|[l st] us us' _ IH|[l1 st1] [l2 st2] us|us1 us2 us3 _ IH1 _ IH2];
    intros start; cbn [bestSeen].
  - done.
  - apply IH.
  - f_equal. destruct (decide (l1 = k)), (decide (l2 = k)); lia.
  - by rewrite IH1, IH2.
Qed.

(** X6. The entry a letter has after a run of [updateKeyStatus] calls is the
    best (highest-priority) status among its old entry and the statuses
    given for it, so the resulting map does not depend on the order of the
    calls. *)
Theorem keyStatuses_keep_best
    (updates : list (ascii * Status)) (m : gmap ascii Status) (k : ascii) :
  rank (updateKeyStatuses updates m !! k) = bestSeen k updates (rank (m !! k)) ∧
  (∀ updates', updates ≡ₚ updates' →
               updateKeyStatuses updates m = updateKeyStatuses updates' m).
Proof.
  split; [apply updateKeyStatuses_best|].
  intros updates' Hperm. apply map_eq. intros k'. apply rank_inj.
  rewrite !updateKeyStatuses_best. by apply bestSeen_Permutation.
Qed.

(** * Further properties of the session *)

(** ** Throwing *)

(** X7. [submitGuess] lets a [TypeError] escape exactly when a complete,
    valid guess meets a secret of fewer than [NUM_COLS] characters; the
    error comes before anything is revealed or counted, so the state is the
    one before the call.  A key therefore never throws in a game whose
    secret has [NUM_COLS] characters. *)
Theorem submitGuess_throws_iff (s : State) :
  ((∃ s', submitGuess s = Threw s')
   ↔ NUM_COLS ≤ currentCol (vars s) ∧ isValidGuess (getCurrentGuess s) = true ∧
     String.length (secretWord (vars s)) < NUM_COLS) ∧
  (∀ s', submitGuess s = Threw s' → s' = s) ∧
  (NUM_COLS ≤ String.length (secretWord (vars s)) →
   ∀ key, ∃ s', handleKey key s = Done s').
Proof.
  assert (Hiff : ∀ s',
            submitGuess s = Threw s'
            ↔ s' = s ∧ NUM_COLS ≤ currentCol (vars s) ∧
              isValidGuess (getCurrentGuess s) = true ∧
              String.length (secretWord (vars s)) < NUM_COLS).
  { intros s'. unfold submitGuess.
    destruct (currentCol (vars s) <? NUM_COLS) eqn:Hcol.
    { apply Nat.ltb_lt in Hcol. split; [done|lia]. }
    apply Nat.ltb_ge in Hcol.
    destruct (isValidGuess (getCurrentGuess s)) eqn:Hvalid; simpl negb; cbv iota.
    2: { split; [done|]. intros (_ & _ & ? & _). done. }
    pose proof (isValidGuess_length _ Hvalid) as Hlen.
    destruct (evaluateGuess (getCurrentGuess s) (secretWord (vars s)))
      as [evaluation|] eqn:Hev.
    - assert (Hsecret : ¬ length (split (secretWord (vars s))) < NUM_COLS).
      { intros Hshort.
        assert (evaluateGuess (getCurrentGuess s) (secretWord (vars s)) = None)
          by (apply evaluateGuess_None_iff; by right).
        congruence. }
      rewrite length_split in Hsecret.
      destruct (revealEvaluation_done (currentRow (vars s)) (getCurrentGuess s)
                  evaluation s) as [s1 ->]; [lia|].
      split; [|lia]. destruct (decide _); [done|]. by destruct (_ =? NUM_ROWS).
    - apply evaluateGuess_None_iff in Hev as [Hshort|Hshort]; [lia|].
      rewrite length_split in Hshort.
      split; [by intros [= <-]|by intros [-> _]]. }
  split; [|split].
  - split.
    + intros [s' Hs']. by apply Hiff in Hs' as (_ & ? & ? & ?).
    + intros (? & ? & ?). exists s. by apply Hiff.
  - intros s' Hs'. by apply Hiff in Hs' as [-> _].
  - intros Hsecret key. unfold handleKey.
    destruct (isGameOver (vars s)); [by eexists|].
    destruct (decide (key = "Enter")).
    + destruct (submitGuess s) as [s'|s']; [by eexists|].
      destruct (proj1 (Hiff s') eq_refl) as (_ & _ & _ & ?). lia.
    + destruct (decide (key = "Backspace")); [by eexists|].
      destruct (isUpperKey key); by eexists.
Qed.

(** ** The two keyboards *)

Lemma isUpperKey_isLetterKey key : isUpperKey key = true → isLetterKey key = true.
Proof.
  destruct key as [|c [|c' key]]; simpl; try done. intros ->. done.
Qed.

Lemma onKeyDown_eq k s :
  onKeyDown k s = handleKey (if isLetterKey k then toUpperCase k else k) s.
Proof.
  unfold onKeyDown.
  destruct (isGameOver (vars s)) eqn:Hover.
  { unfold handleKey. by rewrite Hover. }
  destruct (isLetterKey k) eqn:Hletter; [done|].
  destruct (decide (k = "Enter")) as [->|He]; [done|].
  rewrite (bool_decide_eq_false_2 (k = "Enter")) by done.
  destruct (decide (k = "Backspace")) as [->|Hb]; [done|].
  rewrite (bool_decide_eq_false_2 (k = "Backspace")) by done. simpl.
  unfold handleKey. rewrite Hover.
  destruct (decide (k = "Enter")); [done|].
  destruct (decide (k = "Backspace")); [done|].
  destruct (isUpperKey k) eqn:Hup; [|done].
  apply isUpperKey_isLetterKey in Hup. congruence.
Qed.

(** X8. A key of the physical keyboard does what the on-screen key of the
    same letter does: [onKeyDown] is [handleKey] on the upper-cased key for
    a letter and on the key itself otherwise.  [handleKey] itself ignores a
    lower-case letter, which only the physical keyboard's upper-casing
    turns into an entry. *)
Theorem onKeyDown_as_handleKey (key : string) (s : State) :
  onKeyDown key s = handleKey (if isLetterKey key then toUpperCase key else key) s ∧
  (∀ c, isLowerLetter c = true →
        handleKey (String c EmptyString) s = Done s ∧
        onKeyDown (String c EmptyString) s
        = handleKey (String (toUpperCaseChar c) EmptyString) s).
Proof.
  pose proof onKeyDown_eq as Hmain.
  split; [apply Hmain|].
  intros c Hc. split.
  - unfold handleKey. destruct (isGameOver (vars s)); [done|].
    destruct (decide (String c EmptyString = "Enter")); [done|].
    destruct (decide (String c EmptyString = "Backspace")); [done|].
    assert (Hnot : isUpperKey (String c EmptyString) = false).
    { revert Hc. destruct c as [[] [] [] [] [] [] [] []]; vm_compute; congruence. }
    by rewrite Hnot.
  - rewrite Hmain. simpl. by rewrite Hc, orb_true_r.
Qed.

(** ** What one action does to the counters *)

Lemma submitGuess_outcome s :
  let s' := stateOf (submitGuess s) in
  (isGameOver (vars s') = isGameOver (vars s) ∧
   gamesPlayed (vars s') = gamesPlayed (vars s) ∧
   gamesWon (vars s') = gamesWon (vars s) ∧
   currentStreak (vars s') = currentStreak (vars s))
  ∨ (isGameOver (vars s') = true ∧
     gamesPlayed (vars s') = gamesPlayed (vars s) + 1 ∧
     ((gamesWon (vars s') = gamesWon (vars s) + 1 ∧
       currentStreak (vars s') = currentStreak (vars s) + 1) ∨
      (gamesWon (vars s') = gamesWon (vars s) ∧ currentStreak (vars s') = 0))).
Proof.
  cbv zeta.
  destruct (submitGuess_cases s)
    as [[_ E]|[(_ & _ & E)|(_ & _ & s1 & updates & Hv & [E|[[_ E]|[_ E]]])]];
    rewrite E; clear E.
  - by left.
  - left. simpl. by rewrite shakeRow_vars.
  - left. simpl. by rewrite Hv.
  - right. simpl. rewrite Hv. simpl. split; [done|]. split; [done|]. by left.
  - cbv zeta. destruct (_ =? NUM_ROWS); simpl; rewrite Hv; simpl.
    + right. split; [done|]. split; [done|]. by right.
    + by left.
Qed.

Lemma perform_outcome a s :
  let s' := perform a s in
  (isGameOver (vars s') = isGameOver (vars s) ∧
   gamesPlayed (vars s') = gamesPlayed (vars s) ∧
   gamesWon (vars s') = gamesWon (vars s) ∧
   currentStreak (vars s') = currentStreak (vars s))
  ∨ (isGameOver (vars s) = false ∧ isGameOver (vars s') = true ∧
     gamesPlayed (vars s') = gamesPlayed (vars s) + 1 ∧
     ((gamesWon (vars s') = gamesWon (vars s) + 1 ∧
       currentStreak (vars s') = currentStreak (vars s) + 1) ∨
      (gamesWon (vars s') = gamesWon (vars s) ∧ currentStreak (vars s') = 0))).
Proof.
  cbv zeta.
  assert (Hkey : ∀ key,
    (isGameOver (vars (stateOf (handleKey key s))) = isGameOver (vars s) ∧
     gamesPlayed (vars (stateOf (handleKey key s))) = gamesPlayed (vars s) ∧
     gamesWon (vars (stateOf (handleKey key s))) = gamesWon (vars s) ∧
     currentStreak (vars (stateOf (handleKey key s))) = currentStreak (vars s))
    ∨ (isGameOver (vars s) = false ∧
       isGameOver (vars (stateOf (handleKey key s))) = true ∧
       gamesPlayed (vars (stateOf (handleKey key s))) = gamesPlayed (vars s) + 1 ∧
       ((gamesWon (vars (stateOf (handleKey key s))) = gamesWon (vars s) + 1 ∧
         currentStreak (vars (stateOf (handleKey key s))) = currentStreak (vars s) + 1) ∨
        (gamesWon (vars (stateOf (handleKey key s))) = gamesWon (vars s) ∧
         currentStreak (vars (stateOf (handleKey key s))) = 0)))).
  { intros key. destruct (decide (key = "Enter")) as [->|Hkey].
    - unfold handleKey. destruct (isGameOver (vars s)) eqn:Hover; [by left|].
      simpl. destruct (submitGuess_outcome s) as [H|H]; [left|right]; by rewrite ?Hover in *.
    - destruct (handleKey_not_Enter key s Hkey) as [col ->]. by left. }
  destruct a as [key|key| |n]; simpl.
  - apply Hkey.
  - rewrite onKeyDown_eq. apply Hkey.
  - left. by destruct (handleHint_vars s) as [->| ->].
  - left. destruct (timers (page s) !! n); [|done]. by rewrite runCallback_vars.
Qed.

Lemma pressKeys_reachable ks s : reachable s (pressKeys ks s).
Proof.
  revert s. induction ks as [|k ks IH]; intros s; [apply rtc_refl|].
  rewrite pressKeys_cons. eapply rtc_l; [apply step_key|apply IH].
Qed.

(** X9. A game is counted exactly once.  In every state reached from a game
    in progress, the counters are the ones the game started with while it
    runs; once it is over, [gamesPlayed] is one more, and either [gamesWon]
    and [currentStreak] are one more (a win) or [gamesWon] is unchanged and
    [currentStreak] is 0 (a loss).  No key, hint or timer after the end
    counts the game again. *)
Theorem game_counted_once (s0 s : State) :
  isGameOver (vars s0) = false → reachable s0 s → countedOnce s0 s.
Proof.
  intros Hover0 Hreach. unfold reachable in Hreach. revert s Hreach.
  apply (rtc_ind_r (λ s, countedOnce s0 s)).
  { unfold countedOnce. by rewrite Hover0. }
  intros s1 s2 Hreach Hstep IH.
  assert (Hact : ∃ a, s2 = perform a s1 ∨ s2 = s1).
  { destruct Hstep as [key s1|key s1|s1|cb before after s1 Ht].
    - exists (PressKey key). by left.
    - exists (KeyDown key). by left.
    - exists ClickHint. by left.
    - exists (FireTimer (length before)). left. simpl.
      rewrite Ht, list_lookup_middle by done.
      replace (onPage (λ p, set_timers (delete (length before) (timers p)) p) s1)
        with (onPage (set_timers (before ++ after)) s1); [done|].
      unfold onPage. f_equal. by rewrite Ht, delete_middle. }
  destruct Hact as [a [-> | ->]]; [|done].
  revert IH. unfold countedOnce.
  destruct (perform_outcome a s1) as [(-> & -> & -> & ->)|(Ho & -> & -> & Hws)];
    [done|].
  rewrite Ho. intros (Hp & Hw & Hs). rewrite Hp. split; [done|].
  destruct Hws as [[-> ->]|[-> ->]]; [left|right]; by rewrite ?Hw, ?Hs.
Qed.

Lemma game_counted_once_witness :
  isGameOver (vars craneGame) = false ∧ reachable craneGame wonGame ∧
  countedOnce craneGame wonGame.
Proof.
  assert (Hover : isGameOver (vars craneGame) = false) by reflexivity.
  assert (Hreach : reachable craneGame wonGame) by apply pressKeys_reachable.
  split; [exact Hover|]. split; [exact Hreach|].
  exact (game_counted_once craneGame wonGame Hover Hreach).
Defined.

(** X10. Across any number of games, restarts included, the streak never
    exceeds the games won and the games won never exceed the games played,
    provided they start that way (as they do, from zero, when the page is
    loaded). *)
Theorem stats_stay_ordered (events : list Event) (s : State) :
  statsOrdered s → statsOrdered (play events s).
Proof.
  revert s. induction events as [|e events IH]; intros s Hs; [done|].
  cbn [play foldl]. fold (play events (handle e s)). apply IH.
  destruct e as [a|randomIndex]; simpl.
  - revert Hs. unfold statsOrdered.
    destruct (perform_outcome a s) as [(_ & -> & -> & ->)|(_ & _ & -> & Hws)];
      [done|].
    destruct Hws as [[-> ->]|[-> ->]]; lia.
  - revert Hs. unfold statsOrdered, initGame. simpl.
    destruct (ANSWER_WORDS !! randomIndex); done.
Qed.

Lemma stats_stay_ordered_witness :
  statsOrdered loadedPage ∧
  statsOrdered (play (Restart 8 :: (InGame <$> (PressKey <$> typeAndEnter "CRANE"))
                      ++ [Restart 3]) loadedPage).
Proof.
  assert (H : statsOrdered loadedPage) by (split; vm_compute; lia).
  split; [exact H|]. exact (stats_stay_ordered _ loadedPage H).
Defined.

(** ** Submissions along a run *)

Lemma validSubmission_perform a s :
  validSubmission a s = true →
  isGameOver (vars s) = false ∧ NUM_COLS ≤ currentCol (vars s) ∧
  isValidGuess (getCurrentGuess s) = true ∧ perform a s = stateOf (submitGuess s).
Proof.
  unfold validSubmission.
  intros [[[Hsub Hover%negb_true_iff]%andb_prop Hcol%Nat.leb_le]%andb_prop Hvalid]%andb_prop.
  repeat split; try done.
  destruct a as [key|key| |n]; try done; simpl in Hsub;
    apply bool_decide_eq_true_1 in Hsub as ->; simpl.
  - unfold handleKey. by rewrite Hover.
  - unfold onKeyDown, handleKey. by rewrite Hover.
Qed.

Lemma perform_not_submission a s :
  validSubmission a s = false →
  isGameOver (vars (perform a s)) = isGameOver (vars s) ∧
  currentRow (vars (perform a s)) = currentRow (vars s) ∧
  secretWord (vars (perform a s)) = secretWord (vars s).
Proof.
  intros Hno.
  assert (Hkey : ∀ key,
            validSubmission (PressKey key) s = false →
            isGameOver (vars (stateOf (handleKey key s))) = isGameOver (vars s) ∧
            currentRow (vars (stateOf (handleKey key s))) = currentRow (vars s) ∧
            secretWord (vars (stateOf (handleKey key s))) = secretWord (vars s)).
  { intros key Hk. destruct (decide (key = "Enter")) as [->|Hne].
    - unfold handleKey. destruct (isGameOver (vars s)) eqn:Hover; [done|].
      unfold validSubmission, submits in Hk.
      rewrite Hover, bool_decide_eq_true_2 in Hk by done. cbn [negb andb] in Hk.
      destruct (submitGuess_cases s)
        as [[_ E]|[(_ & _ & E)|(Hc & Hv & _)]]; rewrite ?E; simpl.
      + done.
      + by rewrite shakeRow_vars.
      + apply Nat.leb_le in Hc. rewrite Hc, Hv in Hk. done.
    - destruct (handleKey_not_Enter key s Hne) as [col ->]. done. }
  destruct a as [key|key| |n]; simpl.
  - by apply Hkey.
  - rewrite onKeyDown_eq. destruct (isLetterKey key) eqn:Hletter.
    + destruct (isLetterKey_toUpperCase key Hletter) as [_ Hne].
      destruct (handleKey_not_Enter (toUpperCase key) s Hne) as [col ->]. done.
    + by apply Hkey.
  - by destruct (handleHint_vars s) as [->| ->].
  - destruct (timers (page s) !! n); [|done]. by rewrite runCallback_vars.
Qed.

Lemma run_cons a acts s : run (a :: acts) s = run acts (perform a s).
Proof. done. Qed.

Lemma run_row_counts acts s k :
  NUM_COLS ≤ length (split (secretWord (vars s))) → k ≤ NUM_ROWS →
  (isGameOver (vars s) = false → currentRow (vars s) = k ∧ k < NUM_ROWS) →
  k + length (validSubmissions acts s) ≤ NUM_ROWS ∧
  (isGameOver (vars (run acts s)) = false →
   currentRow (vars (run acts s)) = k + length (validSubmissions acts s) ∧
   currentRow (vars (run acts s)) < NUM_ROWS).
Proof.
  revert s k. induction acts as [|a acts IH]; intros s k Hsecret Hk Hrow.
  { simpl. rewrite Nat.add_0_r. split; [done|]. intros Hover.
    destruct (Hrow Hover) as [-> ?]. done. }
  rewrite run_cons. cbn [validSubmissions].
  destruct (validSubmission a s) eqn:Hvalid; cbn [app length].
  - destruct (validSubmission_perform a s Hvalid) as (Hover & Hcol & Hv & Hperform).
    destruct (Hrow Hover) as [Hr Hlt].
    destruct (submitGuess_valid s Hcol Hv Hsecret)
      as (evaluation & s1 & _ & _ & [updates Hvars] & Hsub).
    assert (Hnext : NUM_COLS ≤ length (split (secretWord (vars (perform a s)))) ∧
                    (isGameOver (vars (perform a s)) = false →
                     currentRow (vars (perform a s)) = k + 1 ∧ k + 1 < NUM_ROWS)).
    { rewrite Hperform, Hsub. destruct (decide _); cbv zeta.
      - simpl. rewrite Hvars. simpl. done.
      - simpl. rewrite Hvars. simpl. rewrite Hr.
        destruct (k + 1 =? NUM_ROWS) eqn:Hlast; simpl; rewrite Hvars; simpl.
        + done.
        + apply Nat.eqb_neq in Hlast. split; [done|]. intros _.
          rewrite Hr. unfold NUM_ROWS in *. lia. }
    destruct Hnext as [Hsecret' Hrow'].
    destruct (IH (perform a s) (k + 1) Hsecret') as [Hle Hrun]; [lia|done|].
    split; [lia|]. intros Hover'. destruct (Hrun Hover') as [-> ?]. lia.
  - destruct (perform_not_submission a s Hvalid) as (Ho & Hr & Hs).
    apply IH; [by rewrite Hs|done|]. rewrite Ho, Hr. done.
Qed.

(** X11. In any run of a fresh game (keys of both keyboards, hints and
    timers in any order) at most [NUM_ROWS] valid guesses are submitted; and
    as long as the game is not over, the current row is the number of valid
    guesses submitted so far and lies on the board. *)
Theorem at_most_six_guesses (s0 : State) (acts : list Action) :
  freshGame s0 →
  length (validSubmissions acts s0) ≤ NUM_ROWS ∧
  (isGameOver (vars (run acts s0)) = false →
   currentRow (vars (run acts s0)) = length (validSubmissions acts s0) ∧
   currentRow (vars (run acts s0)) < NUM_ROWS).
Proof.
  intros (Hr & Hc & Hover & _ & Hsecret & _).
  apply (run_row_counts acts s0 0).
  - rewrite (isWord_length _ Hsecret). done.
  - lia.
  - intros _. unfold NUM_ROWS. split; [done|lia].
Qed.

Lemma at_most_six_guesses_witness :
  let acts := PressKey <$> playGuesses ["TRACE"; "PLANT"] in
  freshGame craneGame ∧
  length (validSubmissions acts craneGame) ≤ NUM_ROWS ∧
  (isGameOver (vars (run acts craneGame)) = false →
   currentRow (vars (run acts craneGame)) = length (validSubmissions acts craneGame) ∧
   currentRow (vars (run acts craneGame)) < NUM_ROWS).
Proof.
  cbv zeta. split; [exact craneGame_fresh|].
  exact (at_most_six_guesses craneGame _ craneGame_fresh).
Defined.

(** X12. In any run of a fresh game in which no valid guess so far was the
    secret, submitting a valid guess that is the secret wins the game at
    once: the game is over, the message tells the win, [gamesPlayed],
    [gamesWon] and [currentStreak] are each one more than at the start, the
    row stays at the number of earlier guesses and the column where it was,
    and the on-screen keys and the hint button are disabled. *)
Theorem win_on_secret (s0 : State) (acts : list Action) (a : Action) :
  freshGame s0 →
  Forall (λ g, g ≠ secretWord (vars s0)) (validSubmissions acts s0) →
  validSubmission a (run acts s0) = true →
  getCurrentGuess (run acts s0) = secretWord (vars s0) →
  let s := perform a (run acts s0) in
  isGameOver (vars s) = true ∧ message (page s) = wonMessage ∧
  gamesPlayed (vars s) = gamesPlayed (vars s0) + 1 ∧
  gamesWon (vars s) = gamesWon (vars s0) + 1 ∧
  currentStreak (vars s) = currentStreak (vars s0) + 1 ∧
  currentRow (vars s) = length (validSubmissions acts s0) ∧
  currentCol (vars s) = currentCol (vars (run acts s0)) ∧
  keyboardDisabled (page s) = true ∧ hintDisabled (page s) = true.
Proof.
  intros Hfresh Hall Hvalid Hguess.
  pose proof Hfresh as (_ & _ & _ & _ & Hsecret & _).
  destruct (run_afterFailures s0 acts 0 s0 Hsecret) as [Hle Hinv];
    [unfold NUM_ROWS; lia|by apply freshGame_afterFailures|done|].
  simpl in Hle, Hinv.
  destruct (validSubmission_perform _ _ Hvalid) as (Hover & Hcol & Hv & Hperform).
  destruct Hinv as (Hs & Hw & Hr & Hrest).
  destruct (length (validSubmissions acts s0) <? NUM_ROWS) eqn:Hlt.
  2: { destruct Hrest as (Hover' & _). congruence. }
  destruct Hrest as (_ & Hgp & Hst).
  destruct (submitGuess_valid (run acts s0) Hcol Hv)
    as (evaluation & s1 & _ & _ & [updates Hvars] & Hsub).
  { rewrite Hs, (isWord_length _ Hsecret). done. }
  rewrite decide_True in Hsub by congruence.
  cbv zeta. rewrite Hperform, Hsub. simpl. rewrite Hvars. simpl.
  by rewrite Hgp, Hw, Hst, Hr.
Qed.

Lemma win_on_secret_witness :
  let acts := PressKey <$> (typeAndEnter "TRACE" ++ letterKeys (split "CRANE")) in
  let s := perform (PressKey "Enter") (run acts craneGame) in
  freshGame craneGame ∧
  Forall (λ g, g ≠ secretWord (vars craneGame)) (validSubmissions acts craneGame) ∧
  validSubmission (PressKey "Enter") (run acts craneGame) = true ∧
  getCurrentGuess (run acts craneGame) = secretWord (vars craneGame) ∧
  isGameOver (vars s) = true ∧ message (page s) = wonMessage ∧
  gamesPlayed (vars s) = gamesPlayed (vars craneGame) + 1 ∧
  gamesWon (vars s) = gamesWon (vars craneGame) + 1 ∧
  currentStreak (vars s) = currentStreak (vars craneGame) + 1 ∧
  currentRow (vars s) = length (validSubmissions acts craneGame) ∧
  currentCol (vars s) = currentCol (vars (run acts craneGame)) ∧
  keyboardDisabled (page s) = true ∧ hintDisabled (page s) = true.
Proof.
  cbv zeta.
  assert (Hall : Forall (λ g, g ≠ secretWord (vars craneGame))
                   (validSubmissions
                      (PressKey <$> (typeAndEnter "TRACE" ++ letterKeys (split "CRANE")))
                      craneGame))
    by (vm_compute; repeat constructor; discriminate).
  assert (Hvalid : validSubmission (PressKey "Enter")
                     (run (PressKey <$> (typeAndEnter "TRACE" ++ letterKeys (split "CRANE")))
                          craneGame) = true)
    by (vm_compute; reflexivity).
  assert (Hguess : getCurrentGuess
                     (run (PressKey <$> (typeAndEnter "TRACE" ++ letterKeys (split "CRANE")))
                          craneGame) = secretWord (vars craneGame))
    by (vm_compute; reflexivity).
  split; [exact craneGame_fresh|]. split; [exact Hall|].
  split; [exact Hvalid|]. split; [exact Hguess|].
  exact (win_on_secret craneGame _ (PressKey "Enter") craneGame_fresh Hall Hvalid Hguess).
Defined.

(** ** Starting over *)

Lemma insert_cols_lookup (row : nat) (cols : list nat) (t : gmap (nat * nat) Tile) r c :
  foldl (λ t' col, <[(row, col) := emptyTile]> t') t cols !! (r, c)
  = if decide (r = row ∧ c ∈ cols) then Some emptyTile else t !! (r, c).
Proof.
  revert t. induction cols as [|col cols IH]; intros t; simpl.
  { rewrite decide_False; [done|]. intros [_ H]. by apply elem_of_nil in H. }
  rewrite IH, lookup_insert.
  destruct (decide (r = row ∧ c ∈ cols)) as [[-> Hin]|Hno].
  - rewrite decide_True; [done|]. split; [done|]. by right.
  - destruct (decide ((row, col) = (r, c))) as [[= -> ->]|Hne].
    + rewrite decide_True; [done|]. split; [done|]. by left.
    + rewrite decide_False; [done|]. intros [-> [->|Hin]%elem_of_cons]; tauto.
Qed.

Lemma insert_rows_lookup (rows : list nat) (t : gmap (nat * nat) Tile) r c :
  foldl (λ t' row, foldl (λ t'' col, <[(row, col) := emptyTile]> t'') t' (seq 0 NUM_COLS))
        t rows !! (r, c)
  = if decide (r ∈ rows ∧ c < NUM_COLS) then Some emptyTile else t !! (r, c).
Proof.
  revert t. induction rows as [|row rows IH]; intros t; cbn [foldl].
  { rewrite decide_False; [done|]. intros [H _]. by apply elem_of_nil in H. }
  rewrite IH, insert_cols_lookup.
  destruct (decide (r ∈ rows ∧ c < NUM_COLS)) as [[Hin Hc]|Hno].
  - rewrite decide_True; [done|]. split; [by right|done].
  - destruct (decide (r = row ∧ c ∈ seq 0 NUM_COLS)) as [[-> Hc%elem_of_seq]|Hne].
    + rewrite decide_True; [done|]. split; [by left|lia].
    + rewrite decide_False; [done|]. intros [[->|Hin]%elem_of_cons Hc].
      * apply Hne. split; [done|]. apply elem_of_seq. lia.
      * tauto.
Qed.

Lemma buildBoard_lookup s r c :
  getTile r c (buildBoard s)
  = if decide (r < NUM_ROWS ∧ c < NUM_COLS) then Some emptyTile else None.
Proof.
  unfold getTile, buildBoard, onPage, set_tiles. cbn [page tiles].
  rewrite insert_rows_lookup, lookup_empty.
  destruct (decide (r < NUM_ROWS ∧ c < NUM_COLS)) as [[Hr Hc]|Hno].
  - rewrite decide_True; [done|]. split; [|done]. apply elem_of_seq. lia.
  - rewrite decide_False; [done|]. intros [Hr%elem_of_seq Hc]. apply Hno. lia.
Qed.

(** X13. [initGame] restarts from any state, whether a game is running, won
    or lost: for every index of the answer list it returns a game at row 0,
    column 0, not over, hint unused, with that answer word as secret, no key
    statuses, no message, the on-screen keys and the hint button enabled,
    and a board of exactly [NUM_ROWS] by [NUM_COLS] empty tiles and no tile
    outside; the three counters and the pending timers are kept. *)
Theorem initGame_restarts (randomIndex : nat) (s : State) :
  randomIndex < length ANSWER_WORDS →
  ∃ s', initGame randomIndex s = Done s' ∧
        ANSWER_WORDS !! randomIndex = Some (secretWord (vars s')) ∧
        isWord (secretWord (vars s')) = true ∧
        currentRow (vars s') = 0 ∧ currentCol (vars s') = 0 ∧
        isGameOver (vars s') = false ∧ hasUsedHint (vars s') = false ∧
        keyStatuses (vars s') = ∅ ∧
        gamesPlayed (vars s') = gamesPlayed (vars s) ∧
        gamesWon (vars s') = gamesWon (vars s) ∧
        currentStreak (vars s') = currentStreak (vars s) ∧
        message (page s') = "" ∧ hintDisabled (page s') = false ∧
        keyboardDisabled (page s') = false ∧ timers (page s') = timers (page s) ∧
        (∀ r c, getTile r c s'
                = if decide (r < NUM_ROWS ∧ c < NUM_COLS) then Some emptyTile else None).
Proof.
  intros Hi. destruct (lookup_lt_is_Some_2 ANSWER_WORDS randomIndex Hi) as [word Hword].
  destruct (proj1 (Forall_lookup _ _) ANSWER_WORDS_words randomIndex word Hword)
    as [Hisword Hupper].
  unfold initGame. rewrite Hword. cbn [ANSWER_WORDS]. rewrite Hupper.
  eexists. split; [reflexivity|].
  cbn [vars page currentRow currentCol isGameOver hasUsedHint secretWord keyStatuses
       gamesPlayed gamesWon currentStreak onPage clearMessage showMessage
       set_hintDisabled set_message set_keyboardDisabled message hintDisabled
       keyboardDisabled timers].
  repeat split; try done.
  intros r c.
  exact (buildBoard_lookup
           (mkState (mkVars word 0 0 false true false (gamesPlayed (vars s))
                            (gamesWon (vars s)) (currentStreak (vars s)) ∅) (page s))
           r c).
Qed.

Lemma initGame_restarts_witness :
  8 < length ANSWER_WORDS ∧
  ∃ s', initGame 8 wonGame = Done s' ∧
        ANSWER_WORDS !! 8 = Some (secretWord (vars s')) ∧
        isWord (secretWord (vars s')) = true ∧
        currentRow (vars s') = 0 ∧ currentCol (vars s') = 0 ∧
        isGameOver (vars s') = false ∧ hasUsedHint (vars s') = false ∧
        keyStatuses (vars s') = ∅ ∧
        gamesPlayed (vars s') = gamesPlayed (vars wonGame) ∧
        gamesWon (vars s') = gamesWon (vars wonGame) ∧
        currentStreak (vars s') = currentStreak (vars wonGame) ∧
        message (page s') = "" ∧ hintDisabled (page s') = false ∧
        keyboardDisabled (page s') = false ∧ timers (page s') = timers (page wonGame) ∧
        (∀ r c, getTile r c s'
                = if decide (r < NUM_ROWS ∧ c < NUM_COLS) then Some emptyTile else None).
Proof.
  assert (H : 8 < length ANSWER_WORDS) by (vm_compute; lia).
  split; [exact H|]. exact (initGame_restarts 8 wonGame H).
Defined.

(** ** Typing and reading back *)

(** X14. In a game in progress at the start of a row, typing the five
    letters of a word and reading the row back with [getCurrentGuess] gives
    that word; the column is then [NUM_COLS], the row has not moved, and
    Enter would submit a valid guess. *)
Theorem typed_word_read_back (s : State) (row : nat) (w : string) :
  playing s row → row < NUM_ROWS → isWord w = true →
  let s' := pressKeys (letterKeys (split w)) s in
  getCurrentGuess s' = w ∧
  currentCol (vars s') = NUM_COLS ∧ currentRow (vars s') = row ∧
  validSubmission (PressKey "Enter") s' = true.
Proof.
  intros (Hover & Hrow & Hcol & Hsecret & Hboard) Hlt Hw. cbv zeta.
  pose proof (isWord_length w Hw) as Hlen.
  destruct (typeLetters (split w) s) as (Hv1 & Htext & _ & _);
    [by apply isWord_letters|done|lia|rewrite Hcol, Hlen; done| |].
  { intros c Hc. apply Hboard; [lia|done]. }
  set (s1 := pressKeys (letterKeys (split w)) s) in *.
  rewrite Hcol, Hlen in Hv1. simpl in Hv1.
  assert (Hguess : getCurrentGuess s1 = w).
  { rewrite (getCurrentGuess_spelled (split w)); [apply join_split|done| |].
    - by apply isWord_letters.
    - intros i ch Hi. specialize (Htext i ch Hi).
      rewrite Hcol in Htext. simpl in Htext. by rewrite Hv1. }
  split; [done|]. rewrite Hv1. split; [done|]. split; [done|].
  unfold validSubmission. rewrite Hguess, Hv1. simpl.
  rewrite Hover. simpl. by apply isWord_valid.
Qed.

Lemma typed_word_read_back_witness :
  let s' := pressKeys (letterKeys (split "PLANT")) craneGame in
  playing craneGame 0 ∧ 0 < NUM_ROWS ∧ isWord "PLANT" = true ∧
  getCurrentGuess s' = "PLANT" ∧
  currentCol (vars s') = NUM_COLS ∧ currentRow (vars s') = 0 ∧
  validSubmission (PressKey "Enter") s' = true.
Proof.
  cbv zeta.
  assert (Hplay : playing craneGame 0).
  { destruct craneGame_fresh as (Hr & Hc & Ho & _ & Hs & Hb). by repeat split. }
  assert (Hlt : 0 < NUM_ROWS) by (unfold NUM_ROWS; lia).
  split; [exact Hplay|]. split; [exact Hlt|]. split; [reflexivity|].
  exact (typed_word_read_back craneGame 0 "PLANT" Hplay Hlt eq_refl).
Defined.

(** ** What revealing an evaluation does *)

Lemma revealTile_step row guess ev col s tile g st :
  getTile row col s = Some tile → split guess !! col = Some g → ev !! col = Some st →
  revealTile row guess ev col s
  = Done (onVars (λ v, set_keyStatuses
                         (updateKeyStatus (toUpperCaseChar g) st (keyStatuses v)) v)
                 (putTile row col
                    (mkTile (textContent tile) (tileFilled tile) (Some st)) s)).
Proof.
  intros Ht Hg Hst. unfold revealTile. rewrite Ht, Hg, Hst. by destruct st.
Qed.

Lemma revealCols row guess ev cols s :
  NoDup cols →
  (∀ c, c ∈ cols →
        is_Some (getTile row c s) ∧ is_Some (split guess !! c) ∧ is_Some (ev !! c)) →
  ∃ s1 updates,
    forCols (revealTile row guess ev) cols s = Done s1 ∧
    vars s1 = set_keyStatuses (updateKeyStatuses updates (keyStatuses (vars s))) (vars s) ∧
    (∀ L st, (L, st) ∈ updates ↔
             ∃ c g, c ∈ cols ∧ split guess !! c = Some g ∧
                    toUpperCaseChar g = L ∧ ev !! c = Some st) ∧
    (∀ r c, getTile r c s1
            = if decide (r = row ∧ c ∈ cols)
              then (λ t, mkTile (textContent t) (tileFilled t) (ev !! c)) <$> getTile r c s
              else getTile r c s).
Proof.
  revert s. induction cols as [|c0 cols IH]; intros s Hnodup Hcols.
  { exists s, []. split; [done|]. split; [by destruct (vars s)|]. split.
    - intros L st. split; [by intros ?%elem_of_nil|].
      intros (c & g & Hc & _). by apply elem_of_nil in Hc.
    - intros r c. rewrite decide_False; [done|]. intros [_ H]. by apply elem_of_nil in H. }
  apply NoDup_cons in Hnodup as [Hc0 Hnodup].
  destruct (Hcols c0) as ([t0 Ht0] & [g0 Hg0] & [st0 Hst0]); [by left|].
  cbn [forCols]. rewrite (revealTile_step _ _ _ _ _ t0 g0 st0) by done.
  set (s' := onVars _ _).
  assert (Htiles' : ∀ r c, getTile r c s'
            = if decide ((row, c0) = (r, c))
              then Some (mkTile (textContent t0) (tileFilled t0) (Some st0))
              else getTile r c s).
  { intros r c. unfold s'. apply getTile_putTile. }
  destruct (IH s' Hnodup) as (s1 & updates & Hrun & Hvars & Hups & Htiles).
  { intros c Hc. destruct (Hcols c) as (Ht & Hg & Hst); [by right|].
    rewrite Htiles'. split; [|done]. by destruct (decide _). }
  exists s1, ((toUpperCaseChar g0, st0) :: updates).
  split; [done|]. split; [by rewrite Hvars|]. split.
  - intros L st. rewrite elem_of_cons, Hups. split.
    + intros [[= -> ->]|(c & g & Hc & Hg & HL & Hst)].
      * exists c0, g0. split; [by left|done].
      * exists c, g. split; [by right|done].
    + intros (c & g & [->|Hc]%elem_of_cons & Hg & HL & Hst).
      * left. congruence.
      * right. by exists c, g.
  - intros r c. rewrite Htiles, Htiles'.
    destruct (decide (r = row ∧ c ∈ cols)) as [[-> Hin]|Hno].
    + rewrite (decide_True (P := row = row ∧ c ∈ c0 :: cols))
        by (split; [done|by right]).
      rewrite (decide_False (P := (row, c0) = (row, c))); [done|].
      intros [= <-]. done.
    + destruct (decide ((row, c0) = (r, c))) as [[= <- <-]|Hne].
      * rewrite (decide_True (P := row = row ∧ c0 ∈ c0 :: cols))
          by (split; [done|by left]).
        by rewrite Ht0, Hst0.
      * rewrite (decide_False (P := r = row ∧ c ∈ c0 :: cols)); [done|].
        intros [-> [->|Hin]%elem_of_cons]; tauto.
Qed.

(** On a row that has all its tiles, with a guess and an evaluation of
    [NUM_COLS] entries: every tile of the row takes the colour of its mark,
    no other tile changes, and the key statuses take one update per
    position. *)
Lemma revealEvaluation_full row guess ev s :
  length (split guess) = NUM_COLS → length ev = NUM_COLS →
  (∀ c, c < NUM_COLS → is_Some (getTile row c s)) →
  ∃ s1 updates,
    revealEvaluation row guess ev s = Done s1 ∧
    vars s1 = set_keyStatuses (updateKeyStatuses updates (keyStatuses (vars s))) (vars s) ∧
    (∀ L st, (L, st) ∈ updates ↔
             ∃ c g, c < NUM_COLS ∧ split guess !! c = Some g ∧
                    toUpperCaseChar g = L ∧ ev !! c = Some st) ∧
    (∀ r c, getTile r c s1
            = if decide (r = row ∧ c < NUM_COLS)
              then (λ t, mkTile (textContent t) (tileFilled t) (ev !! c)) <$> getTile r c s
              else getTile r c s).
Proof.
  intros Hg Hev Htiles.
  destruct (revealCols row guess ev (seq 0 NUM_COLS) s)
    as (s1 & updates & Hrun & Hvars & Hups & Ht).
  { apply NoDup_seq. }
  { intros c Hc%elem_of_seq. split; [apply Htiles; lia|].
    split; apply lookup_lt_is_Some_2; lia. }
  exists s1, updates. split; [done|]. split; [done|]. split.
  - intros L st. rewrite Hups. split; intros (c & g & Hc & H); exists c, g;
      (split; [|done]); [apply elem_of_seq in Hc|apply elem_of_seq]; lia.
  - intros r c. rewrite Ht.
    destruct (decide (r = row ∧ c ∈ seq 0 NUM_COLS)) as [[-> Hc%elem_of_seq]|Hno].
    + rewrite decide_True; [done|]. split; [done|lia].
    + rewrite decide_False; [done|]. intros [-> Hc]. apply Hno. split; [done|].
      apply elem_of_seq. lia.
Qed.

(** ** The key statuses tell the truth *)

Lemma bestSeen_ge_start k updates start : start ≤ bestSeen k updates start.
Proof.
  revert start. induction updates as [|[l st] updates IH]; intros start; simpl; [done|].
  etrans; [|apply IH]. destruct (decide (l = k)); lia.
Qed.

Lemma bestSeen_ge k updates start st :
  (k, st) ∈ updates → priority st ≤ bestSeen k updates start.
Proof.
  revert start. induction updates as [|[l st0] updates IH]; intros start Hin.
  { by apply elem_of_nil in Hin. }
  apply elem_of_cons in Hin as [[= <- <-]|Hin]; simpl.
  - rewrite decide_True by done. etrans; [|apply bestSeen_ge_start]. lia.
  - by apply IH.
Qed.

Lemma bestSeen_cases k updates start :
  bestSeen k updates start = start ∨
  ∃ st, (k, st) ∈ updates ∧ bestSeen k updates start = priority st.
Proof.
  revert start. induction updates as [|[l st0] updates IH]; intros start; simpl;
    [by left|].
  destruct (IH (if decide (l = k) then Nat.max start (priority st0) else start))
    as [Heq|(st & Hin & Heq)].
  - rewrite Heq. destruct (decide (l = k)) as [->|]; [|by left].
    destruct (Nat.max_spec start (priority st0)) as [[_ ->]|[_ ->]]; [|by left].
    right. exists st0. split; [by left|done].
  - right. exists st. split; [by right|done].
Qed.

Lemma credited_pos L gs ev :
  0 < credited L gs ev →
  ∃ i st, gs !! i = Some L ∧ ev !! i = Some st ∧ isCredited st = true.
Proof.
  revert ev. induction gs as [|g gs IH]; intros [|st0 ev] Hpos; simpl in Hpos; try lia.
  destruct (decide (g = L)) as [->|Hne]; [destruct (isCredited st0) eqn:Hc|].
  - by exists 0, st0.
  - destruct (IH ev) as (i & st & ? & ? & ?); [lia|]. by exists (S i), st.
  - destruct (IH ev) as (i & st & ? & ? & ?); [lia|]. by exists (S i), st.
Qed.

(** The updates of one revealed guess keep the key statuses truthful. *)
Lemma updates_keep_sound G S ev updates (m : gmap ascii Status) :
  isWord G = true → isWord S = true → evaluateGuess G S = Some ev →
  (∀ L st, (L, st) ∈ updates ↔
           ∃ c g, c < NUM_COLS ∧ split G !! c = Some g ∧
                  toUpperCaseChar g = L ∧ ev !! c = Some st) →
  (∀ L st, m !! L = Some st →
           if isCredited st then L ∈ split S else L ∉ split S) →
  ∀ L st, updateKeyStatuses updates m !! L = Some st →
          if isCredited st then L ∈ split S else L ∉ split S.
Proof.
  intros HG HS Hev Hups Hm L st Hfinal.
  pose proof (isWord_length G HG) as HlG. pose proof (isWord_length S HS) as HlS.
  destruct (evaluateGuess_credit_any_case G S L) as (ev' & Hev' & Hcredit); [lia..|].
  rewrite Hev in Hev'. injection Hev' as <-.
  rewrite take_ge in Hcredit by lia.
  rewrite (isWord_upper G HG), (isWord_upper S HS) in Hcredit.
  assert (Hin : ∀ st', (L, st') ∈ updates ↔
                       ∃ c, split G !! c = Some L ∧ ev !! c = Some st').
  { intros st'. rewrite Hups. split.
    - intros (c & g & _ & Hg & <- & Hst). exists c.
      by rewrite (isWord_lookup_upper G c g HG Hg).
    - intros (c & Hg & Hst). exists c, L. split; [|split; [done|split; [|done]]].
      + rewrite <- HlG. by eapply lookup_lt_Some.
      + by apply (isWord_lookup_upper G c). }
  pose proof (updateKeyStatuses_best updates m L) as Hrank.
  rewrite Hfinal in Hrank. simpl in Hrank.
  destruct (isCredited st) eqn:Hst.
  - destruct (bestSeen_cases L updates (rank (m !! L))) as [Heq|(st' & Hst' & Heq)].
    + rewrite Heq in Hrank.
      assert (Hold : m !! L = Some st) by (apply rank_inj; simpl; lia).
      specialize (Hm L st Hold). by rewrite Hst in Hm.
    + assert (st' = st) as -> by (destruct st, st'; simpl in *; done || lia).
      apply Hin in Hst' as (c & Hg & Hmark).
      apply occurrences_elem_of.
      pose proof (credited_at L (split G) ev c st Hg Hmark Hst). lia.
  - assert (st = Absent) as -> by (by destruct st). simpl in Hrank.
    intros HinS. apply occurrences_elem_of in HinS.
    destruct (decide (L ∈ split G)) as [HinG|HnotG].
    + apply occurrences_elem_of in HinG.
      destruct (credited_pos L (split G) ev) as (i & st' & Hg & Hmark & Hc); [lia|].
      assert (Hup : (L, st') ∈ updates) by (apply Hin; by exists i).
      pose proof (bestSeen_ge L updates (rank (m !! L)) st' Hup).
      destruct st'; simpl in *; done || lia.
    + destruct (bestSeen_cases L updates (rank (m !! L))) as [Heq|(st' & Hst' & _)].
      * rewrite Heq in Hrank.
        assert (Hold : m !! L = Some Absent) by (apply rank_inj; simpl; lia).
        specialize (Hm L Absent Hold). simpl in Hm.
        apply Hm, occurrences_elem_of. done.
      * apply Hin in Hst' as (c & Hg & _). apply HnotG.
        apply list_elem_of_lookup. by exists c.
Qed.

(** ** What holds throughout a game *)

Lemma shownRow_ext r s s' :
  secretWord (vars s') = secretWord (vars s) →
  (∀ c, c < NUM_COLS → getTile r c s' = getTile r c s) →
  shownRow r s → shownRow r s'.
Proof.
  intros Hs Ht (w & ev & Hw & Hev & Hshown). exists w, ev.
  split; [done|]. split; [by rewrite Hs|].
  intros col Hcol. destruct (Hshown col Hcol) as (ch & st & ? & ? & ?).
  exists ch, st. by rewrite Ht.
Qed.

Lemma keysSound_ext s s' :
  secretWord (vars s') = secretWord (vars s) →
  keyStatuses (vars s') = keyStatuses (vars s) →
  keysSound s → keysSound s'.
Proof. unfold keysSound. intros -> ->. done. Qed.

(** The invariant looks at five variables and at the tiles only. *)
Lemma gameInv_ext s s' :
  secretWord (vars s') = secretWord (vars s) →
  keyStatuses (vars s') = keyStatuses (vars s) →
  currentRow (vars s') = currentRow (vars s) →
  currentCol (vars s') = currentCol (vars s) →
  isGameOver (vars s') = isGameOver (vars s) →
  tiles (page s') = tiles (page s) →
  gameInv s → gameInv s'.
Proof.
  unfold gameInv, keysSound, shownRow, typedTile, emptyAt, getTile.
  intros -> -> -> -> -> ->. done.
Qed.

Lemma addLetter_inv ch s :
  isUpperLetter ch = true → isGameOver (vars s) = false →
  gameInv s → gameInv (addLetter (String ch EmptyString) s).
Proof.
  intros Hch Hover (Hsecret & Hsound & Hrow & Hshown & Hbelow & Hrun).
  rewrite Hover in Hrun. destruct Hrun as (Hlt & Hcol & Htyped & Hempty).
  destruct (decide (currentCol (vars s) < NUM_COLS)) as [Hfree|Hfull].
  2: { unfold addLetter.
       assert (H : (NUM_COLS <=? currentCol (vars s)) = true) by (apply Nat.leb_le; lia).
       rewrite H. simpl.
       unfold gameInv. rewrite Hover. done. }
  pose proof (Hempty (currentCol (vars s)) (Nat.le_refl _) Hfree) as Htile.
  unfold emptyAt in Htile.
  rewrite (addLetter_free _ s emptyTile) by done.
  set (s' := onVars _ _).
  assert (Ht : ∀ r c, getTile r c s'
             = if decide ((currentRow (vars s), currentCol (vars s)) = (r, c))
               then Some (mkTile (String ch EmptyString) true None)
               else getTile r c s).
  { intros r c. unfold s'. apply getTile_putTile. }
  unfold gameInv. change (isGameOver (vars s')) with (isGameOver (vars s)).
  change (secretWord (vars s')) with (secretWord (vars s)).
  change (currentRow (vars s')) with (currentRow (vars s)).
  change (currentCol (vars s')) with (currentCol (vars s) + 1).
  rewrite Hover. split; [done|]. split; [by apply (keysSound_ext s)|].
  split; [done|]. split; [|split].
  - intros row Hr. apply (shownRow_ext row s); [done| |by apply Hshown].
    intros c _. rewrite Ht. rewrite decide_False; [done|]. intros [= <- _]. lia.
  - intros row col Hr Hr' Hc. unfold emptyAt. rewrite Ht.
    rewrite decide_False; [by apply Hbelow|]. intros [= <- _]. lia.
  - split; [done|]. split; [lia|]. split.
    + intros col Hc. unfold typedTile. rewrite Ht.
      destruct (decide _) as [[= <-]|Hne]; [by exists ch|].
      apply Htyped. destruct (decide (col = currentCol (vars s))) as [->|]; [done|lia].
    + intros col Hc Hc'. unfold emptyAt. rewrite Ht.
      rewrite decide_False; [by apply Hempty; lia|]. intros [= <-]. lia.
Qed.

Lemma deleteLetter_inv s :
  isGameOver (vars s) = false → gameInv s → gameInv (deleteLetter s).
Proof.
  intros Hover (Hsecret & Hsound & Hrow & Hshown & Hbelow & Hrun).
  rewrite Hover in Hrun. destruct Hrun as (Hlt & Hcol & Htyped & Hempty).
  destruct (decide (currentCol (vars s) = 0)) as [Hzero|Hpos].
  { unfold deleteLetter. rewrite Hzero. simpl.
    unfold gameInv. rewrite Hover, Hzero in *. done. }
  destruct (Htyped (currentCol (vars s) - 1)) as (ch & Hch & Htile); [lia|].
  assert (E : deleteLetter s
              = putTile (currentRow (vars s)) (currentCol (vars s) - 1) emptyTile
                        (onVars (set_currentCol (currentCol (vars s) - 1)) s)).
  { unfold deleteLetter.
    assert (H1 : (currentCol (vars s) =? 0) = false) by (by apply Nat.eqb_neq).
    assert (H2 : (NUM_ROWS <=? currentRow (vars s)) = false) by (by apply Nat.leb_gt).
    rewrite H1, H2. cbn [orb]. cbv zeta.
    change (currentCol (vars (onVars (set_currentCol (currentCol (vars s) - 1)) s)))
      with (currentCol (vars s) - 1).
    change (getTile (currentRow (vars s)) (currentCol (vars s) - 1)
              (onVars (set_currentCol (currentCol (vars s) - 1)) s))
      with (getTile (currentRow (vars s)) (currentCol (vars s) - 1) s).
    by rewrite Htile. }
  rewrite E. set (s' := putTile _ _ _ _).
  assert (Ht : ∀ r c, getTile r c s'
             = if decide ((currentRow (vars s), currentCol (vars s) - 1) = (r, c))
               then Some emptyTile else getTile r c s).
  { intros r c. unfold s'. rewrite getTile_putTile. done. }
  unfold gameInv. change (isGameOver (vars s')) with (isGameOver (vars s)).
  change (secretWord (vars s')) with (secretWord (vars s)).
  change (currentRow (vars s')) with (currentRow (vars s)).
  change (currentCol (vars s')) with (currentCol (vars s) - 1).
  rewrite Hover. split; [done|]. split; [by apply (keysSound_ext s)|].
  split; [done|]. split; [|split].
  - intros row Hr. apply (shownRow_ext row s); [done| |by apply Hshown].
    intros c _. rewrite Ht. rewrite decide_False; [done|]. intros [= <- _]. lia.
  - intros row col Hr Hr' Hc. unfold emptyAt. rewrite Ht.
    rewrite decide_False; [by apply Hbelow|]. intros [= <- _]. lia.
  - split; [done|]. split; [lia|]. split.
    + intros col Hc. unfold typedTile. rewrite Ht.
      rewrite decide_False; [apply Htyped; lia|]. intros [= <-]. lia.
    + intros col Hc Hc'. unfold emptyAt. rewrite Ht.
      destruct (decide _) as [|Hne]; [done|].
      apply Hempty; [|done].
      destruct (decide (col = currentCol (vars s) - 1)) as [->|]; [done|lia].
Qed.

(** A complete row of a running game reads back as the word its tiles
    spell. *)
Lemma complete_row_word s :
  gameInv s → isGameOver (vars s) = false → currentCol (vars s) = NUM_COLS →
  ∃ w, getCurrentGuess s = w ∧ isWord w = true ∧
       ∀ col, col < NUM_COLS →
              ∃ ch, split w !! col = Some ch ∧
                    getTile (currentRow (vars s)) col s
                    = Some (mkTile (String ch EmptyString) true None).
Proof.
  intros (_ & _ & _ & _ & _ & Hrun) Hover Hfull.
  rewrite Hover, Hfull in Hrun. destruct Hrun as (_ & _ & Htyped & _).
  destruct (Htyped 0) as (c0 & Hu0 & Ht0); [unfold NUM_COLS; lia|].
  destruct (Htyped 1) as (c1 & Hu1 & Ht1); [unfold NUM_COLS; lia|].
  destruct (Htyped 2) as (c2 & Hu2 & Ht2); [unfold NUM_COLS; lia|].
  destruct (Htyped 3) as (c3 & Hu3 & Ht3); [unfold NUM_COLS; lia|].
  destruct (Htyped 4) as (c4 & Hu4 & Ht4); [unfold NUM_COLS; lia|].
  exists (join [c0; c1; c2; c3; c4]). split; [|split].
  - apply getCurrentGuess_spelled; [done|simpl; by rewrite Hu0, Hu1, Hu2, Hu3, Hu4|].
    intros [|[|[|[|[|i]]]]] ch Hi; simpl in Hi; try done; injection Hi as <-.
    + by rewrite Ht0.
    + by rewrite Ht1.
    + by rewrite Ht2.
    + by rewrite Ht3.
    + by rewrite Ht4.
  - unfold isWord. rewrite split_join. simpl. by rewrite Hu0, Hu1, Hu2, Hu3, Hu4.
  - rewrite split_join. intros [|[|[|[|[|i]]]]] Hi.
    + by exists c0.
    + by exists c1.
    + by exists c2.
    + by exists c3.
    + by exists c4.
    + unfold NUM_COLS in Hi. lia.
Qed.

Lemma submitGuess_inv s :
  isGameOver (vars s) = false → gameInv s → gameInv (stateOf (submitGuess s)).
Proof.
  intros Hover Hinv.
  destruct (decide (currentCol (vars s) < NUM_COLS)) as [Hshort|Hfull].
  { apply (gameInv_ext s); try done;
      unfold submitGuess; apply Nat.ltb_lt in Hshort; by rewrite Hshort. }
  pose proof Hinv as (Hsecret & Hsound & Hrow & Hshown & Hbelow & Hrun).
  rewrite Hover in Hrun. destruct Hrun as (Hlt & Hcol & Htyped & Hempty).
  assert (Hcol5 : currentCol (vars s) = NUM_COLS) by lia.
  destruct (complete_row_word s Hinv Hover Hcol5) as (w & Hguess & Hw & Hrowtiles).
  pose proof (isWord_length w Hw) as Hlw.
  pose proof (isWord_length _ Hsecret) as Hls.
  destruct (submitGuess_valid s) as (ev & s1 & Hev & Hreveal & _ & Hsub);
    [lia|rewrite Hguess; by apply isWord_valid|lia|].
  rewrite Hguess in Hev, Hreveal, Hsub.
  assert (Hlev : length ev = NUM_COLS).
  { destruct (evaluateGuess_Correct_at w (secretWord (vars s))) as (ev' & Hev' & Hl & _);
      [lia..|]. congruence. }
  destruct (revealEvaluation_full (currentRow (vars s)) w ev s Hlw Hlev)
    as (s1' & updates & Hreveal' & Hvars & Hups & Htiles).
  { intros c Hc. destruct (Hrowtiles c Hc) as (ch & _ & ->). done. }
  rewrite Hreveal in Hreveal'. injection Hreveal' as <-.
  assert (Fsecret : secretWord (vars s1) = secretWord (vars s)) by (by rewrite Hvars).
  assert (Frow : currentRow (vars s1) = currentRow (vars s)) by (by rewrite Hvars).
  assert (Fkeys : keyStatuses (vars s1)
                  = updateKeyStatuses updates (keyStatuses (vars s))) by (by rewrite Hvars).
  assert (Hsound1 : keysSound s1).
  { unfold keysSound. rewrite Fsecret, Fkeys.
    by apply (updates_keep_sound w (secretWord (vars s)) ev updates). }
  assert (Hshown1 : ∀ row, row ≤ currentRow (vars s) → shownRow row s1).
  { intros row Hr. destruct (decide (row = currentRow (vars s))) as [->|Hne].
    - exists w, ev. split; [done|]. split; [by rewrite Fsecret|].
      intros col Hc. destruct (Hrowtiles col Hc) as (ch & Hch & Ht).
      destruct (lookup_lt_is_Some_2 ev col) as [st Hst]; [lia|].
      exists ch, st. split; [done|]. split; [done|].
      rewrite Htiles, decide_True by done. rewrite Ht, Hst. done.
    - apply (shownRow_ext row s); [done| |apply Hshown; lia].
      intros c _. rewrite Htiles. rewrite decide_False; [done|]. intros [? _]. done. }
  assert (Hbelow1 : ∀ row col, currentRow (vars s) < row → row < NUM_ROWS →
                               col < NUM_COLS → emptyAt row col s1).
  { intros row col Hr Hr' Hc. unfold emptyAt. rewrite Htiles.
    rewrite decide_False; [by apply Hbelow|]. intros [-> _]. lia. }
  rewrite Hsub. destruct (decide (w = secretWord (vars s))) as [Hwin|Hlose].
  - unfold gameInv, keysSound, shownRow, emptyAt. cbn.
    fold (keysSound s1). fold (shownRow (currentRow (vars s1)) s1).
    rewrite Fsecret, Frow. split; [done|]. split; [by rewrite <- Fsecret|].
    split; [done|]. split; [|split].
    + intros row Hr. destruct (Hshown1 row) as (w' & ev' & ? & ? & ?); [lia|].
      exists w', ev'. by rewrite <- Fsecret.
    + intros row col. apply Hbelow1.
    + intros _. rewrite <- Frow.
      destruct (Hshown1 (currentRow (vars s))) as (w' & ev' & ? & ? & ?); [lia|].
      rewrite Frow. exists w', ev'. by rewrite <- Fsecret.
  - cbv zeta.
    set (s2 := onVars _ s1).
    assert (Hinv2 : isGameOver (vars s2) = false →
                    currentRow (vars s) + 1 < NUM_ROWS → gameInv s2).
    { intros _ Hnext. unfold gameInv, keysSound, shownRow, emptyAt, typedTile. cbn.
      rewrite Fsecret, Frow.
      assert (Fover : isGameOver (vars s1) = false) by (by rewrite Hvars).
      rewrite Fover. split; [done|]. split; [by rewrite <- Fsecret|].
      split; [lia|]. split; [|split].
      - intros row Hr. destruct (Hshown1 row) as (w' & ev' & ? & ? & ?); [lia|].
        exists w', ev'. by rewrite <- Fsecret.
      - intros row col Hr. apply Hbelow1. lia.
      - split; [done|]. split; [lia|]. split; [intros col Hc; lia|].
        intros col _ Hc. apply Hbelow1; [lia|done|done]. }
    change (currentRow (vars s2)) with (currentRow (vars s1) + 1). rewrite Frow.
    destruct (currentRow (vars s) + 1 =? NUM_ROWS) eqn:Hlast.
    + apply Nat.eqb_eq in Hlast.
      unfold gameInv, keysSound, shownRow, emptyAt. cbn.
      rewrite Fsecret, Frow. split; [done|]. split; [by rewrite <- Fsecret|].
      split; [lia|]. split; [|split].
      * intros row Hr. destruct (Hshown1 row) as (w' & ev' & ? & ? & ?); [lia|].
        exists w', ev'. by rewrite <- Fsecret.
      * intros row col Hr. apply Hbelow1. lia.
      * intros Hr. lia.
    + apply Nat.eqb_neq in Hlast. apply Hinv2; [|unfold NUM_ROWS in *; lia].
      unfold s2. cbn. by rewrite Hvars.
Qed.

Lemma isUpperKey_inv key :
  isUpperKey key = true → ∃ ch, key = String ch EmptyString ∧ isUpperLetter ch = true.
Proof. destruct key as [|c [|c' key]]; simpl; try done. by exists c. Qed.

Lemma handleKey_inv key s : gameInv s → gameInv (stateOf (handleKey key s)).
Proof.
  intros Hinv. unfold handleKey.
  destruct (isGameOver (vars s)) eqn:Hover; [done|].
  destruct (decide (key = "Enter")); [by apply submitGuess_inv|].
  destruct (decide (key = "Backspace")); [by apply deleteLetter_inv|].
  destruct (isUpperKey key) eqn:Hkey; [|done].
  apply isUpperKey_inv in Hkey as (ch & -> & Hch). by apply addLetter_inv.
Qed.

Lemma handleHint_page s : tiles (page (handleHint s)) = tiles (page s).
Proof.
  unfold handleHint. destruct (_ || _); [done|]. by destruct (secretWord (vars s)).
Qed.

Lemma step_inv s s' : step s s' → gameInv s → gameInv s'.
Proof.
  intros [key s1|key s1|s1|cb before after s1 Ht] Hinv.
  - by apply handleKey_inv.
  - rewrite onKeyDown_eq. by apply handleKey_inv.
  - apply (gameInv_ext s1); try done; try apply handleHint_page;
      by destruct (handleHint_vars s1) as [->| ->].
  - apply (gameInv_ext s1); try done; try (by rewrite runCallback_vars).
    by destruct cb.
Qed.

Lemma reachable_inv s0 s : reachable s0 s → gameInv s0 → gameInv s.
Proof.
  intros Hreach. induction Hreach as [s|s1 s2 s3 Hstep _ IH]; [done|].
  intros H. apply IH. by apply (step_inv s1).
Qed.

Lemma cleanStart_inv s : cleanStart s → gameInv s.
Proof.
  intros ((Hr & Hc & Hover & _ & Hsecret & _) & Hkeys & Hempty).
  unfold gameInv. rewrite Hover, Hr, Hc. split; [done|]. split.
  { unfold keysSound. rewrite Hkeys. intros L st H. by rewrite lookup_empty in H. }
  split; [lia|]. split; [intros row Hrow; lia|]. split; [intros row col _; apply Hempty|].
  split; [unfold NUM_ROWS; lia|]. split; [lia|]. split; [intros col Hcol; lia|].
  intros col _. apply Hempty. unfold NUM_ROWS. lia.
Qed.

(** Every game [initGame] starts is a clean start. *)
Lemma initGame_clean randomIndex s :
  randomIndex < length ANSWER_WORDS →
  ∃ s', initGame randomIndex s = Done s' ∧ cleanStart s'.
Proof.
  intros Hi.
  destruct (initGame_fresh randomIndex s Hi) as (s' & Hs' & Hfresh & _ & _ & _ & _ & Hk & _).
  exists s'. split; [done|]. split; [done|]. split; [done|].
  intros row col Hr Hc. unfold emptyAt.
  revert Hs'. unfold initGame. cbn [ANSWER_WORDS].
  destruct (ANSWER_WORDS !! randomIndex) as [word|]; [|done].
  intros [= <-].
  change (getTile row col
            (buildBoard (mkState
               (mkVars (toUpperCase word) 0 0 false true false (gamesPlayed (vars s))
                       (gamesWon (vars s)) (currentStreak (vars s)) ∅) (page s)))
          = Some emptyTile).
  rewrite buildBoard_lookup. by rewrite decide_True.
Qed.

Lemma craneGame_clean : cleanStart craneGame.
Proof.
  destruct (initGame_clean 8 loadedPage) as (s' & Hs' & Hclean); [simpl; lia|].
  unfold craneGame. by rewrite Hs'.
Qed.

(** X15. The keyboard never lies.  In every state reached in a game that
    [initGame] started, a letter whose key status is correct or present
    occurs in the secret, and a letter whose key status is absent does not
    occur in it. *)
Theorem keyboard_tells_truth (s0 s : State) :
  cleanStart s0 → reachable s0 s →
  secretWord (vars s) = secretWord (vars s0) ∧
  ∀ L st, keyStatuses (vars s) !! L = Some st →
          if isCredited st then L ∈ split (secretWord (vars s0))
          else L ∉ split (secretWord (vars s0)).
Proof.
  intros Hclean Hreach.
  destruct (reachable_keeps _ _ Hreach) as [Hs _].
  destruct (reachable_inv _ _ Hreach (cleanStart_inv _ Hclean)) as (_ & Hsound & _).
  split; [done|]. unfold keysSound in Hsound. by rewrite Hs in Hsound.
Qed.

Lemma keyboard_tells_truth_witness :
  let s := pressKeys (typeAndEnter "TRACE") craneGame in
  cleanStart craneGame ∧ reachable craneGame s ∧
  secretWord (vars s) = secretWord (vars craneGame) ∧
  ∀ L st, keyStatuses (vars s) !! L = Some st →
          if isCredited st then L ∈ split (secretWord (vars craneGame))
          else L ∉ split (secretWord (vars craneGame)).
Proof.
  cbv zeta.
  assert (Hreach : reachable craneGame (pressKeys (typeAndEnter "TRACE") craneGame))
    by apply pressKeys_reachable.
  split; [exact craneGame_clean|]. split; [exact Hreach|].
  exact (keyboard_tells_truth craneGame _ craneGame_clean Hreach).
Defined.

(** X16. In a game that [initGame] started and that is not over, a complete
    row always reads back as a word of five capital letters, so
    [isValidGuess] accepts it: the branch of [submitGuess] that answers
    "Not in word list" is never taken, and Enter on a complete row is always
    a valid submission. *)
Theorem complete_row_is_valid (s0 s : State) :
  cleanStart s0 → reachable s0 s →
  isGameOver (vars s) = false → currentCol (vars s) = NUM_COLS →
  isWord (getCurrentGuess s) = true ∧ isValidGuess (getCurrentGuess s) = true ∧
  validSubmission (PressKey "Enter") s = true.
Proof.
  intros Hclean Hreach Hover Hcol.
  pose proof (reachable_inv _ _ Hreach (cleanStart_inv _ Hclean)) as Hinv.
  destruct (complete_row_word s Hinv Hover Hcol) as (w & Hg & Hw & _).
  rewrite Hg. split; [done|]. split; [by apply isWord_valid|].
  unfold validSubmission, submits.
  rewrite bool_decide_eq_true_2, Hover, Hcol, Nat.leb_refl, Hg by done.
  cbn [negb andb]. by apply isWord_valid.
Qed.

Lemma complete_row_is_valid_witness :
  cleanStart craneGame ∧ reachable craneGame typedCRANE ∧
  isGameOver (vars typedCRANE) = false ∧ currentCol (vars typedCRANE) = NUM_COLS ∧
  isWord (getCurrentGuess typedCRANE) = true ∧
  isValidGuess (getCurrentGuess typedCRANE) = true ∧
  validSubmission (PressKey "Enter") typedCRANE = true.
Proof.
  assert (Hreach : reachable craneGame typedCRANE) by apply pressKeys_reachable.
  assert (Hover : isGameOver (vars typedCRANE) = false) by (vm_compute; reflexivity).
  assert (Hcol : currentCol (vars typedCRANE) = NUM_COLS) by (vm_compute; reflexivity).
  split; [exact craneGame_clean|]. split; [exact Hreach|].
  split; [exact Hover|]. split; [exact Hcol|].
  exact (complete_row_is_valid craneGame typedCRANE craneGame_clean Hreach Hover Hcol).
Defined.

(** X17. On the board of a game that [initGame] started, every row above
    the current one shows a guessed word with each tile coloured by the mark
    the evaluator gives that word against the secret, every row below the
    current one is empty, and in a game that ended before the last row the
    current row shows such a word too. *)
Theorem board_shows_evaluations (s0 s : State) :
  cleanStart s0 → reachable s0 s →
  (∀ row, row < currentRow (vars s) → shownRow row s) ∧
  (∀ row col, currentRow (vars s) < row → row < NUM_ROWS → col < NUM_COLS →
              getTile row col s = Some emptyTile) ∧
  (isGameOver (vars s) = true → currentRow (vars s) < NUM_ROWS →
   shownRow (currentRow (vars s)) s).
Proof.
  intros Hclean Hreach.
  destruct (reachable_inv _ _ Hreach (cleanStart_inv _ Hclean))
    as (_ & _ & _ & Hshown & Hbelow & Hrun).
  split; [done|]. split; [done|]. intros Hover. by rewrite Hover in Hrun.
Qed.

Lemma board_shows_evaluations_witness :
  let s := pressKeys (typeAndEnter "TRACE") craneGame in
  cleanStart craneGame ∧ reachable craneGame s ∧
  (∀ row, row < currentRow (vars s) → shownRow row s) ∧
  (∀ row col, currentRow (vars s) < row → row < NUM_ROWS → col < NUM_COLS →
              getTile row col s = Some emptyTile) ∧
  (isGameOver (vars s) = true → currentRow (vars s) < NUM_ROWS →
   shownRow (currentRow (vars s)) s).
Proof.
  cbv zeta.
  assert (Hreach : reachable craneGame (pressKeys (typeAndEnter "TRACE") craneGame))
    by apply pressKeys_reachable.
  split; [exact craneGame_clean|]. split; [exact Hreach|].
  exact (board_shows_evaluations craneGame _ craneGame_clean Hreach).
Defined.

Lemma deleteLetter_typed s tile :
  0 < currentCol (vars s) → currentRow (vars s) < NUM_ROWS →
  getTile (currentRow (vars s)) (currentCol (vars s) - 1) s = Some tile →
  deleteLetter s
  = putTile (currentRow (vars s)) (currentCol (vars s) - 1)
            (mkTile "" false (tileStatus tile))
            (onVars (set_currentCol (currentCol (vars s) - 1)) s).
Proof.
  intros Hc Hr Ht. unfold deleteLetter.
  assert (H1 : (currentCol (vars s) =? 0) = false) by (apply Nat.eqb_neq; lia).
  assert (H2 : (NUM_ROWS <=? currentRow (vars s)) = false) by (by apply Nat.leb_gt).
  rewrite H1, H2. cbn [orb]. cbv zeta.
  change (currentCol (vars (onVars (set_currentCol (currentCol (vars s) - 1)) s)))
    with (currentCol (vars s) - 1).
  change (getTile (currentRow (vars s)) (currentCol (vars s) - 1)
            (onVars (set_currentCol (currentCol (vars s) - 1)) s))
    with (getTile (currentRow (vars s)) (currentCol (vars s) - 1) s).
  by rewrite Ht.
Qed.

(** X18. Backspace undoes a letter.  In a game that [initGame] started and
    that is not over, with the row not yet complete, pressing a capital
    letter and then Backspace gives back exactly the state before: the
    variables, the tiles and the rest of the page. *)
Theorem backspace_undoes_letter (s0 s : State) (ch : ascii) :
  cleanStart s0 → reachable s0 s →
  isGameOver (vars s) = false → currentCol (vars s) < NUM_COLS →
  isUpperLetter ch = true →
  stateOf (handleKey "Backspace" (stateOf (handleKey (String ch EmptyString) s))) = s.
Proof.
  intros Hclean Hreach Hover Hcol Hch.
  destruct (reachable_inv _ _ Hreach (cleanStart_inv _ Hclean))
    as (_ & _ & _ & _ & _ & Hrun).
  rewrite Hover in Hrun. destruct Hrun as (Hrow & _ & _ & Hempty).
  pose proof (Hempty (currentCol (vars s)) (Nat.le_refl _) Hcol) as Htile.
  unfold emptyAt in Htile.
  rewrite handleKey_letter by done. cbn [stateOf].
  rewrite (addLetter_free _ s emptyTile) by done.
  set (s' := onVars _ _).
  assert (Hover' : isGameOver (vars s') = false) by done.
  assert (Hback : handleKey "Backspace" s' = Done (deleteLetter s')).
  { unfold handleKey. rewrite Hover'.
    destruct (decide ("Backspace" = "Enter")); [done|].
    by destruct (decide ("Backspace" = "Backspace")). }
  rewrite Hback. cbn [stateOf].
  rewrite (deleteLetter_typed s' (mkTile (String ch EmptyString) true None)).
  - change (currentCol (vars s')) with (currentCol (vars s) + 1).
    change (currentRow (vars s')) with (currentRow (vars s)).
    replace (currentCol (vars s) + 1 - 1) with (currentCol (vars s)) by lia.
    unfold s', getTile in *. clear s' Hover' Hback.
    destruct s as [v p]. destruct v, p. cbn in *.
    unfold putTile, onVars, onPage, set_tiles, set_currentCol. cbn.
    f_equal. f_equal. rewrite insert_insert_eq. by apply insert_id.
  - change (currentCol (vars s')) with (currentCol (vars s) + 1). lia.
  - done.
  - change (currentCol (vars s')) with (currentCol (vars s) + 1).
    change (currentRow (vars s')) with (currentRow (vars s)).
    replace (currentCol (vars s) + 1 - 1) with (currentCol (vars s)) by lia.
    unfold s'. change (getTile ?r ?c (onVars ?f ?t)) with (getTile r c t).
    rewrite getTile_putTile. by rewrite decide_True.
Qed.

Lemma backspace_undoes_letter_witness :
  let s := pressKeys ["T"; "R"] craneGame in
  cleanStart craneGame ∧ reachable craneGame s ∧
  isGameOver (vars s) = false ∧ currentCol (vars s) < NUM_COLS ∧
  isUpperLetter "A" = true ∧
  stateOf (handleKey "Backspace" (stateOf (handleKey "A" s))) = s.
Proof.
  cbv zeta.
  assert (Hreach : reachable craneGame (pressKeys ["T"; "R"] craneGame))
    by apply pressKeys_reachable.
  assert (Hover : isGameOver (vars (pressKeys ["T"; "R"] craneGame)) = false)
    by (vm_compute; reflexivity).
  assert (Hcol : currentCol (vars (pressKeys ["T"; "R"] craneGame)) < NUM_COLS)
    by (vm_compute; lia).
  split; [exact craneGame_clean|]. split; [exact Hreach|].
  split; [exact Hover|]. split; [exact Hcol|]. split; [reflexivity|].
  exact (backspace_undoes_letter craneGame _ "A" craneGame_clean Hreach Hover Hcol eq_refl).
Defined.

(** ** Buttons and guards *)





